(** * Coordinate-descent attention: a shallow embedding

    The development follows [coordinate_descent_attention.py].  Tensors are
    modelled one (batch, head) slice at a time: a score tensor is a list of
    rows ([queries] x [keys]), a tensor that kept its reduced dimension
    ([i] x 1) is a column, and the element type is abstract where the code
    only combines torch primitives.  Two element types are used: the exact
    reals ([Rscalar]), for what the iteration computes, and the reals with an
    [exp] that underflows to zero ([Fscalar]), for what depends on a weight
    being exactly zero. *)

From Stdlib Require Import List ZArith Bool Lia.
From Stdlib Require Import Reals Lra.
Import ListNotations.

Set Implicit Arguments.

(** ** Python results *)

Inductive exn : Type :=
| UnboundLocalError
| AssertionError
| IndexError.

Inductive result (A : Type) : Type :=
| Ok (v : A)
| Raise (e : exn).

Arguments Ok {A} v.
Arguments Raise {A} e.

Definition bind {A B : Type} (m : result A) (f : A -> result B) : result B :=
  match m with
  | Ok v => f v
  | Raise e => Raise e
  end.

(** The outcome is not a failed [assert]. *)
Definition no_assert {A : Type} (r : result A) : Prop := r <> Raise AssertionError.

(** ** Element types

    The primitives the source takes from torch, for one dtype.  [lit_tiny]
    is the literal [1e-20] of [log]; [finfo_max] is [torch.finfo(dtype).max];
    [logsumexp] and [softmax] reduce one row (the last axis). *)

Class Scalar (T : Type) : Type := {
  tadd : T -> T -> T;
  tsub : T -> T -> T;
  tmul : T -> T -> T;
  tdiv : T -> T -> T;
  tneg : T -> T;
  texp : T -> T;
  tlog : T -> T;
  tclamp_min : T -> T -> T;
  trelu : T -> T;
  tzero : T;
  tone : T;
  lit_tiny : T;
  finfo_max : T;
  logsumexp : list T -> T;
  softmax : list T -> list T
}.

(** ** Tensor operations on one slice *)

Section Tensor.

Context {T : Type} `{Scalar T}.

Definition row := list T.
Definition matrix := list row.
Definition column := list T.
Definition bmatrix := list (list bool).

(** [zip_with] truncates to the shorter list; the source only combines
    tensors of one shape (or a column with its matrix). *)
Fixpoint zip_with {A B C : Type} (f : A -> B -> C) (xs : list A) (ys : list B)
  : list C :=
  match xs, ys with
  | x :: xs', y :: ys' => f x y :: zip_with f xs' ys'
  | _, _ => []
  end.

Definition mat_map (f : T -> T) (m : matrix) : matrix := map (map f) m.

Definition mat_add (x y : matrix) : matrix := zip_with (zip_with tadd) x y.

(** [m + c] with [c] of shape [i] x 1: entry [r] of the column is added to
    every entry of row [r]. *)
Definition mat_add_col (m : matrix) (c : column) : matrix :=
  zip_with (fun r a => map (fun x => tadd x a) r) m c.

Definition mat_div (m : matrix) (e : T) : matrix := mat_map (fun x => tdiv x e) m.

Definition mat_neg (m : matrix) : matrix := mat_map tneg m.

Definition mat_exp (m : matrix) : matrix := mat_map texp m.

Definition col_scale (e : T) (c : column) : column := map (tmul e) c.

Definition col_sub (c d : column) : column := zip_with tsub c d.

(** [t.logsumexp(dim = -1, keepdim = True)] *)
Definition logsumexp_rows (m : matrix) : column := map logsumexp m.

(** [~mask] *)
Definition mask_not (m : bmatrix) : bmatrix := map (map negb) m.

(** [t.masked_fill(m, v)]: a new tensor, [v] where [m] is true. *)
Definition masked_fill (t : matrix) (m : bmatrix) (v : T) : matrix :=
  zip_with (zip_with (fun x (c : bool) => if c then v else x)) t m.

(** [F.relu] on a tensor. *)
Definition relu (m : matrix) : matrix := mat_map trelu m.

(** [log(t, eps = 1e-20)] of the source: [torch.log(t.clamp(min = eps))]. *)
Definition log (t : column) : column :=
  map (fun x => tlog (tclamp_min x lit_tiny)) t.

(** ** The solver *)

(** [if exists(mask): s = s.masked_fill(~mask, mask_value)] *)
Definition apply_mask (mask : option bmatrix) (mask_value : T) (s : matrix)
  : matrix :=
  match mask with
  | Some m => masked_fill s (mask_not m) mask_value
  | None => s
  end.

(** The local variables [s], [a], [b]; [a] is unbound until the loop body
    has run once. *)
Record locals : Type := Locals {
  loc_s : matrix;
  loc_a : option column;
  loc_b : matrix
}.

(** One pass of the loop body (lines 37-41). *)
Definition loop_body (eps : T) (clamp_fn : matrix -> matrix)
    (mask : option bmatrix) (mask_value : T) (constant : column)
    (st : locals) : locals :=
  let s := apply_mask mask mask_value (loc_s st) in
  let a :=
    col_sub constant
      (col_scale eps (logsumexp_rows (mat_div (mat_add s (loc_b st)) eps))) in
  let b := mat_neg (clamp_fn (mat_add_col s a)) in
  Locals s (Some a) b.

(** [for _ in range(n)] *)
Fixpoint for_range {S : Type} (n : nat) (body : S -> S) (st : S) : S :=
  match n with
  | O => st
  | Datatypes.S n' => for_range n' body (body st)
  end.

Definition coor_descent (s : matrix) (n_iters : Z) (k : column) (eps : T)
    (clamp_fn : matrix -> matrix) (mask : option bmatrix) : result matrix :=
  let mask_value := tneg finfo_max in
  let constant := col_scale eps (log k) in
  let b := mat_neg (clamp_fn s) in
  let st :=
    for_range (Z.to_nat n_iters)
      (loop_body eps clamp_fn mask mask_value constant)
      (Locals s None b) in
  let s := apply_mask mask mask_value (loc_s st) in
  match loc_a st with
  | None => Raise UnboundLocalError
  | Some a => Ok (mat_exp (mat_div (mat_add (mat_add_col s a) (loc_b st)) eps))
  end.

(** The solver with the re-mask after the loop (lines 43-44) removed. *)
Definition coor_descent_no_final_mask (s : matrix) (n_iters : Z) (k : column)
    (eps : T) (clamp_fn : matrix -> matrix) (mask : option bmatrix)
  : result matrix :=
  let mask_value := tneg finfo_max in
  let constant := col_scale eps (log k) in
  let b := mat_neg (clamp_fn s) in
  let st :=
    for_range (Z.to_nat n_iters)
      (loop_body eps clamp_fn mask mask_value constant)
      (Locals s None b) in
  match loc_a st with
  | None => Raise UnboundLocalError
  | Some a =>
      Ok (mat_exp (mat_div (mat_add (mat_add_col (loc_s st) a) (loc_b st)) eps))
  end.

End Tensor.

(** ** Exact real arithmetic as an element type

    [Rscalar fmax] reads every primitive as the real function it computes,
    with [fmax] the largest finite value of the dtype.  Rounding, overflow
    and underflow of the machine formats are outside this instance. *)

Definition Rsum (l : list R) : R := fold_right Rplus 0%R l.

(** The largest entry of a row ([amax]); [0] for an empty row. *)
Definition row_max (l : list R) : R :=
  match l with
  | [] => 0%R
  | x :: l' => fold_left Rmax l' x
  end.

(** torch evaluates [logsumexp] and [softmax] after subtracting the row
    maximum. *)
Definition R_logsumexp (l : list R) : R :=
  let m := row_max l in
  (ln (Rsum (map (fun x => exp (x - m)) l)) + m)%R.

Definition R_softmax (l : list R) : list R :=
  let m := row_max l in
  let e := map (fun x => exp (x - m)%R) l in
  map (fun y => (y / Rsum e)%R) e.

Definition Rscalar (fmax : R) : Scalar R := {|
  tadd := Rplus;
  tsub := Rminus;
  tmul := Rmult;
  tdiv := Rdiv;
  tneg := Ropp;
  texp := exp;
  tlog := ln;
  tclamp_min := Rmax;
  trelu := Rmax 0%R;
  tzero := 0%R;
  tone := 1%R;
  lit_tiny := (/ 10 ^ 20)%R;
  finfo_max := fmax;
  logsumexp := R_logsumexp;
  softmax := R_softmax
|}.

(** [torch.finfo(torch.float32).max] = (2 - 2^-23) * 2^127. *)
Definition float32_max : R := IZR (2 ^ 128 - 2 ^ 104).

(** ** Real arithmetic with underflow as an element type

    [Fscalar fmax u] is [Rscalar fmax] with an [exp] that returns zero
    below the threshold [u], as the [exp] of a machine format does where
    the result is less than half its least positive value; [logsumexp] and
    [softmax] are evaluated with that [exp].  A quotient that the format
    rounds to [-inf] stays the real number it is: it lies below [u], so its
    [exp] is zero in both readings.  Rounding is outside this instance. *)

Definition flush_exp (u x : R) : R := if Rlt_dec x u then 0%R else exp x.

Definition F_logsumexp (u : R) (l : list R) : R :=
  let m := row_max l in
  (ln (Rsum (map (fun x => flush_exp u (x - m)) l)) + m)%R.

Definition F_softmax (u : R) (l : list R) : list R :=
  let m := row_max l in
  let e := map (fun x => flush_exp u (x - m)%R) l in
  map (fun y => (y / Rsum e)%R) e.

Definition Fscalar (fmax u : R) : Scalar R := {|
  tadd := Rplus;
  tsub := Rminus;
  tmul := Rmult;
  tdiv := Rdiv;
  tneg := Ropp;
  texp := flush_exp u;
  tlog := ln;
  tclamp_min := Rmax;
  trelu := Rmax 0%R;
  tzero := 0%R;
  tone := 1%R;
  lit_tiny := (/ 10 ^ 20)%R;
  finfo_max := fmax;
  logsumexp := F_logsumexp u;
  softmax := F_softmax u
|}.

(** The [exp] of float32 is zero from [-104] down: [exp(-104)] is less than
    [2^-150], half the least positive float32. *)
Definition float32_exp_min : R := (-104)%R.

(** ** The iteration as the specification words it

    Over the reals: [log] and [logsumexp] are the mathematical functions, a
    mask marks valid entries, and the loop is entered at least once, so [a]
    is always defined. *)

Section SolverSpec.

Variable fmax : R.
Variable eps : R.
Variable clamp_fn : list (list R) -> list (list R).
Variable mask : option (list (list bool)).
Variable k : list R.

(** Invalid entries are set to the most negative representable value. *)
Definition spec_sentinel (s : list (list R)) : list (list R) :=
  match mask with
  | None => s
  | Some m =>
      zip_with (zip_with (fun x (valid : bool) => if valid then x else (- fmax)%R))
        s m
  end.

(** [a = eps*log(k) - eps*logsumexp((scores + b)/eps)], one entry per query. *)
Definition spec_a (s b : list (list R)) : list R :=
  zip_with
    (fun kr xs => (eps * ln kr - eps * ln (Rsum (map (fun x => exp (x / eps)) xs)))%R)
    k (zip_with (zip_with Rplus) s b).

(** [b = -clamp_fn(scores + a)] *)
Definition spec_b (s : list (list R)) (a : list R) : list (list R) :=
  map (map Ropp) (clamp_fn (zip_with (fun r ar => map (fun x => (x + ar)%R) r) s a)).

(** [m + 1] passes of the loop, from the scores [s] and the penalty [b]. *)
Fixpoint spec_passes (m : nat) (s b : list (list R))
  : list (list R) * list R * list (list R) :=
  let s1 := spec_sentinel s in
  let a1 := spec_a s1 b in
  let b1 := spec_b s1 a1 in
  match m with
  | O => (s1, a1, b1)
  | S m' => spec_passes m' s1 b1
  end.

Definition coor_descent_spec (s : list (list R)) (n_iters : Z) : list (list R) :=
  let '(s1, a, b) :=
    spec_passes (Z.to_nat n_iters - 1) s (map (map Ropp) (clamp_fn s)) in
  let s2 := spec_sentinel s1 in
  zip_with (zip_with (fun x y => exp ((x + y) / eps)))
    (zip_with (fun r ar => map (fun x => (x + ar)%R) r) s2 a) b.

End SolverSpec.

(** ** The causal mask of [Attention.forward] *)

(** [torch.ones((i, j), dtype = torch.bool)] *)
Definition ones_bool (i j : nat) : list (list bool) := repeat (repeat true j) i.

(** Map with the index of each element, counting from [start]. *)
Fixpoint imap_from {A B : Type} (start : nat) (f : nat -> A -> B) (l : list A)
  : list B :=
  match l with
  | [] => []
  | x :: l' => f start x :: imap_from (S start) f l'
  end.

(** [t.triu(diagonal)]: entries below the given diagonal become zero
    ([False]); entry [(r, c)] is kept when [c - r >= diagonal]. *)
Definition triu (t : list (list bool)) (diagonal : Z) : list (list bool) :=
  imap_from 0
    (fun r xs =>
       imap_from 0
         (fun c (x : bool) =>
            if (diagonal <=? Z.of_nat c - Z.of_nat r)%Z then x else false)
         xs)
    t.

(** [torch.ones((i, j), dtype = torch.bool).triu(j - i + 1)]; [true] marks a
    disallowed pair. *)
Definition causal_mask (i j : nat) : list (list bool) :=
  triu (ones_bool i j) (Z.of_nat j - Z.of_nat i + 1).

(** Entry [(r, c)] of a boolean tensor. *)
Definition bentry (m : list (list bool)) (r c : nat) : bool :=
  nth c (nth r m []) false.

(** ** The softmax branch as the specification words it *)

(** The standard softmax of a row. *)
Definition softmax_std (l : list R) : list R :=
  map (fun x => (exp x / Rsum (map exp l))%R) l.

(** The similarity matrix of [i] queries and [j] keys with the most negative
    value [- fmax] at every causally disallowed entry, entry [(r, c)] being
    disallowed when [c > r + (j - i)]. *)
Definition causal_fill_spec (fmax : R) (i j : nat) (sim : list (list R))
  : list (list R) :=
  imap_from 0
    (fun r xs =>
       imap_from 0
         (fun c x =>
            if (Z.of_nat r + (Z.of_nat j - Z.of_nat i) <? Z.of_nat c)%Z
            then (- fmax)%R else x)
         xs)
    sim.

(** ** The attention block *)

Section AttentionModel.

Context {T : Type} `{Scalar T}.

Definition vec := list T.

(** An [Attention] module: its configuration and its learned parts.
    [scale] holds [dim_head ** -0.5]; [norm], [to_qkv] and [to_out] act on
    the feature axis of one position; [null_k] and [null_v] are the two
    halves of [null_kv], each of shape [heads] x [attn_null_kv] x [dim_head]. *)
Record Attention : Type := {
  dim_head : nat;
  heads : nat;
  scale : T;
  use_coor_descent : bool;
  coor_descent_iters : Z;
  coor_descent_sparsity_k : T;
  coor_descent_eps : T;
  norm : vec -> vec;
  null_k : list (list vec);
  null_v : list (list vec);
  to_qkv : vec -> vec;
  to_out : vec -> vec
}.

(** Number of entries of a 3-axis tensor. *)
Definition numel (t : list (list vec)) : nat :=
  fold_right (fun m acc => fold_right (fun v acc' => length v + acc') acc m) 0 t.

(** [t.chunk(3, dim = -1)] on a feature vector of length [3 * dim_inner]. *)
Definition chunk3 (dim_inner : nat) (t : vec) : vec * vec * vec :=
  (firstn dim_inner t,
   firstn dim_inner (skipn dim_inner t),
   skipn (2 * dim_inner) t).

(** The features of head [hd] in ['b n (h d) -> b h n d']. *)
Definition head_slice (d hd : nat) (t : vec) : vec :=
  firstn d (skipn (hd * d) t).

Definition dot (u v : vec) : T := fold_right tadd tzero (zip_with tmul u v).

(** [einsum('i d, j d -> i j', q, k)] *)
Definition einsum_qk (q k : list vec) : matrix :=
  map (fun qr => map (fun kc => dot qr kc) k) q.

(** [einsum('i j, j d -> i d', attn, v)] *)
Definition einsum_av (d : nat) (attn : matrix) (v : list vec) : list vec :=
  map (fun w =>
         fold_right (zip_with tadd) (repeat tzero d)
           (zip_with (fun wj vj => map (tmul wj) vj) w v))
      attn.

(** Lines 111-129: from the similarity matrix of shape [i] x [j] to the
    attention weights. *)
Definition attn_of_sim (A : Attention) (i j : nat) (sim : matrix)
  : result matrix :=
  let causal := causal_mask i j in
  if use_coor_descent A then
    let sparsity_k :=
      map (fun o => tmul o (coor_descent_sparsity_k A)) (repeat tone i) in
    coor_descent sim (coor_descent_iters A) sparsity_k (coor_descent_eps A)
      relu (Some (mask_not causal))
  else
    let sim' := masked_fill sim causal (tneg finfo_max) in
    Ok (map softmax sim').

(** Queries, keys and values of head [hd] for one sequence [x] (lines
    92-108), null keys and values prepended. *)
Definition head_qkv (A : Attention) (hd : nat) (x : list vec)
  : list vec * list vec * list vec :=
  let x := map (norm A) x in
  let dim_inner := dim_head A * heads A in
  let qkv := map (fun t => chunk3 dim_inner (to_qkv A t)) x in
  let q := map (fun t => head_slice (dim_head A) hd (fst (fst t))) qkv in
  let k := map (fun t => head_slice (dim_head A) hd (snd (fst t))) qkv in
  let v := map (fun t => head_slice (dim_head A) hd (snd t)) qkv in
  let '(k, v) :=
    if 0 <? numel (null_k A) + numel (null_v A) then
      (nth hd (null_k A) [] ++ k, nth hd (null_v A) [] ++ v)
    else (k, v) in
  (map (map (fun t => tmul t (scale A))) q, k, v).

(** The similarity matrix [sim] of head [hd]. *)
Definition head_sim (A : Attention) (hd : nat) (x : list vec) : matrix :=
  let '(q, k, _) := head_qkv A hd x in einsum_qk q k.

(** The attention weights [attn] of head [hd]. *)
Definition head_attn (A : Attention) (hd : nat) (x : list vec) : result matrix :=
  let '(q, k, _) := head_qkv A hd x in
  attn_of_sim A (length q) (length k) (einsum_qk q k).

Definition head_out (A : Attention) (hd : nat) (x : list vec)
  : result (list vec) :=
  let '(_, _, v) := head_qkv A hd x in
  bind (head_attn A hd x) (fun attn => Ok (einsum_av (dim_head A) attn v)).

(** All results of a list of computations, or the first exception. *)
Fixpoint sequence {A : Type} (l : list (result A)) : result (list A) :=
  match l with
  | [] => Ok []
  | r :: l' => bind r (fun v => bind (sequence l') (fun vs => Ok (v :: vs)))
  end.

(** ['h n d -> n (h d)'] for a sequence of [n] positions. *)
Fixpoint merge_heads (n : nat) (outs : list (list vec)) : list vec :=
  match outs with
  | [] => repeat [] n
  | o :: outs' => zip_with (@app T) o (merge_heads n outs')
  end.

(** [Attention.forward] on one sequence of the batch. *)
Definition Attention_forward1 (A : Attention) (x : list vec) : result (list vec) :=
  bind (sequence (map (fun hd => head_out A hd x) (seq 0 (heads A))))
       (fun outs => Ok (map (to_out A) (merge_heads (length x) outs))).

Definition Attention_forward (A : Attention) (x : list (list vec))
  : result (list (list vec)) :=
  sequence (map (Attention_forward1 A) x).

End AttentionModel.

Arguments Attention T : clear implicits.

(** ** The transformer stack *)

(** What [Transformer.forward] has computed so far, in program order. *)
Inductive event : Type :=
| EvTokenEmb
| EvPosEmb
| EvAttention
| EvFeedForward
| EvToLogits.

(** A computation with the list of the steps it ran and its outcome. *)
Definition traced (A : Type) : Type := (list event * result A)%type.

Definition tret {A : Type} (v : A) : traced A := ([], Ok v).

Definition tbind {A B : Type} (m : traced A) (f : A -> traced B) : traced B :=
  match m with
  | (tr, Ok v) => let '(tr', r) := f v in (tr ++ tr', r)
  | (tr, Raise e) => (tr, Raise e)
  end.

(** Run one step: log it, then give its outcome. *)
Definition step {A : Type} (e : event) (r : result A) : traced A := ([e], r).

Notation "x <- m ;; f" := (tbind m (fun x => f))
  (at level 61, m at next level, right associativity).

(** A tensor of token ids of shape [batch] x [n]. *)
Record ids : Type := Ids {
  ids_n : nat;
  ids_rows : list (list Z)
}.

Section TransformerModel.

Context {T : Type} `{Scalar T}.

(** A [Transformer]: [token_emb] and [pos_emb] are the weight rows of the
    two embeddings, [layers] the (attention, feed-forward) pairs, the
    feed-forward and [to_logits] acting on one position. *)
Record Transformer : Type := {
  seq_len : Z;
  token_emb : list (list T);
  pos_emb : list (list T);
  layers : list (Attention T * (list T -> list T));
  to_logits : list T -> list T
}.

(** [nn.Embedding]: row [id] of the weight, an [IndexError] when [id] is
    out of range. *)
Definition embedding (weight : list (list T)) (id : Z) : result (list T) :=
  if (id <? 0)%Z then Raise IndexError
  else match nth_error weight (Z.to_nat id) with
       | Some v => Ok v
       | None => Raise IndexError
       end.

(** [torch.arange(n)] *)
Definition arange (n : nat) : list Z := map Z.of_nat (seq 0 n).

Definition vec_add (u v : list T) : list T := zip_with tadd u v.

(** Sum of two activations of shape [batch] x [n] x [dim]. *)
Definition act_add (x y : list (list (list T))) : list (list (list T)) :=
  zip_with (zip_with vec_add) x y.

(** Lines 193-195. *)
Fixpoint run_layers (ls : list (Attention T * (list T -> list T)))
    (x : list (list (list T))) : traced (list (list (list T))) :=
  match ls with
  | [] => tret x
  | (attn, ff) :: ls' =>
      y <- step EvAttention (Attention_forward attn x) ;;
      let x1 := act_add y x in
      z <- step EvFeedForward (Ok (map (map ff) x1)) ;;
      let x2 := act_add z x1 in
      run_layers ls' x2
  end.

Definition Transformer_forward (M : Transformer) (x : ids)
  : traced (list (list (list T))) :=
  let n := ids_n x in
  if (Z.of_nat n <=? seq_len M)%Z then
    e <- step EvTokenEmb
           (sequence (map (fun r => sequence (map (embedding (token_emb M)) r))
                          (ids_rows x))) ;;
    p <- step EvPosEmb (sequence (map (embedding (pos_emb M)) (arange n))) ;;
    let x0 := map (fun r => zip_with vec_add r p) e in
    x1 <- run_layers (layers M) x0 ;;
    step EvToLogits (Ok (map (map (to_logits M)) x1))
  else ([], Raise AssertionError).

End TransformerModel.

Arguments Transformer T : clear implicits.

(** ** The solver over a store of tensor objects

    Python passes tensors by reference.  Here every tensor lives in a store,
    a name holds a reference, and each torch call of the solver
    ([masked_fill], [+], [/], [logsumexp], [exp], ...) is the out-of-place
    operation the source calls: it reads its operands and allocates its
    result.  [clamp_fn] is a callable of the caller: it is handed the
    reference of its argument and returns the reference of its result, and
    what it does to the store is its own business.  The default [F.relu] is
    out-of-place ([st_mat1 relu]); [torch.relu_] and
    [partial(F.relu, inplace = True)] overwrite their argument
    ([in_place relu]). *)

Section StoreModel.

Context {T : Type} `{Scalar T}.

Inductive tensor : Type :=
| TMat (m : list (list T))
| TCol (c : list T)
| TBool (m : list (list bool)).

Definition ref : Type := nat.
Definition store : Type := list tensor.

Definition St (A : Type) : Type := store -> A * store.

Definition sret {A : Type} (v : A) : St A := fun h => (v, h).

Definition sbind {A B : Type} (m : St A) (f : A -> St B) : St B :=
  fun h => let '(v, h1) := m h in f v h1.

Notation "x <~ m ;; f" := (sbind m (fun x => f))
  (at level 61, m at next level, right associativity).

Definition alloc (t : tensor) : St ref := fun h => (length h, h ++ [t]).

Definition deref (r : ref) : St tensor := fun h => (nth r h (TMat []), h).

Definition as_mat (t : tensor) : list (list T) :=
  match t with TMat m => m | _ => [] end.

Definition as_col (t : tensor) : list T :=
  match t with TCol c => c | _ => [] end.

Definition as_bool (t : tensor) : list (list bool) :=
  match t with TBool m => m | _ => [] end.

(** An out-of-place operation on one operand, and on two. *)
Definition op1 (f : tensor -> tensor) (r : ref) : St ref :=
  t <~ deref r ;; alloc (f t).

Definition op2 (f : tensor -> tensor -> tensor) (r1 r2 : ref) : St ref :=
  t1 <~ deref r1 ;; t2 <~ deref r2 ;; alloc (f t1 t2).

(** A callable on one tensor. *)
Definition callable : Type := ref -> St ref.

Definition st_mat1 (f : matrix -> matrix) : callable :=
  op1 (fun t => TMat (f (as_mat t))).

(** The store with the object at [r] replaced; no object is added. *)
Fixpoint set_nth {A : Type} (r : nat) (v : A) (l : list A) : list A :=
  match l, r with
  | [], _ => []
  | _ :: l', O => v :: l'
  | x :: l', Datatypes.S r' => x :: set_nth r' v l'
  end.

Definition write (r : ref) (t : tensor) : St unit :=
  fun h => (tt, set_nth r t h).

(** The in-place form of a function on tensors: the argument is
    overwritten with the result and returned. *)
Definition in_place (f : matrix -> matrix) : callable :=
  fun r =>
    t <~ deref r ;;
    _ <~ write r (TMat (f (as_mat t))) ;;
    sret r.

Definition st_apply_mask (mask : option ref) (mask_value : T) (s : ref)
  : St ref :=
  match mask with
  | Some m =>
      nm <~ op1 (fun t => TBool (mask_not (as_bool t))) m ;;
      op2 (fun ts tm => TMat (masked_fill (as_mat ts) (as_bool tm) mask_value))
          s nm
  | None => sret s
  end.

(** The names [s], [a], [b] and the objects they are bound to. *)
Record st_locals : Type := StLocals {
  st_s : ref;
  st_a : option ref;
  st_b : ref
}.

Definition st_loop_body (eps : T) (clamp_fn : callable)
    (mask : option ref) (mask_value : T) (constant : ref) (st : st_locals)
  : St st_locals :=
  s <~ st_apply_mask mask mask_value (st_s st) ;;
  t1 <~ op2 (fun x y => TMat (mat_add (as_mat x) (as_mat y))) s (st_b st) ;;
  t2 <~ st_mat1 (fun m => mat_div m eps) t1 ;;
  t3 <~ op1 (fun t => TCol (logsumexp_rows (as_mat t))) t2 ;;
  t4 <~ op1 (fun t => TCol (col_scale eps (as_col t))) t3 ;;
  a <~ op2 (fun x y => TCol (col_sub (as_col x) (as_col y))) constant t4 ;;
  t5 <~ op2 (fun x y => TMat (mat_add_col (as_mat x) (as_col y))) s a ;;
  t6 <~ clamp_fn t5 ;;
  b <~ st_mat1 mat_neg t6 ;;
  sret (StLocals s (Some a) b).

Fixpoint st_for_range {S : Type} (n : nat) (body : S -> St S) (st : S) : St S :=
  match n with
  | O => sret st
  | Datatypes.S n' => st1 <~ body st ;; st_for_range n' body st1
  end.

Definition st_coor_descent (s : ref) (n_iters : Z) (k : ref) (eps : T)
    (clamp_fn : callable) (mask : option ref) : St (result ref) :=
  let mask_value := tneg finfo_max in
  kc <~ op1 (fun t => TCol (map (fun x => tclamp_min x lit_tiny) (as_col t))) k ;;
  lk <~ op1 (fun t => TCol (map tlog (as_col t))) kc ;;
  constant <~ op1 (fun t => TCol (col_scale eps (as_col t))) lk ;;
  c0 <~ clamp_fn s ;;
  b <~ st_mat1 mat_neg c0 ;;
  st <~ st_for_range (Z.to_nat n_iters)
         (st_loop_body eps clamp_fn mask mask_value constant)
         (StLocals s None b) ;;
  s1 <~ st_apply_mask mask mask_value (st_s st) ;;
  match st_a st with
  | None => sret (Raise UnboundLocalError)
  | Some a =>
      t1 <~ op2 (fun x y => TMat (mat_add_col (as_mat x) (as_col y))) s1 a ;;
      t2 <~ op2 (fun x y => TMat (mat_add (as_mat x) (as_mat y))) t1 (st_b st) ;;
      t3 <~ st_mat1 (fun m => mat_div m eps) t2 ;;
      r <~ st_mat1 mat_exp t3 ;;
      sret (Ok r)
  end.

(** [h'] is [h] with newly allocated objects after it. *)
Definition extends (h h' : store) : Prop := exists ext, h' = h ++ ext.

(** A computation that only allocates. *)
Definition allocating {A : Type} (m : St A) : Prop :=
  forall h, extends h (snd (m h)).

(** Reference [r] is bound in [h] to the object [t]. *)
Definition holds (h : store) (r : ref) (t : tensor) : Prop :=
  nth_error h r = Some t.

(** The references of [st] hold the values of the local variables [p]. *)
Definition agrees (h : store) (st : st_locals) (p : locals) : Prop :=
  holds h (st_s st) (TMat (loc_s p)) /\
  holds h (st_b st) (TMat (loc_b p)) /\
  match st_a st, loc_a p with
  | Some r, Some a => holds h r (TCol a)
  | None, None => True
  | _, _ => False
  end.

Definition mask_holds (h : store) (mask : option ref) (bm : option bmatrix)
  : Prop :=
  match mask, bm with
  | Some r, Some m => holds h r (TBool m)
  | None, None => True
  | _, _ => False
  end.

End StoreModel.

(** ** The solver on one row

    Every step of the solver acts on the rows of the score tensor
    independently: [logsumexp] reduces within a row, the rest is
    elementwise.  [row_solver] is [coor_descent] with [F.relu] as
    [clamp_fn], read on a single row with its target [kr] and its row of
    the mask. *)

Section RowSolver.

Context {T : Type} `{Scalar T}.

Record rlocals : Type := RLocals {
  r_s : list T;
  r_a : option T;
  r_b : list T
}.

Definition row_mask (m : option (list bool)) (mask_value : T) (x : list T)
  : list T :=
  match m with
  | Some m =>
      zip_with (fun x (c : bool) => if c then mask_value else x) x (map negb m)
  | None => x
  end.

Definition row_neg_relu (x : list T) : list T := map tneg (map trelu x).

Definition row_body (eps : T) (m : option (list bool)) (mask_value : T)
    (constant : T) (st : rlocals) : rlocals :=
  let s := row_mask m mask_value (r_s st) in
  let a :=
    tsub constant
      (tmul eps (logsumexp (map (fun x => tdiv x eps) (zip_with tadd s (r_b st))))) in
  let b := row_neg_relu (map (fun x => tadd x a) s) in
  RLocals s (Some a) b.

Definition row_solver (x : list T) (n_iters : Z) (kr : T) (eps : T)
    (m : option (list bool)) : result (list T) :=
  let mask_value := tneg finfo_max in
  let constant := tmul eps (tlog (tclamp_min kr lit_tiny)) in
  let st :=
    for_range (Z.to_nat n_iters) (row_body eps m mask_value constant)
      (RLocals x None (row_neg_relu x)) in
  let s := row_mask m mask_value (r_s st) in
  match r_a st with
  | None => Raise UnboundLocalError
  | Some a =>
      Ok (map texp
            (map (fun x => tdiv x eps)
               (zip_with tadd (map (fun x => tadd x a) s) (r_b st))))
  end.

(** Row [r] of an optional mask, when the mask has such a row. *)
Definition mask_row (mask : option bmatrix) (r : nat)
  : option (option (list bool)) :=
  match mask with
  | None => Some None
  | Some m => option_map Some (nth_error m r)
  end.

(** Row [r] of the local variables is the row state [rst]. *)
Definition row_of (st : locals) (r : nat) (rst : rlocals) : Prop :=
  nth_error (loc_s st) r = Some (r_s rst) /\
  nth_error (loc_b st) r = Some (r_b rst) /\
  match loc_a st, r_a rst with
  | Some a, Some ar => nth_error a r = Some ar
  | None, None => True
  | _, _ => False
  end.

End RowSolver.

(** ** The dynamics of one row over the reals

    With [E_j = exp(s_j / eps)] for the (masked) scores of a row and
    [S = exp(- a / eps)] for its dual variable, one pass of the loop takes
    the level [S] to [level_step S], and the weights read from a level are
    [min(E_j, S) / S]. *)

Definition level_step (kp : R) (Es : list R) (S : R) : R :=
  (Rsum (map (fun E => Rmin E S) Es) / kp)%R.

Definition level (kp : R) (Es : list R) (S1 : R) (m : nat) : R :=
  Nat.iter m (level_step kp Es) S1.

Definition weights_at (Es : list R) (S : R) : list R :=
  map (fun E => (Rmin E S / S)%R) Es.

(** Total weight of a row at level [S], as a multiple of the target. *)
Definition level_ratio (kp : R) (Es : list R) (S : R) : R :=
  (level_step kp Es S / S)%R.

(** Total weight of row [r] of what the solver returned ([0] when it
    raised). *)
Definition row_mass (res : result (list (list R))) (r : nat) : R :=
  match res with
  | Ok out => Rsum (nth r out [])
  | Raise _ => 0%R
  end.

(** Entry [(r, c)] of what the solver returned. *)
Definition weight_at (res : result (list (list R))) (r c : nat) : R :=
  match res with
  | Ok out => nth c (nth r out []) 0%R
  | Raise _ => 0%R
  end.

(** Weight of row [r] of what the solver returned that lies on the entries
    the mask marks valid (all entries without a mask). *)
Definition valid_mass (res : result (list (list R)))
    (mask : option (list (list bool))) (r : nat) : R :=
  match res with
  | Ok out =>
      match mask with
      | Some m =>
          Rsum (zip_with (fun w (c : bool) => if c then w else 0%R)
                  (nth r out []) (nth r m []))
      | None => Rsum (nth r out [])
      end
  | Raise _ => 0%R
  end.

(** Row [r] of a result: the row when there is one, or the exception. *)
Definition row_of_result {A : Type} (res : result (list A)) (r : nat)
  : result (option A) :=
  match res with
  | Ok out => Ok (nth_error out r)
  | Raise e => Raise e
  end.

(** The shape of a two-axis tensor: the length of each row. *)
Definition shape {A : Type} (m : list (list A)) : list nat := map (@length A) m.

(** The local variables of the solver have the shape [sh] of the scores. *)
Definition shaped {T : Type} (sh : list nat) (st : @locals T) : Prop :=
  shape (loc_s st) = sh /\ shape (loc_b st) = sh /\
  match loc_a st with Some a => length a = length sh | None => True end.

(** An attention block whose weights can be computed: the softmax branch,
    or the solver with at least one iteration. *)
Definition runs {T : Type} (A : Attention T) : Prop :=
  use_coor_descent A = false \/ (1 <= coor_descent_iters A)%Z.

(** A token id inside the table of an embedding. *)
Definition in_table {T : Type} (weight : list (list T)) (id : Z) : Prop :=
  (0 <= id < Z.of_nat (length weight))%Z.

(** The steps of a stack of [depth] layers. *)
Definition layer_events (depth : nat) : list event :=
  concat (repeat [EvAttention; EvFeedForward] depth).

(** The outcome is a value or an [IndexError]. *)
Definition only_index_error {A : Type} (r : result A) : Prop :=
  forall e, r = Raise e -> e = IndexError.

(** A computation whose result, when it is a reference, was allocated by
    the computation itself. *)
Definition returns_new {T : Type} (m : @St T (result ref)) : Prop :=
  forall h,
    match fst (m h) with
    | Ok l => length h <= l
    | Raise _ => True
    end.

(** Number of entries of a row that its mask allows (all of them without a
    mask), number of entries it hides, and whether it allows entry [j]. *)
Definition valid_count (mr : option (list bool)) (x : list R) : nat :=
  match mr with
  | Some m => length (filter (fun c : bool => c) m)
  | None => length x
  end.

Definition masked_count (mr : option (list bool)) : nat :=
  match mr with
  | Some m => length (filter negb m)
  | None => 0
  end.

Definition allowed (mr : option (list bool)) (j : nat) : Prop :=
  match mr with
  | Some m => nth_error m j = Some true
  | None => True
  end.

(** ** Small concrete instances *)

(** A one-head attention block on one feature, softmax branch, one null
    key and value. *)
Definition attention_example : Attention R := {|
  dim_head := 1;
  heads := 1;
  scale := 1%R;
  use_coor_descent := false;
  coor_descent_iters := 50;
  coor_descent_sparsity_k := 1%R;
  coor_descent_eps := (1 / 10)%R;
  norm := fun v => v;
  null_k := [[[0%R]]];
  null_v := [[[0%R]]];
  to_qkv := fun v => v ++ v ++ v;
  to_out := fun v => v
|}.

(** A transformer with two tokens, at most two positions and one layer. *)
Definition transformer_example : Transformer R := {|
  seq_len := 2;
  token_emb := [[0%R]; [1%R]];
  pos_emb := [[0%R]; [0%R]];
  layers := [(attention_example, fun v => v)];
  to_logits := fun v => v
|}.

(** A store holding a score tensor, a column of targets and a mask. *)
Definition store_example : @store R :=
  [TMat [[1; 2; 0]%R]; TCol [1%R]; TBool [[true; true; false]]].

(** A store holding a score tensor with a negative entry and a column of
    targets. *)
Definition store_negative : @store R := [TMat [[(-1)%R]]; TCol [1%R]].

(** The block of [attention_example] switched to the solver, with no
    iteration configured. *)
Definition attention_no_iters : Attention R := {|
  dim_head := 1;
  heads := 1;
  scale := 1%R;
  use_coor_descent := true;
  coor_descent_iters := 0;
  coor_descent_sparsity_k := 1%R;
  coor_descent_eps := (1 / 10)%R;
  norm := fun v => v;
  null_k := [[[0%R]]];
  null_v := [[[0%R]]];
  to_qkv := fun v => v ++ v ++ v;
  to_out := fun v => v
|}.

(** The block of [attention_example] with the solver, 50 iterations. *)
Definition attention_solver_example : Attention R := {|
  dim_head := 1;
  heads := 1;
  scale := 1%R;
  use_coor_descent := true;
  coor_descent_iters := 50;
  coor_descent_sparsity_k := 1%R;
  coor_descent_eps := (1 / 10)%R;
  norm := fun v => v;
  null_k := [[[0%R]]];
  null_v := [[[0%R]]];
  to_qkv := fun v => v ++ v ++ v;
  to_out := fun v => v
|}.

(** * Properties *)

(** ** Lists *)

Section ZipLemmas.

Variables A B C D : Type.

Lemma zip_with_map_l (f : B -> C -> D) (g : A -> B) (xs : list A) (ys : list C) :
  zip_with f (map g xs) ys = zip_with (fun x y => f (g x) y) xs ys.
Proof.
  revert ys; induction xs as [|x xs IH]; intros [|y ys]; simpl; try reflexivity.
  now rewrite IH.
Qed.

Lemma zip_with_map_r (f : A -> C -> D) (g : B -> C) (xs : list A) (ys : list B) :
  zip_with f xs (map g ys) = zip_with (fun x y => f x (g y)) xs ys.
Proof.
  revert ys; induction xs as [|x xs IH]; intros [|y ys]; simpl; try reflexivity.
  now rewrite IH.
Qed.

Lemma map_zip_with (f : A -> B -> C) (g : C -> D) (xs : list A) (ys : list B) :
  map g (zip_with f xs ys) = zip_with (fun x y => g (f x y)) xs ys.
Proof.
  revert ys; induction xs as [|x xs IH]; intros [|y ys]; simpl; try reflexivity.
  now rewrite IH.
Qed.

Lemma zip_with_ext (f g : A -> B -> C) (xs : list A) (ys : list B) :
  (forall x y, In x xs -> In y ys -> f x y = g x y) ->
  zip_with f xs ys = zip_with g xs ys.
Proof.
  revert ys; induction xs as [|x xs IH]; intros [|y ys] Hfg; simpl;
    try reflexivity.
  rewrite Hfg by (now left). f_equal.
  apply IH. intros; apply Hfg; now right.
Qed.

Lemma zip_with_length (f : A -> B -> C) (xs : list A) (ys : list B) :
  length (zip_with f xs ys) = Nat.min (length xs) (length ys).
Proof.
  revert ys; induction xs as [|x xs IH]; intros [|y ys]; simpl; try reflexivity.
  now rewrite IH.
Qed.

Lemma zip_with_nth (f : A -> B -> C) (xs : list A) (ys : list B) n da db dc :
  n < length xs -> n < length ys ->
  nth n (zip_with f xs ys) dc = f (nth n xs da) (nth n ys db).
Proof.
  revert ys n; induction xs as [|x xs IH]; intros [|y ys] [|n]; simpl;
    intros; try lia; try reflexivity.
  apply IH; lia.
Qed.

End ZipLemmas.

(** Filling twice through the same mask is filling once. *)
Lemma zip_fill_idem (A : Type) (v : A) (xs : list A) (m : list bool) :
  zip_with (fun x (c : bool) => if c then v else x)
    (zip_with (fun x (c : bool) => if c then v else x) xs m) m
  = zip_with (fun x (c : bool) => if c then v else x) xs m.
Proof.
  revert m; induction xs as [|x xs IH]; intros [|c m]; simpl; try reflexivity.
  rewrite IH. now destruct c.
Qed.

(** ** The loop of the solver, for any element type *)

Section SolverGeneric.

Context {T : Type} `{Scalar T}.

Variable eps : T.
Variable clamp_fn : @matrix T -> @matrix T.
Variable mask : option bmatrix.
Variable mask_value : T.
Variable constant : @column T.

Let body := loop_body eps clamp_fn mask mask_value constant.

Lemma masked_fill_idem (s : @matrix T) (m : bmatrix) (v : T) :
  masked_fill (masked_fill s m v) m v = masked_fill s m v.
Proof.
  unfold masked_fill.
  revert m; induction s as [|r s IH]; intros [|mr m]; simpl; try reflexivity.
  now rewrite IH, zip_fill_idem.
Qed.

Lemma apply_mask_idem (s : @matrix T) :
  apply_mask mask mask_value (apply_mask mask mask_value s)
  = apply_mask mask mask_value s.
Proof.
  unfold apply_mask. destruct mask; [apply masked_fill_idem | reflexivity].
Qed.

(** Once [a] is bound and [s] is masked they stay so. *)
Lemma for_range_bound (n : nat) (st : locals) :
  (exists a, loc_a st = Some a) ->
  apply_mask mask mask_value (loc_s st) = loc_s st ->
  (exists a, loc_a (for_range n body st) = Some a) /\
  apply_mask mask mask_value (loc_s (for_range n body st))
  = loc_s (for_range n body st).
Proof.
  revert st; induction n as [|n IH]; intros st Ha Hs; simpl.
  - now split.
  - apply IH; unfold body, loop_body; simpl.
    + eexists; reflexivity.
    + apply apply_mask_idem.
Qed.

Lemma for_range_succ (n : nat) (st : locals) :
  (exists a, loc_a (for_range (S n) body st) = Some a) /\
  apply_mask mask mask_value (loc_s (for_range (S n) body st))
  = loc_s (for_range (S n) body st).
Proof.
  simpl. apply for_range_bound; unfold body, loop_body; simpl.
  - eexists; reflexivity.
  - apply apply_mask_idem.
Qed.

End SolverGeneric.

(** The re-mask after the loop never changes the result: the scores bound
    to [s] when the loop ends are already masked, and without an iteration
    both versions stop at the unbound [a]. *)
Lemma final_mask_redundant {T : Type} `{Scalar T} (s : @matrix T) (n_iters : Z)
    (k : @column T) (eps : T) (clamp_fn : @matrix T -> @matrix T) (mask : option bmatrix) :
  coor_descent_no_final_mask s n_iters k eps clamp_fn mask
  = coor_descent s n_iters k eps clamp_fn mask.
Proof.
  unfold coor_descent_no_final_mask, coor_descent.
  destruct (Z.to_nat n_iters) as [|n].
  - reflexivity.
  - match goal with
    | |- context [for_range (S n) ?b ?st] =>
        destruct (for_range_succ eps clamp_fn mask (tneg finfo_max)
                    (col_scale eps (log k)) n st) as [[a Ha] Hs]
    end.
    rewrite Ha, Hs. reflexivity.
Qed.

Lemma coor_descent_unbound {T : Type} `{Scalar T} (s : @matrix T) (n_iters : Z)
    (k : @column T) (eps : T) (clamp_fn : @matrix T -> @matrix T) (mask : option bmatrix) :
  (n_iters <= 0)%Z ->
  coor_descent s n_iters k eps clamp_fn mask = Raise UnboundLocalError.
Proof.
  intros Hn. unfold coor_descent.
  replace (Z.to_nat n_iters) with 0%nat by lia. reflexivity.
Qed.

Lemma coor_descent_returns {T : Type} `{Scalar T} (s : @matrix T) (n_iters : Z)
    (k : @column T) (eps : T) (clamp_fn : @matrix T -> @matrix T) (mask : option bmatrix) :
  (1 <= n_iters)%Z ->
  exists v, coor_descent s n_iters k eps clamp_fn mask = Ok v.
Proof.
  intros Hn. unfold coor_descent.
  destruct (Z.to_nat n_iters) as [|n] eqn:E; [lia|].
  match goal with
  | |- context [for_range (S n) ?b ?st] =>
      destruct (for_range_succ eps clamp_fn mask (tneg finfo_max)
                  (col_scale eps (log k)) n st) as [[a Ha] _]
  end.
  rewrite Ha. eexists; reflexivity.
Qed.

(** ** Real arithmetic *)

Lemma Rsum_app (l1 l2 : list R) : Rsum (l1 ++ l2) = (Rsum l1 + Rsum l2)%R.
Proof.
  unfold Rsum. induction l1 as [|x l1 IH]; simpl; [lra | rewrite IH; lra].
Qed.

Lemma Rsum_scale (c : R) (f : R -> R) (l : list R) :
  Rsum (map (fun x => (c * f x)%R) l) = (c * Rsum (map f l))%R.
Proof.
  unfold Rsum. induction l as [|x l IH]; simpl; [lra | rewrite IH; lra].
Qed.

Lemma Rsum_nonneg (l : list R) :
  Forall (fun x => (0 <= x)%R) l -> (0 <= Rsum l)%R.
Proof.
  unfold Rsum. induction 1; simpl; lra.
Qed.

Lemma Rsum_exp_pos (f : R -> R) (l : list R) :
  l <> [] -> (0 < Rsum (map (fun x => exp (f x)) l))%R.
Proof.
  destruct l as [|x l]; [congruence | intros _].
  change (0 < exp (f x) + Rsum (map (fun x => exp (f x)) l))%R.
  assert (0 <= Rsum (map (fun x => exp (f x)) l))%R.
  { apply Rsum_nonneg, Forall_forall. intros y Hy.
    apply in_map_iff in Hy as [z [<- _]]. left; apply exp_pos. }
  pose proof (exp_pos (f x)). lra.
Qed.

Lemma Rsum_map_exp_pos (l : list R) : l <> [] -> (0 < Rsum (map exp l))%R.
Proof.
  intros Hl. exact (Rsum_exp_pos (fun y => y) Hl).
Qed.

(** Subtracting the row maximum does not change the value of [logsumexp]. *)
Lemma R_logsumexp_eq (l : list R) :
  R_logsumexp l = ln (Rsum (map exp l)).
Proof.
  unfold R_logsumexp. destruct l as [|x l].
  - simpl. lra.
  - set (m := row_max (x :: l)). set (xs := x :: l).
    assert (Hxs : xs <> []) by (unfold xs; congruence).
    replace (map (fun y => exp (y - m)) xs)
      with (map (fun y => (exp (- m) * exp y)%R) xs).
    2:{ apply map_ext; intros y. rewrite <- exp_plus. f_equal; lra. }
    rewrite Rsum_scale, ln_mult, ln_exp; [lra | apply exp_pos |].
    apply (Rsum_map_exp_pos Hxs).
Qed.

(** ** The solver against the iteration of the specification *)

Section SolverRefinement.

Variable fmax : R.
Variable eps : R.
Variable clamp_fn : list (list R) -> list (list R).
Variable mask : option (list (list bool)).
Variable k : list R.
Hypothesis k_ge_1 : Forall (fun x => (1 <= x)%R) k.

Let RS : Scalar R := Rscalar fmax.
#[local] Existing Instance RS.

Lemma log_ge_1 : log k = map ln k.
Proof.
  unfold log. apply map_ext_in. intros x Hx.
  pose proof (proj1 (Forall_forall _ _) k_ge_1 _ Hx) as Hx1.
  simpl. rewrite Rmax_left; [reflexivity|].
  assert (Hp : (1 <= 10 ^ 20)%R) by (apply pow_R1_Rle; lra).
  pose proof (Rinv_le_contravar 1 (10 ^ 20) Rlt_0_1 Hp) as Hi.
  rewrite Rinv_1 in Hi. simpl in Hx1. lra.
Qed.

Lemma apply_mask_spec (s : list (list R)) :
  apply_mask mask (tneg finfo_max) s = spec_sentinel fmax mask s.
Proof.
  unfold apply_mask, spec_sentinel. destruct mask as [m|]; [|reflexivity].
  unfold masked_fill, mask_not. rewrite zip_with_map_r.
  apply zip_with_ext. intros x y _ _.
  rewrite zip_with_map_r. apply zip_with_ext. intros u c _ _.
  now destruct c.
Qed.

Lemma dual_a_spec (s b : list (list R)) :
  col_sub (col_scale eps (log k))
    (col_scale eps (logsumexp_rows (mat_div (mat_add s b) eps)))
  = spec_a eps k s b.
Proof.
  rewrite log_ge_1.
  unfold col_sub, col_scale, logsumexp_rows, mat_div, mat_map, mat_add, spec_a.
  rewrite !map_map, zip_with_map_l, zip_with_map_r.
  apply zip_with_ext. intros kr xs _ _. simpl.
  rewrite R_logsumexp_eq, map_map. reflexivity.
Qed.

Lemma dual_b_spec (s : list (list R)) (a : list R) :
  mat_neg (clamp_fn (mat_add_col s a)) = spec_b clamp_fn s a.
Proof. reflexivity. Qed.

Lemma loop_body_spec (s b : list (list R)) (a0 : option (list R)) :
  loop_body eps clamp_fn mask (tneg finfo_max) (col_scale eps (log k))
    (Locals s a0 b)
  = let s1 := spec_sentinel fmax mask s in
    let a1 := spec_a eps k s1 b in
    Locals s1 (Some a1) (spec_b clamp_fn s1 a1).
Proof.
  unfold loop_body; simpl loc_s; simpl loc_b.
  rewrite apply_mask_spec, dual_a_spec, dual_b_spec. reflexivity.
Qed.

Lemma loop_spec (m : nat) (s b : list (list R)) (a0 : option (list R)) :
  for_range (S m)
    (loop_body eps clamp_fn mask (tneg finfo_max) (col_scale eps (log k)))
    (Locals s a0 b)
  = let '(s1, a, b1) := spec_passes fmax eps clamp_fn mask k m s b in
    Locals s1 (Some a) b1.
Proof.
  revert s b a0; induction m as [|m IH]; intros s b a0.
  - simpl. apply loop_body_spec.
  - change (for_range (S (S m)) ?f ?st) with (for_range (S m) f (f st)).
    rewrite loop_body_spec. cbv zeta. rewrite IH. reflexivity.
Qed.

Lemma final_weights_spec (s b : list (list R)) (a : list R) :
  mat_exp (mat_div (mat_add (mat_add_col s a) b) eps)
  = zip_with (zip_with (fun x y => exp ((x + y) / eps)))
      (zip_with (fun r ar => map (fun x => (x + ar)%R) r) s a) b.
Proof.
  unfold mat_exp, mat_div, mat_map, mat_add, mat_add_col.
  rewrite map_map, map_zip_with.
  apply zip_with_ext. intros x y _ _.
  rewrite map_map, map_zip_with. reflexivity.
Qed.

Lemma coor_descent_refines (s : list (list R)) (n_iters : Z) :
  (1 <= n_iters)%Z ->
  coor_descent s n_iters k eps clamp_fn mask
  = Ok (coor_descent_spec fmax eps clamp_fn mask k s n_iters).
Proof.
  intros Hn. unfold coor_descent, coor_descent_spec.
  destruct (Z.to_nat n_iters) as [|m] eqn:E; [lia|].
  replace (S m - 1) with m by lia.
  rewrite loop_spec.
  change (mat_neg (clamp_fn s)) with (map (map Ropp) (clamp_fn s)).
  destruct (spec_passes fmax eps clamp_fn mask k m s (map (map Ropp) (clamp_fn s)))
    as [[s1 a] b1].
  simpl loc_a; simpl loc_s; simpl loc_b.
  rewrite apply_mask_spec, final_weights_spec. reflexivity.
Qed.

End SolverRefinement.

(** ** The causal mask *)

Lemma imap_from_nth (A B : Type) (f : nat -> A -> B) (l : list A)
    (start n : nat) (da : A) (db : B) :
  n < length l ->
  nth n (imap_from start f l) db = f (start + n) (nth n l da).
Proof.
  revert start n; induction l as [|x l IH]; intros start [|n] Hn; simpl in *;
    try lia.
  - now rewrite Nat.add_0_r.
  - rewrite (IH (S start) n) by lia. f_equal. lia.
Qed.

Lemma imap_from_length (A B : Type) (f : nat -> A -> B) (l : list A) (start : nat) :
  length (imap_from start f l) = length l.
Proof.
  revert start; induction l as [|x l IH]; intros start; simpl; [|rewrite IH];
    reflexivity.
Qed.

Lemma nth_repeat_lt (A : Type) (x d : A) (n m : nat) :
  n < m -> nth n (repeat x m) d = x.
Proof.
  revert n; induction m as [|m IH]; intros [|n] Hn; simpl; try lia;
    [reflexivity | apply IH; lia].
Qed.

Lemma causal_mask_entry (i j r c : nat) :
  r < i -> c < j ->
  bentry (causal_mask i j) r c
  = (Z.of_nat j - Z.of_nat i + 1 <=? Z.of_nat c - Z.of_nat r)%Z.
Proof.
  intros Hr Hc. unfold bentry, causal_mask, triu, ones_bool.
  rewrite imap_from_nth with (da := repeat true j)
    by (now rewrite repeat_length).
  rewrite nth_repeat_lt by assumption.
  rewrite imap_from_nth with (da := true) by (now rewrite repeat_length).
  rewrite nth_repeat_lt by assumption. simpl.
  now destruct (_ <=? _)%Z.
Qed.

Lemma causal_mask_rows (i j : nat) : length (causal_mask i j) = i.
Proof.
  unfold causal_mask, triu, ones_bool.
  now rewrite imap_from_length, repeat_length.
Qed.

Lemma causal_mask_cols (i j : nat) (r : list bool) :
  In r (causal_mask i j) -> length r = j.
Proof.
  unfold causal_mask, triu, ones_bool.
  generalize (Z.of_nat j - Z.of_nat i + 1)%Z as d. intros d.
  generalize 0 at 1 as start.
  induction i as [|i IH]; intros start; simpl; [tauto|].
  intros [<- | Hin].
  - now rewrite imap_from_length, repeat_length.
  - now apply (IH (S start)).
Qed.

(** ** Which exceptions a forward pass can raise *)

Lemma no_assert_bind (A B : Type) (m : result A) (f : A -> result B) :
  no_assert m -> (forall v, no_assert (f v)) -> no_assert (bind m f).
Proof.
  unfold no_assert. destruct m as [v|e]; simpl; intros Hm Hf.
  - apply Hf.
  - intros E. apply Hm. congruence.
Qed.

Lemma no_assert_sequence (A : Type) (l : list (result A)) :
  Forall no_assert l -> no_assert (sequence l).
Proof.
  induction 1 as [|r l Hr Hl IH]; simpl.
  - discriminate.
  - apply no_assert_bind; [assumption|]. intros v.
    apply no_assert_bind; [assumption|]. discriminate.
Qed.

Lemma no_assert_map_sequence (A B : Type) (f : A -> result B) (l : list A) :
  (forall x, no_assert (f x)) -> no_assert (sequence (map f l)).
Proof.
  intros Hf. apply no_assert_sequence, Forall_forall.
  intros r Hr. apply in_map_iff in Hr as [x [<- _]]. apply Hf.
Qed.

Section NoAssert.

Context {T : Type} `{Scalar T}.

Lemma no_assert_coor_descent (s : @matrix T) n_iters k eps clamp_fn mask :
  no_assert (coor_descent s n_iters k eps clamp_fn mask).
Proof.
  unfold coor_descent. destruct (loc_a _); discriminate.
Qed.

Lemma no_assert_attn_of_sim (A : Attention T) i j sim :
  no_assert (attn_of_sim A i j sim).
Proof.
  unfold attn_of_sim. destruct (use_coor_descent A).
  - apply no_assert_coor_descent.
  - discriminate.
Qed.

Lemma no_assert_Attention_forward (A : Attention T) x :
  no_assert (Attention_forward A x).
Proof.
  unfold Attention_forward. apply no_assert_map_sequence. intros s.
  unfold Attention_forward1. apply no_assert_bind; [|discriminate].
  apply no_assert_map_sequence. intros hd.
  unfold head_out, head_attn.
  destruct (head_qkv A hd s) as [[q k] v].
  apply no_assert_bind; [|discriminate]. apply no_assert_attn_of_sim.
Qed.

Lemma no_assert_embedding (w : list (list T)) (id : Z) : no_assert (embedding w id).
Proof.
  unfold embedding. destruct (id <? 0)%Z; [discriminate|].
  destruct (nth_error _ _); discriminate.
Qed.

Lemma no_assert_tbind (A B : Type) (m : traced A) (f : A -> traced B) :
  no_assert (snd m) -> (forall v, no_assert (snd (f v))) ->
  no_assert (snd (tbind m f)).
Proof.
  destruct m as [tr [v|e]]; simpl; intros Hm Hf.
  - specialize (Hf v). destruct (f v); assumption.
  - intros E. apply Hm. congruence.
Qed.

Lemma no_assert_run_layers ls (x : list (list (list T))) :
  no_assert (snd (run_layers ls x)).
Proof.
  revert x; induction ls as [|[attn ff] ls IH]; intros x; cbn [run_layers].
  - discriminate.
  - apply no_assert_tbind; [apply no_assert_Attention_forward|]. intros y.
    apply no_assert_tbind; [discriminate|]. intros z. apply IH.
Qed.

Lemma forward_too_long (M : Transformer T) (x : ids) :
  (seq_len M < Z.of_nat (ids_n x))%Z ->
  Transformer_forward M x = ([], Raise AssertionError).
Proof.
  intros Hn. unfold Transformer_forward.
  destruct (Z.leb_spec (Z.of_nat (ids_n x)) (seq_len M)); [lia | reflexivity].
Qed.

Lemma forward_within_limit (M : Transformer T) (x : ids) :
  (Z.of_nat (ids_n x) <= seq_len M)%Z ->
  no_assert (snd (Transformer_forward M x)).
Proof.
  intros Hn. unfold Transformer_forward.
  destruct (Z.leb_spec (Z.of_nat (ids_n x)) (seq_len M)); [|lia].
  apply no_assert_tbind.
  { simpl. apply no_assert_map_sequence. intros r.
    apply no_assert_map_sequence. apply no_assert_embedding. }
  intros e. apply no_assert_tbind.
  { simpl. apply no_assert_map_sequence. apply no_assert_embedding. }
  intros p. apply no_assert_tbind; [apply no_assert_run_layers|].
  intros x1. discriminate.
Qed.

End NoAssert.

(** ** The solver allocates and never writes, when [clamp_fn] does not *)

Section StoreFrame.

Context {T : Type} `{Scalar T}.

Lemma extends_refl (h : @store T) : extends h h.
Proof. exists []. now rewrite app_nil_r. Qed.

Lemma extends_trans (h1 h2 h3 : @store T) :
  extends h1 h2 -> extends h2 h3 -> extends h1 h3.
Proof.
  intros [e1 ->] [e2 ->]. exists (e1 ++ e2). now rewrite app_assoc.
Qed.

Lemma extends_nth_error (h h' : @store T) (l : ref) :
  extends h h' -> l < length h -> nth_error h' l = nth_error h l.
Proof.
  intros [ext ->] Hl. now apply nth_error_app1.
Qed.

Lemma holds_extends (h h' : @store T) r t :
  extends h h' -> holds h r t -> holds h' r t.
Proof.
  unfold holds. intros He Hr.
  rewrite (extends_nth_error He); [assumption|].
  apply nth_error_Some. congruence.
Qed.

Lemma allocating_sret (A : Type) (v : A) : allocating (@sret T A v).
Proof. intros h. apply extends_refl. Qed.

Lemma allocating_alloc (t : @tensor T) : allocating (alloc t).
Proof. intros h. now exists [t]. Qed.

Lemma allocating_deref (r : ref) : allocating (@deref T r).
Proof. intros h. apply extends_refl. Qed.

Lemma allocating_sbind (A B : Type) (m : @St T A) (f : A -> St B) :
  allocating m -> (forall v, allocating (f v)) -> allocating (sbind m f).
Proof.
  intros Hm Hf h. unfold sbind.
  specialize (Hm h). destruct (m h) as [v h1]. simpl in Hm.
  eapply extends_trans; [exact Hm | apply Hf].
Qed.

Lemma allocating_op1 (f : @tensor T -> @tensor T) (r : ref) : allocating (op1 f r).
Proof.
  apply allocating_sbind; [apply allocating_deref|].
  intros t. apply allocating_alloc.
Qed.

Lemma allocating_op2 (f : @tensor T -> @tensor T -> @tensor T) (r1 r2 : ref) :
  allocating (op2 f r1 r2).
Proof.
  apply allocating_sbind; [apply allocating_deref|]. intros t1.
  apply allocating_sbind; [apply allocating_deref|]. intros t2.
  apply allocating_alloc.
Qed.

Lemma allocating_apply_mask (mask : option ref) (v : T) (s : ref) :
  allocating (st_apply_mask mask v s).
Proof.
  destruct mask as [m|]; simpl.
  - apply allocating_sbind; [apply allocating_op1|].
    intros nm. apply allocating_op2.
  - apply allocating_sret.
Qed.

Create HintDb alloc_db.

#[local] Hint Resolve allocating_sret allocating_alloc allocating_deref
  allocating_op1 allocating_op2 allocating_apply_mask : alloc_db.

Ltac alloc_steps :=
  repeat (first
    [ apply allocating_sbind; [solve [unfold st_mat1; auto with alloc_db]|]; intro
    | solve [unfold st_mat1; auto with alloc_db] ]).

Lemma allocating_loop_body eps (clamp_fn : @callable T) mask
    mask_value constant st :
  (forall r, allocating (clamp_fn r)) ->
  allocating (st_loop_body eps clamp_fn mask mask_value constant st).
Proof. intros Hc. unfold st_loop_body. alloc_steps. Qed.

Lemma allocating_for_range (S : Type) (n : nat) (body : S -> @St T S) (st : S) :
  (forall st', allocating (body st')) -> allocating (st_for_range n body st).
Proof.
  intros Hb. revert st; induction n as [|n IH]; intros st; simpl.
  - apply allocating_sret.
  - apply allocating_sbind; [apply Hb | apply IH].
Qed.

Lemma allocating_coor_descent (s : ref) n_iters (k : ref) (eps : T)
    (clamp_fn : @callable T) (mask : option ref) :
  (forall r, allocating (clamp_fn r)) ->
  allocating (st_coor_descent s n_iters k eps clamp_fn mask).
Proof.
  intros Hc. unfold st_coor_descent. cbv zeta.
  do 5 (apply allocating_sbind; [solve [unfold st_mat1; auto with alloc_db]|]; intro).
  apply allocating_sbind.
  { apply allocating_for_range. intros st'. now apply allocating_loop_body. }
  intros st. apply allocating_sbind; [apply allocating_apply_mask|]. intros s1.
  destruct (st_a st); alloc_steps.
Qed.

End StoreFrame.

(** ** The store version computes what the solver computes *)

Section StoreAgreement.

Context {T : Type} `{Scalar T}.

Lemma sbind_run (A B : Type) (m : @St T A) (f : A -> St B) h v h1 :
  m h = (v, h1) -> sbind m f h = f v h1.
Proof. unfold sbind. now intros ->. Qed.

Lemma holds_new (h : @store T) (t : tensor) : holds (h ++ [t]) (length h) t.
Proof.
  unfold holds. rewrite nth_error_app2 by lia.
  now rewrite Nat.sub_diag.
Qed.

Lemma holds_nth (h : @store T) r t d : holds h r t -> nth r h d = t.
Proof. unfold holds. intros Hr. now apply nth_error_nth. Qed.

Lemma mask_holds_extends (h h' : @store T) mask bm :
  extends h h' -> mask_holds h mask bm -> mask_holds h' mask bm.
Proof.
  intros X. destruct mask, bm; simpl; try tauto. now apply holds_extends.
Qed.

(** Running an out-of-place operation: a new reference, bound to the
    result, in a store that extends the old one. *)
Lemma sbind_op1 (B : Type) (f : @tensor T -> @tensor T) (r : ref) (t : tensor)
    (h : store) (k : ref -> St B) :
  holds h r t ->
  exists r' h',
    extends h h' /\ holds h' r' (f t) /\ sbind (op1 f r) k h = k r' h'.
Proof.
  intros Hr. exists (length h), (h ++ [f t]).
  split; [now exists [f t]|]. split; [apply holds_new|].
  unfold op1, sbind, deref, alloc. now rewrite (holds_nth _ Hr).
Qed.

Lemma sbind_op2 (B : Type) (f : @tensor T -> @tensor T -> @tensor T)
    (r1 r2 : ref) (t1 t2 : tensor) (h : store) (k : ref -> St B) :
  holds h r1 t1 -> holds h r2 t2 ->
  exists r' h',
    extends h h' /\ holds h' r' (f t1 t2) /\ sbind (op2 f r1 r2) k h = k r' h'.
Proof.
  intros H1 H2. exists (length h), (h ++ [f t1 t2]).
  split; [now exists [f t1 t2]|]. split; [apply holds_new|].
  unfold op2, sbind, deref, alloc.
  now rewrite (holds_nth _ H1), (holds_nth _ H2).
Qed.

Lemma sbind_apply_mask (B : Type) h mask bm (v : T) sr s (k : ref -> St B) :
  mask_holds h mask bm -> holds h sr (TMat s) ->
  exists sr' h',
    extends h h' /\ holds h' sr' (TMat (apply_mask bm v s)) /\
    sbind (st_apply_mask mask v sr) k h = k sr' h'.
Proof.
  intros Hm Hs. destruct mask as [m|], bm as [b|]; simpl in Hm; try tauto.
  - set (t1 := TBool (mask_not b) : @tensor T).
    set (t2 := TMat (masked_fill s (mask_not b) v) : @tensor T).
    exists (length (h ++ [t1])), ((h ++ [t1]) ++ [t2]).
    split; [|split].
    + exists ([t1] ++ [t2]). now rewrite app_assoc.
    + apply holds_new.
    + unfold st_apply_mask, op1, op2, sbind, deref, alloc.
      rewrite (holds_nth _ Hm).
      assert (Hs1 : holds (h ++ [t1]) sr (TMat s)).
      { eapply holds_extends; [|exact Hs]. now exists [t1]. }
      rewrite (holds_nth _ Hs1), (holds_nth _ (holds_new h _)).
      reflexivity.
  - exists sr, h. repeat split; [apply extends_refl | assumption].
Qed.

Ltac lift_holds :=
  repeat match goal with
  | X : extends ?h0 ?h1, Hh : holds ?h0 _ _ |- _ =>
      apply (holds_extends X) in Hh
  | X : extends ?h0 ?h1, Hh : mask_holds ?h0 _ _ |- _ =>
      apply (@mask_holds_extends h0 h1 _ _ X) in Hh
  end.

Ltac ext_chain :=
  repeat first
    [ eassumption
    | apply extends_refl
    | eapply extends_trans; [eassumption|] ].

Ltac step :=
  let r' := fresh "r" in
  let h' := fresh "h" in
  let X := fresh "X" in
  let Hn := fresh "Hn" in
  let E := fresh "E" in
  lazymatch goal with
  | |- context [sbind (op1 ?f ?r) ?k ?h] =>
      lazymatch goal with
      | Hr : holds h r ?t |- _ =>
          destruct (@sbind_op1 _ f r t h k Hr) as (r' & h' & X & Hn & E)
      end
  | |- context [sbind (op2 ?f ?r1 ?r2) ?k ?h] =>
      lazymatch goal with
      | H1 : holds h r1 ?t1, H2 : holds h r2 ?t2 |- _ =>
          destruct (@sbind_op2 _ f r1 r2 t1 t2 h k H1 H2)
            as (r' & h' & X & Hn & E)
      end
  | |- context [sbind (st_apply_mask ?m ?v ?r) ?k ?h] =>
      lazymatch goal with
      | Hm : mask_holds h m ?bm, Hs : holds h r (TMat ?s) |- _ =>
          destruct (@sbind_apply_mask _ h m bm v r s k Hm Hs)
            as (r' & h' & X & Hn & E)
      end
  end;
  rewrite E; clear E; cbv beta; lift_holds.

Section Loop.

Variable eps : T.
Variable clamp_fn : @matrix T -> @matrix T.
Variable mask : option ref.
Variable bm : option bmatrix.
Variable mask_value : T.
Variable constant : ref.
Variable cv : @column T.

Lemma st_loop_body_agrees h st p :
  mask_holds h mask bm -> holds h constant (TCol cv) -> agrees h st p ->
  exists st' h',
    st_loop_body eps (st_mat1 clamp_fn) mask mask_value constant st h
    = (st', h') /\
    extends h h' /\
    agrees h' st' (loop_body eps clamp_fn bm mask_value cv p).
Proof.
  intros Hm Hc (Hs & Hb & _).
  unfold st_loop_body, st_mat1.
  do 9 step.
  do 2 eexists. split; [reflexivity|]. split; [ext_chain|].
  unfold agrees, loop_body; simpl. repeat split; assumption.
Qed.

Lemma st_for_range_agrees n h st p :
  mask_holds h mask bm -> holds h constant (TCol cv) -> agrees h st p ->
  exists st' h',
    st_for_range n (st_loop_body eps (st_mat1 clamp_fn) mask mask_value constant)
      st h
    = (st', h') /\
    extends h h' /\
    agrees h' st'
      (for_range n (loop_body eps clamp_fn bm mask_value cv) p).
Proof.
  revert h st p; induction n as [|n IH]; intros h st p Hm Hc Ha.
  - exists st, h. repeat split; [apply extends_refl | apply Ha..].
  - destruct (st_loop_body_agrees Hm Hc Ha) as (st1 & h1 & E1 & X1 & A1).
    destruct (IH h1 st1 _ (mask_holds_extends _ _ X1 Hm) (holds_extends X1 Hc) A1)
      as (st2 & h2 & E2 & X2 & A2).
    exists st2, h2. split; [|split].
    + simpl. unfold sbind. now rewrite E1.
    + eapply extends_trans; eassumption.
    + exact A2.
Qed.

End Loop.

Lemma st_coor_descent_agrees h s sm n_iters k kc (eps : T)
    (clamp_fn : @matrix T -> @matrix T) mask bm :
  holds h s (TMat sm) -> holds h k (TCol kc) -> mask_holds h mask bm ->
  match coor_descent sm n_iters kc eps clamp_fn bm with
  | Ok v =>
      exists l h',
        st_coor_descent s n_iters k eps (st_mat1 clamp_fn) mask h = (Ok l, h') /\
        holds h' l (TMat v)
  | Raise e =>
      exists h',
        st_coor_descent s n_iters k eps (st_mat1 clamp_fn) mask h = (Raise e, h')
  end.
Proof.
  intros Hs Hk Hm. unfold st_coor_descent, coor_descent, st_mat1. cbv zeta.
  do 5 step. simpl as_col in *. simpl as_mat in *.
  rewrite map_map in Hn1. fold (log kc) in Hn1.
  match goal with
  | |- context [st_for_range ?n ?body ?st0] =>
      destruct (@st_for_range_agrees eps clamp_fn mask bm (tneg finfo_max) r1
                  (col_scale eps (log kc)) n h4 st0
                  (Locals sm None (mat_neg (clamp_fn sm))))
        as (st' & h5 & E5 & X5 & (As & Ab & Aa));
      [assumption | assumption | repeat split; assumption |]
  end.
  erewrite sbind_run by exact E5. lift_holds.
  step.
  destruct (st_a st') as [ar|], (loc_a (for_range _ _ _)) as [av|]; try tauto.
  - lift_holds. do 4 step.
    do 2 eexists; split; [reflexivity|]. assumption.
  - eexists; reflexivity.
Qed.

End StoreAgreement.

(** ** The softmax branch of the attention block *)

Lemma R_softmax_std (l : list R) : R_softmax l = softmax_std l.
Proof.
  unfold R_softmax, softmax_std. destruct l as [|x0 l0]; [reflexivity|].
  set (l := x0 :: l0). set (m := row_max l).
  assert (Hl : l <> []) by (unfold l; congruence).
  rewrite map_map. apply map_ext. intros x.
  replace (map (fun y => exp (y - m)) l)
    with (map (fun y => (exp (- m) * exp y)%R) l).
  2:{ apply map_ext; intros y. rewrite <- exp_plus. f_equal; lra. }
  rewrite Rsum_scale.
  pose proof (Rsum_map_exp_pos Hl) as Hpos.
  pose proof (exp_pos (- m)) as Hm.
  replace (x - m)%R with (- m + x)%R by lra. rewrite exp_plus.
  field. split; lra.
Qed.

Lemma softmax_std_sum (l : list R) : l <> [] -> Rsum (softmax_std l) = 1%R.
Proof.
  intros Hl. unfold softmax_std.
  pose proof (Rsum_map_exp_pos Hl) as Hpos.
  set (Z := Rsum (map exp l)) in *.
  replace (map (fun x => (exp x / Z)%R) l)
    with (map (fun x => (/ Z * exp x)%R) l)
    by (apply map_ext; intros; unfold Rdiv; lra).
  rewrite Rsum_scale. fold Z. field. lra.
Qed.

Lemma softmax_std_length (l : list R) : length (softmax_std l) = length l.
Proof. unfold softmax_std. apply length_map. Qed.

Lemma imap_from_ext (A B : Type) (f g : nat -> A -> B) (l : list A) (start : nat) :
  (forall n x, In x l -> f n x = g n x) ->
  imap_from start f l = imap_from start g l.
Proof.
  revert start; induction l as [|x l IH]; intros start Hfg; simpl;
    [reflexivity|].
  rewrite Hfg by (now left). f_equal. apply IH. intros; apply Hfg; now right.
Qed.

(** Zipping against an indexed map over a constant list. *)
Lemma zip_imap_repeat (A B C D : Type) (g : A -> C -> D) (f : nat -> B -> C)
    (y : B) (xs : list A) (start n : nat) :
  length xs = n ->
  zip_with g xs (imap_from start f (repeat y n))
  = imap_from start (fun idx x => g x (f idx y)) xs.
Proof.
  revert start n; induction xs as [|x xs IH]; intros start [|n] Hn;
    simpl in *; try discriminate; try reflexivity.
  f_equal. apply IH. lia.
Qed.

Lemma masked_fill_causal (fmax : R) (i j : nat) (sim : list (list R)) :
  length sim = i -> Forall (fun r => length r = j) sim ->
  @masked_fill R sim (causal_mask i j) (- fmax)%R = causal_fill_spec fmax i j sim.
Proof.
  intros Hi Hj. unfold masked_fill, causal_mask, triu, ones_bool, causal_fill_spec.
  rewrite zip_imap_repeat by assumption.
  apply imap_from_ext. intros r xs Hxs.
  rewrite zip_imap_repeat by (exact (proj1 (Forall_forall _ _) Hj _ Hxs)).
  apply imap_from_ext. intros c x _.
  destruct (Z.leb_spec (Z.of_nat j - Z.of_nat i + 1) (Z.of_nat c - Z.of_nat r));
    destruct (Z.ltb_spec (Z.of_nat r + (Z.of_nat j - Z.of_nat i)) (Z.of_nat c));
    try lia; reflexivity.
Qed.

Section SoftmaxBranch.

Variable fmax : R.

Let RS : Scalar R := Rscalar fmax.
#[local] Existing Instance RS.

Variable A : Attention R.
Variable hd : nat.
Variable x : list (list R).

(** Number of keys of the head, null keys included. *)
Let keys : nat := length (snd (fst (head_qkv A hd x))).

Lemma head_qkv_queries : length (fst (fst (head_qkv A hd x))) = length x.
Proof.
  unfold head_qkv. destruct (0 <? _); simpl; now rewrite !length_map.
Qed.

Lemma head_qkv_keys : length x <= keys.
Proof.
  unfold keys, head_qkv. destruct (0 <? _); simpl.
  - rewrite length_app, !length_map. apply Nat.le_add_l.
  - rewrite !length_map. apply Nat.le_refl.
Qed.

Lemma head_sim_shape :
  length (head_sim A hd x) = length x /\
  Forall (fun r => length r = keys) (head_sim A hd x).
Proof.
  unfold head_sim, keys. pose proof head_qkv_queries as Hq.
  destruct (head_qkv A hd x) as [[q k] v]. simpl in *.
  unfold einsum_qk. split.
  - now rewrite length_map.
  - apply Forall_forall. intros r Hr.
    apply in_map_iff in Hr as [qr [<- _]]. now rewrite length_map.
Qed.

Lemma softmax_branch :
  use_coor_descent A = false ->
  head_attn A hd x
  = Ok (map softmax_std
          (causal_fill_spec fmax (length x) keys (head_sim A hd x))).
Proof.
  intros Hu. destruct head_sim_shape as [Hrows Hcols].
  pose proof head_qkv_queries as Hq.
  unfold head_attn, head_sim, keys in *.
  destruct (head_qkv A hd x) as [[q k] v]. simpl in *.
  unfold attn_of_sim. rewrite Hu, Hq.
  rewrite masked_fill_causal by assumption.
  f_equal. apply map_ext. intros r. apply R_softmax_std.
Qed.

Lemma causal_fill_spec_shape (i j : nat) (sim : list (list R)) (r : list R) :
  Forall (fun r => length r = j) sim ->
  In r (causal_fill_spec fmax i j sim) -> length r = j.
Proof.
  unfold causal_fill_spec. generalize 0 at 1 as start.
  induction sim as [|y sim IH]; intros start Hj; simpl; [tauto|].
  inversion Hj as [|? ? Hy Hj']; subst.
  intros [<- | Hin].
  - now rewrite imap_from_length.
  - now apply (IH (S start)).
Qed.

Lemma softmax_branch_rows (w : list R) :
  In w (map softmax_std
          (causal_fill_spec fmax (length x) keys (head_sim A hd x))) ->
  Rsum w = 1%R.
Proof.
  intros Hw. apply in_map_iff in Hw as [r [<- Hr]].
  destruct head_sim_shape as [Hrows Hcols].
  pose proof (causal_fill_spec_shape _ _ Hcols Hr) as Hlen.
  apply softmax_std_sum. intros ->. simpl in Hlen.
  pose proof head_qkv_keys as Hk.
  assert (length x = 0) as Hx by lia.
  unfold causal_fill_spec in Hr.
  assert (Hl : length (head_sim A hd x) = 0) by lia.
  destruct (head_sim A hd x); [simpl in Hr; tauto | discriminate].
Qed.

End SoftmaxBranch.

(** ** Rows are solved independently *)

Lemma nth_error_zip_with (A B C : Type) (f : A -> B -> C) (xs : list A)
    (ys : list B) (n : nat) (x : A) (y : B) :
  nth_error xs n = Some x -> nth_error ys n = Some y ->
  nth_error (zip_with f xs ys) n = Some (f x y).
Proof.
  revert ys n; induction xs as [|x' xs IH]; intros [|y' ys] [|n]; simpl;
    try discriminate.
  - now intros [= ->] [= ->].
  - apply IH.
Qed.

Lemma nth_error_map_some (A B : Type) (f : A -> B) (l : list A) (n : nat) (x : A) :
  nth_error l n = Some x -> nth_error (map f l) n = Some (f x).
Proof.
  revert n; induction l as [|y l IH]; intros [|n]; simpl; try discriminate.
  - now intros [= ->].
  - apply IH.
Qed.

Section RowIndependence.

Context {T : Type} `{Scalar T}.

Variable eps : T.
Variable mask : option bmatrix.
Variable mask_value : T.
Variable constant : @column T.
Variable r : nat.
Variable mr : option (list bool).
Variable cr : T.

Hypothesis mask_r : mask_row mask r = Some mr.
Hypothesis constant_r : nth_error constant r = Some cr.

Lemma apply_mask_row (s : @matrix T) (x : list T) :
  nth_error s r = Some x ->
  nth_error (apply_mask mask mask_value s) r = Some (row_mask mr mask_value x).
Proof.
  intros Hx. unfold apply_mask, row_mask, mask_row in *.
  destruct mask as [m|].
  - destruct (nth_error m r) as [mrow|] eqn:E; [|discriminate].
    injection mask_r as <-.
    unfold masked_fill, mask_not.
    apply nth_error_zip_with; [assumption|].
    now apply nth_error_map_some.
  - injection mask_r as <-. assumption.
Qed.

Lemma loop_body_row (st : locals) (rst : rlocals) :
  row_of st r rst ->
  row_of (loop_body eps relu mask mask_value constant st) r
         (row_body eps mr mask_value cr rst).
Proof.
  intros (Hs & Hb & _). unfold row_of, loop_body, row_body; simpl.
  pose proof (apply_mask_row _ Hs) as Hm.
  assert (Ha : nth_error
                 (col_sub constant
                    (col_scale eps
                       (logsumexp_rows
                          (mat_div
                             (mat_add (apply_mask mask mask_value (loc_s st))
                                (loc_b st)) eps)))) r
               = Some (tsub cr
                         (tmul eps
                            (logsumexp
                               (map (fun x => tdiv x eps)
                                  (zip_with tadd
                                     (row_mask mr mask_value (r_s rst))
                                     (r_b rst))))))).
  { unfold col_sub, col_scale, logsumexp_rows, mat_div, mat_map, mat_add.
    apply nth_error_zip_with; [assumption|].
    apply nth_error_map_some with (f := tmul eps).
    apply nth_error_map_some with (f := logsumexp).
    apply nth_error_map_some with (f := map (fun x => tdiv x eps)).
    now apply nth_error_zip_with. }
  split; [assumption|]. split; [|assumption].
  unfold mat_neg, relu, mat_map, mat_add_col, row_neg_relu.
  apply nth_error_map_some with (f := map tneg).
  apply nth_error_map_some with (f := map trelu).
  now apply nth_error_zip_with with (f := fun r0 a => map (fun x => tadd x a) r0).
Qed.

Lemma for_range_row (n : nat) (st : locals) (rst : rlocals) :
  row_of st r rst ->
  row_of (for_range n (loop_body eps relu mask mask_value constant) st) r
         (for_range n (row_body eps mr mask_value cr) rst).
Proof.
  revert st rst; induction n as [|n IH]; intros st rst Hst; simpl.
  - assumption.
  - apply IH, loop_body_row, Hst.
Qed.

End RowIndependence.

Lemma coor_descent_row {T : Type} `{Scalar T} (s : @matrix T) (n_iters : Z)
    (k : @column T) (eps : T) (mask : option bmatrix) (r : nat) (x : list T)
    (kr : T) (mr : option (list bool)) :
  nth_error s r = Some x -> nth_error k r = Some kr ->
  mask_row mask r = Some mr ->
  match coor_descent s n_iters k eps relu mask with
  | Ok out =>
      exists w, row_solver x n_iters kr eps mr = Ok w /\ nth_error out r = Some w
  | Raise e => row_solver x n_iters kr eps mr = Raise e
  end.
Proof.
  intros Hx Hk Hm. unfold coor_descent, row_solver.
  assert (Hc : nth_error (col_scale eps (log k)) r
               = Some (tmul eps (tlog (tclamp_min kr lit_tiny)))).
  { unfold col_scale, log.
    apply nth_error_map_some with (f := tmul eps).
    now apply nth_error_map_some
      with (f := fun x0 => tlog (tclamp_min x0 lit_tiny)). }
  assert (H0 : row_of (Locals s None (mat_neg (relu s))) r
                 (RLocals x None (row_neg_relu x))).
  { unfold row_of; simpl. split; [assumption|]. split; [|exact I].
    unfold mat_neg, relu, mat_map, row_neg_relu.
    apply nth_error_map_some with (f := map tneg).
    now apply nth_error_map_some with (f := map trelu). }
  pose proof (for_range_row eps mask (tneg finfo_max) (col_scale eps (log k))
                Hm Hc (Z.to_nat n_iters) H0) as (Hs & Hb & Ha).
  destruct (loc_a (for_range _ _ _)) as [a|], (r_a (for_range _ _ _)) as [ar|];
    try tauto.
  eexists. split; [reflexivity|].
  unfold mat_exp, mat_div, mat_map, mat_add, mat_add_col.
  apply nth_error_map_some with (f := map texp).
  apply nth_error_map_some with (f := map (fun x0 => tdiv x0 eps)).
  apply nth_error_zip_with; [|assumption].
  apply nth_error_zip_with with (f := fun r0 a0 => map (fun x0 => tadd x0 a0) r0);
    [|assumption].
  now apply (apply_mask_row mask (tneg finfo_max) r Hm).
Qed.

(** ** One row of the solver in terms of levels *)

Lemma for_range_iter (S : Type) (n : nat) (f : S -> S) (x : S) :
  for_range n f x = Nat.iter n f x.
Proof.
  revert x; induction n as [|n IH]; intros x; simpl; [reflexivity|].
  rewrite IH. clear IH. induction n as [|n IH]; simpl; [reflexivity|].
  now rewrite IH.
Qed.

Lemma for_range_last (S : Type) (n : nat) (f : S -> S) (x : S) :
  for_range (Datatypes.S n) f x = f (for_range n f x).
Proof. now rewrite !for_range_iter. Qed.

Lemma exp_Rmin (p q : R) : exp (Rmin p q) = Rmin (exp p) (exp q).
Proof.
  unfold Rmin. destruct (Rle_dec p q) as [Hpq|Hpq].
  - destruct (Rle_dec (exp p) (exp q)) as [He|He]; [reflexivity|].
    exfalso. apply He. destruct Hpq as [Hlt| ->]; [|lra].
    left. now apply exp_increasing.
  - destruct (Rle_dec (exp p) (exp q)) as [He|He]; [|reflexivity].
    assert (q < p)%R by lra.
    pose proof (exp_increasing q p). lra.
Qed.

Lemma Rmin_scale_r (p q c : R) : (0 < c)%R -> (Rmin p q / c = Rmin (p / c) (q / c))%R.
Proof.
  intros Hc. unfold Rmin.
  assert (Hi : (0 < / c)%R) by now apply Rinv_0_lt_compat.
  destruct (Rle_dec p q) as [Hpq|Hpq], (Rle_dec (p / c) (q / c)) as [Hd|Hd];
    try reflexivity; unfold Rdiv in *; exfalso; nra.
Qed.

Lemma zip_with_same (A B : Type) (f : A -> A -> B) (g h : A -> A) (l : list A) :
  zip_with f (map g l) (map h l) = map (fun x => f (g x) (h x)) l.
Proof.
  induction l as [|x l IH]; simpl; [reflexivity | now rewrite IH].
Qed.

Lemma zip_with_same_l (A B : Type) (f : A -> A -> B) (h : A -> A) (l : list A) :
  zip_with f l (map h l) = map (fun x => f x (h x)) l.
Proof.
  induction l as [|x l IH]; simpl; [reflexivity | now rewrite IH].
Qed.

Section RowLevels.

Variable fmax : R.
Variable eps : R.
Variable kr : R.
Variable mr : option (list bool).
Variable x : list R.

Hypothesis eps_pos : (0 < eps)%R.
Hypothesis x_nonempty : x <> [].
Hypothesis mask_shape :
  match mr with Some m => length m = length x | None => True end.

Let RS : Scalar R := Rscalar fmax.
#[local] Existing Instance RS.

(** The masked scores of the row. *)
Let sm : list R := row_mask mr (- fmax)%R x.
Let kp : R := Rmax kr (/ 10 ^ 20).
Let Es : list R := map (fun t => exp (t / eps)) sm.
Let S1 : R :=
  (Rsum (map (fun y => exp (y / eps)) (zip_with Rplus sm (row_neg_relu x))) / kp)%R.

Lemma kp_pos : (0 < kp)%R.
Proof.
  unfold kp. assert (0 < / 10 ^ 20)%R.
  { apply Rinv_0_lt_compat. apply pow_lt. lra. }
  pose proof (Rmax_r kr (/ 10 ^ 20)). lra.
Qed.

Lemma sm_length : length sm = length x.
Proof.
  unfold sm, row_mask. destruct mr as [m|]; [|reflexivity].
  rewrite zip_with_length, length_map, mask_shape. apply Nat.min_id.
Qed.

Lemma sm_nonempty : sm <> [].
Proof.
  intros E. pose proof sm_length as Hl. rewrite E in Hl.
  destruct x; [now apply x_nonempty | discriminate].
Qed.

Lemma row_mask_sm : row_mask mr (- fmax)%R sm = sm.
Proof.
  unfold sm, row_mask. destruct mr as [m|]; [|reflexivity].
  apply zip_fill_idem.
Qed.

Lemma Es_pos : Forall (fun E => (0 < E)%R) Es.
Proof.
  unfold Es. apply Forall_forall. intros E HE.
  apply in_map_iff in HE as [t [<- _]]. apply exp_pos.
Qed.

Lemma Es_nonempty : Es <> [].
Proof.
  unfold Es. intros E. apply map_eq_nil in E. now apply sm_nonempty.
Qed.

Lemma S1_pos : (0 < S1)%R.
Proof.
  unfold S1. apply Rdiv_lt_0_compat; [|apply kp_pos].
  apply (Rsum_exp_pos (fun y => (y / eps)%R)).
  intros E. apply (f_equal (@length R)) in E.
  rewrite zip_with_length in E. unfold row_neg_relu in E.
  rewrite !length_map, sm_length, Nat.min_id in E.
  destruct x; [now apply x_nonempty | discriminate].
Qed.

Lemma level_step_pos (S : R) : (0 < S)%R -> (0 < level_step kp Es S)%R.
Proof.
  intros HS. unfold level_step. apply Rdiv_lt_0_compat; [|apply kp_pos].
  pose proof Es_pos as Hp. pose proof Es_nonempty as Hn.
  destruct Es as [|E l]; [congruence|].
  inversion Hp as [|? ? HE Hl]; subst. simpl.
  change (fold_right Rplus 0%R (map (fun E0 => Rmin E0 S) l))
    with (Rsum (map (fun E0 => Rmin E0 S) l)).
  assert (0 <= Rsum (map (fun E0 => Rmin E0 S) l))%R.
  { apply Rsum_nonneg, Forall_forall. intros y Hy.
    apply in_map_iff in Hy as [E0 [<- HE0]].
    pose proof (proj1 (Forall_forall _ _) Hl _ HE0).
    apply Rmin_glb; lra. }
  assert (0 < Rmin E S)%R by (apply Rmin_glb_lt; lra).
  unfold Rsum at 1; simpl.
  change (fold_right Rplus 0%R (map (fun E0 => Rmin E0 S) l))
    with (Rsum (map (fun E0 => Rmin E0 S) l)).
  lra.
Qed.

Lemma level_pos (m : nat) : (0 < level kp Es S1 m)%R.
Proof.
  induction m as [|m IH]; simpl.
  - apply S1_pos.
  - unfold level in *. simpl. now apply level_step_pos.
Qed.

(** The dual variable [a] that belongs to a level. *)
Let a_of (S : R) : R := (- (eps * ln S))%R.

Lemma exp_a_of (S t : R) :
  (0 < S)%R -> exp ((t + a_of S) / eps) = (exp (t / eps) / S)%R.
Proof.
  intros HS. unfold a_of.
  replace ((t + - (eps * ln S)) / eps)%R with (t / eps + - ln S)%R
    by (field; lra).
  rewrite exp_plus, exp_Ropp, exp_ln by assumption. reflexivity.
Qed.

(** [a = constant - eps * logsumexp(y / eps)] as a level. *)
Lemma dual_a_level (y : list R) :
  y <> [] ->
  (eps * ln kp - eps * R_logsumexp (map (fun t => t / eps) y))%R
  = a_of (Rsum (map (fun t => exp (t / eps)) y) / kp).
Proof.
  intros Hy. rewrite R_logsumexp_eq, map_map. unfold a_of.
  pose proof (Rsum_exp_pos (fun t => (t / eps)%R) Hy) as HZ.
  pose proof kp_pos as Hk.
  unfold Rdiv at 2. rewrite ln_mult; [|assumption|now apply Rinv_0_lt_compat].
  rewrite ln_Rinv by assumption. ring.
Qed.

(** The scores plus the penalty of a level: [min(s, -a)]. *)
Lemma scores_plus_penalty (S : R) :
  zip_with Rplus sm (row_neg_relu (map (fun t => (t + a_of S)%R) sm))
  = map (fun t => Rmin t (- a_of S)) sm.
Proof.
  unfold row_neg_relu. rewrite !map_map. rewrite zip_with_same_l.
  apply map_ext. intros t. simpl.
  unfold Rmin, Rmax.
  destruct (Rle_dec 0 (t + a_of S)), (Rle_dec t (- a_of S)); lra.
Qed.

Lemma level_of_penalty (S : R) :
  (0 < S)%R ->
  (Rsum (map (fun t => exp (t / eps))
           (map (fun t => Rmin t (- a_of S)) sm)) / kp)%R
  = level_step kp Es S.
Proof.
  intros HS. unfold level_step, Es. rewrite !map_map. do 2 f_equal.
  apply map_ext. intros t.
  rewrite Rmin_scale_r, exp_Rmin by assumption. f_equal.
  unfold a_of. replace (- - (eps * ln S) / eps)%R with (ln S) by (field; lra).
  now apply exp_ln.
Qed.

Let body :=
  row_body eps mr (tneg finfo_max) (tmul eps (tlog (tclamp_min kr lit_tiny))).

Lemma row_body_first :
  body (RLocals x None (row_neg_relu x))
  = RLocals sm (Some (a_of S1))
      (row_neg_relu (map (fun t => (t + a_of S1)%R) sm)).
Proof.
  unfold body, row_body. simpl r_s. simpl r_b.
  change (row_mask mr (tneg finfo_max) x) with sm.
  assert (Ha : tsub (tmul eps (tlog (tclamp_min kr lit_tiny)))
                 (tmul eps
                    (logsumexp
                       (map (fun t => tdiv t eps)
                          (zip_with tadd sm (row_neg_relu x)))))
               = a_of S1).
  { simpl. fold kp. rewrite dual_a_level; [reflexivity|].
    intros E. apply (f_equal (@length R)) in E.
    rewrite zip_with_length in E. unfold row_neg_relu in E.
    rewrite !length_map, sm_length, Nat.min_id in E.
    destruct x; [now apply x_nonempty | discriminate]. }
  rewrite Ha. reflexivity.
Qed.

Lemma row_body_next (S : R) :
  (0 < S)%R ->
  body (RLocals sm (Some (a_of S))
          (row_neg_relu (map (fun t => (t + a_of S)%R) sm)))
  = RLocals sm (Some (a_of (level_step kp Es S)))
      (row_neg_relu (map (fun t => (t + a_of (level_step kp Es S))%R) sm)).
Proof.
  intros HS. unfold body, row_body. simpl r_s. simpl r_b.
  change (row_mask mr (tneg finfo_max) sm) with (row_mask mr (- fmax)%R sm).
  rewrite row_mask_sm.
  assert (Ha : tsub (tmul eps (tlog (tclamp_min kr lit_tiny)))
                 (tmul eps
                    (logsumexp
                       (map (fun t => tdiv t eps)
                          (zip_with tadd sm
                             (row_neg_relu (map (fun t => (t + a_of S)%R) sm))))))
               = a_of (level_step kp Es S)).
  { change (zip_with tadd sm (row_neg_relu (map (fun t => (t + a_of S)%R) sm)))
      with (zip_with Rplus sm (row_neg_relu (map (fun t => (t + a_of S)%R) sm))).
    rewrite scores_plus_penalty.
    simpl. fold kp. rewrite dual_a_level.
    - now rewrite level_of_penalty.
    - intros E. apply map_eq_nil in E. now apply sm_nonempty. }
  rewrite Ha. reflexivity.
Qed.

Lemma row_state (m : nat) :
  for_range (S m) body (RLocals x None (row_neg_relu x))
  = RLocals sm (Some (a_of (level kp Es S1 m)))
      (row_neg_relu (map (fun t => (t + a_of (level kp Es S1 m))%R) sm)).
Proof.
  induction m as [|m IH].
  - simpl. apply row_body_first.
  - rewrite for_range_last, IH. unfold level. simpl Nat.iter.
    apply row_body_next. apply level_pos.
Qed.

(** After [m + 1] passes the solver returns the weights of level [m]. *)
Lemma row_solver_levels (m : nat) :
  row_solver x (Z.of_nat (S m)) kr eps mr
  = Ok (weights_at Es (level kp Es S1 m)).
Proof.
  unfold row_solver. rewrite Nat2Z.id. fold body. rewrite row_state.
  simpl r_a. simpl r_s. simpl r_b. cbv iota.
  change (row_mask mr (tneg finfo_max) sm) with (row_mask mr (- fmax)%R sm).
  rewrite row_mask_sm. f_equal.
  set (S := level kp Es S1 m).
  assert (HS : (0 < S)%R) by apply level_pos.
  unfold row_neg_relu, weights_at, Es. rewrite !map_map.
  rewrite zip_with_same. rewrite !map_map.
  apply map_ext. intros t. simpl.
  replace (t + a_of S + - Rmax 0 (t + a_of S))%R with (Rmin (t + a_of S) 0).
  2:{ unfold Rmin, Rmax. destruct (Rle_dec (t + a_of S) 0), (Rle_dec 0 (t + a_of S)); lra. }
  rewrite Rmin_scale_r, exp_Rmin, exp_a_of by assumption.
  replace (0 / eps)%R with 0%R by (field; lra). rewrite exp_0.
  pose proof (exp_pos (t / eps)) as He.
  set (E := exp (t / eps)) in *.
  assert (Hiff : (E / S <= 1)%R <-> (E <= S)%R).
  { split; intros Hle.
    - apply (Rmult_le_reg_r (/ S)); [now apply Rinv_0_lt_compat|].
      rewrite Rinv_r by lra. exact Hle.
    - apply (Rmult_le_reg_r S); [assumption|].
      unfold Rdiv. rewrite Rmult_assoc, Rinv_l by lra. lra. }
  unfold Rmin. destruct (Rle_dec (E / S) 1) as [H1|H1],
    (Rle_dec E S) as [H2|H2]; try reflexivity; try tauto.
  field. lra.
Qed.

End RowLevels.

(** ** Levels: monotone, bounded, with ratios that tend to 1 *)

Lemma Rsum_map_le (A : Type) (f g : A -> R) (l : list A) :
  (forall x, In x l -> (f x <= g x)%R) ->
  (Rsum (map f l) <= Rsum (map g l))%R.
Proof.
  unfold Rsum. induction l as [|x l IH]; intros Hfg; simpl; [lra|].
  pose proof (Hfg x (or_introl eq_refl)).
  assert (fold_right Rplus 0 (map f l) <= fold_right Rplus 0 (map g l))%R
    by (apply IH; intros; apply Hfg; now right).
  lra.
Qed.

Lemma Rsum_map_div (A : Type) (f : A -> R) (c : R) (l : list A) :
  Rsum (map (fun x => (f x / c)%R) l) = (Rsum (map f l) / c)%R.
Proof.
  unfold Rsum, Rdiv. induction l as [|x l IH]; simpl; [lra | rewrite IH; lra].
Qed.

Lemma Rsum_map_const (A : Type) (c : R) (l : list A) :
  Rsum (map (fun _ => c) l) = (INR (length l) * c)%R.
Proof.
  unfold Rsum. induction l as [|x l IH].
  - simpl. lra.
  - change (length (x :: l)) with (S (length l)). rewrite S_INR.
    simpl. rewrite IH. lra.
Qed.

(** For every real there is a larger natural number. *)
Lemma nat_above (r : R) : exists N : nat, (r < INR N)%R.
Proof.
  destruct (archimed r) as [Hup _].
  exists (Z.to_nat (up r)). rewrite INR_IZR_INZ.
  destruct (Z_le_gt_dec 0 (up r)) as [Hz|Hz].
  - rewrite Z2Nat.id by assumption. lra.
  - replace (Z.to_nat (up r)) with 0%nat by lia. simpl.
    assert (IZR (up r) <= 0)%R by (apply IZR_le; lia). lra.
Qed.

Section LevelAnalysis.

Variable kp : R.
Variable Es : list R.
Variable S1 : R.

Hypothesis kp_pos : (0 < kp)%R.
Hypothesis Es_pos : Forall (fun E => (0 < E)%R) Es.
Hypothesis Es_nonempty : Es <> [].
Hypothesis S1_pos : (0 < S1)%R.

Let step := level_step kp Es.
Let lv := level kp Es S1.
Let ratio := level_ratio kp Es.

Lemma lv_succ (m : nat) : lv (S m) = step (lv m).
Proof. reflexivity. Qed.

Lemma Rmin_sum_pos (S : R) :
  (0 < S)%R -> (0 < Rsum (map (fun E => Rmin E S) Es))%R.
Proof.
  intros HS. destruct Es as [|E l]; [congruence|].
  inversion Es_pos as [|? ? HE Hl]; subst.
  assert (0 <= Rsum (map (fun E0 => Rmin E0 S) l))%R.
  { apply Rsum_nonneg, Forall_forall. intros y Hy.
    apply in_map_iff in Hy as [E0 [<- HE0]].
    pose proof (proj1 (Forall_forall _ _) Hl _ HE0).
    apply Rmin_glb; lra. }
  assert (0 < Rmin E S)%R by (apply Rmin_glb_lt; lra).
  change (0 < Rmin E S + Rsum (map (fun E0 => Rmin E0 S) l))%R. lra.
Qed.

Lemma step_pos (S : R) : (0 < S)%R -> (0 < step S)%R.
Proof.
  intros HS. unfold step, level_step.
  apply Rdiv_lt_0_compat; [now apply Rmin_sum_pos | assumption].
Qed.

Lemma lv_pos (m : nat) : (0 < lv m)%R.
Proof.
  induction m as [|m IH]; [exact S1_pos|].
  rewrite lv_succ. now apply step_pos.
Qed.

Lemma step_mono (S S' : R) : (S <= S')%R -> (step S <= step S')%R.
Proof.
  intros HS. unfold step, level_step.
  apply Rmult_le_compat_r; [left; now apply Rinv_0_lt_compat|].
  apply Rsum_map_le. intros E _. apply Rle_min_compat_l. exact HS.
Qed.

Lemma step_le_total (S : R) : (step S <= Rsum Es / kp)%R.
Proof.
  unfold step, level_step.
  apply Rmult_le_compat_r; [left; now apply Rinv_0_lt_compat|].
  rewrite <- (map_id Es) at 2.
  apply Rsum_map_le. intros E _. apply Rmin_l.
Qed.

Lemma ratio_eq (S : R) :
  (0 < S)%R -> ratio S = (Rsum (map (fun E => Rmin E S / S) Es) / kp)%R.
Proof.
  intros HS. unfold ratio, level_ratio, level_step.
  rewrite Rsum_map_div. field. lra.
Qed.

Lemma ratio_anti (S S' : R) :
  (0 < S)%R -> (S <= S')%R -> (ratio S' <= ratio S)%R.
Proof.
  intros HS HSS. rewrite !ratio_eq by lra.
  apply Rmult_le_compat_r; [left; now apply Rinv_0_lt_compat|].
  apply Rsum_map_le. intros E HE.
  pose proof (proj1 (Forall_forall _ _) Es_pos _ HE) as HE0.
  assert (HS' : (0 < S')%R) by lra.
  apply (Rmult_le_reg_r (S * S')); [nra|].
  replace (Rmin E S' / S' * (S * S'))%R with (Rmin E S' * S)%R by (field; lra).
  replace (Rmin E S / S * (S * S'))%R with (Rmin E S * S')%R by (field; lra).
  unfold Rmin. destruct (Rle_dec E S'), (Rle_dec E S); nra.
Qed.

Lemma lv_ratio (m : nat) : lv (S m) = (lv m * ratio (lv m))%R.
Proof.
  rewrite lv_succ. unfold ratio, level_ratio. fold step.
  pose proof (lv_pos m). field. lra.
Qed.

(** *** A sequence that starts upwards *)

Section Up.

Hypothesis up : (S1 <= step S1)%R.

Lemma lv_up (m : nat) : (lv m <= lv (S m))%R.
Proof.
  induction m as [|m IH]; [exact up|].
  rewrite !lv_succ. apply step_mono. rewrite <- lv_succ. exact IH.
Qed.

Lemma lv_up_le (j m : nat) : j <= m -> (lv j <= lv m)%R.
Proof.
  induction 1 as [|m Hjm IH]; [lra|].
  pose proof (lv_up m). lra.
Qed.

Lemma ratio_up_ge_1 (m : nat) : (1 <= ratio (lv m))%R.
Proof.
  pose proof (lv_up m) as Hu. rewrite lv_ratio in Hu.
  pose proof (lv_pos m). nra.
Qed.

Lemma ratio_up_anti (j m : nat) : j <= m -> (ratio (lv m) <= ratio (lv j))%R.
Proof.
  intros Hjm. apply ratio_anti; [apply lv_pos | now apply lv_up_le].
Qed.

Lemma lv_up_power (m j : nat) :
  j <= S m -> (S1 * ratio (lv m) ^ j <= lv j)%R.
Proof.
  induction j as [|j IH]; intros Hj.
  - simpl. change (lv 0) with S1. lra.
  - rewrite lv_ratio. simpl pow.
    pose proof (IH ltac:(lia)) as IHj.
    pose proof (ratio_up_anti (j := j) (m := m) ltac:(lia)) as Hr.
    pose proof (ratio_up_ge_1 m) as H1.
    pose proof (lv_pos j) as Hp.
    assert (0 <= S1 * ratio (lv m) ^ j)%R.
    { apply Rmult_le_pos; [lra|]. apply pow_le. lra. }
    replace (S1 * (ratio (lv m) * ratio (lv m) ^ j))%R
      with ((S1 * ratio (lv m) ^ j) * ratio (lv m))%R by ring.
    apply Rmult_le_compat; lra.
Qed.

Lemma ratio_up_bound (m : nat) :
  (INR (S m) * (ratio (lv m) - 1) <= Rsum Es / kp / S1 - 1)%R.
Proof.
  pose proof (lv_up_power (m := m) (j := S m) (le_n _)) as Hp.
  pose proof (step_le_total (lv m)) as Hb. rewrite <- lv_succ in Hb.
  pose proof (ratio_up_ge_1 m) as H1.
  assert (Hpow : (ratio (lv m) ^ S m <= Rsum Es / kp / S1)%R).
  { apply (Rmult_le_reg_l S1); [assumption|].
    replace (S1 * (Rsum Es / kp / S1))%R with (Rsum Es / kp)%R by (field; lra).
    lra. }
  destruct (Req_dec (ratio (lv m)) 1) as [E|NE].
  - rewrite E in *. rewrite pow1 in Hpow. lra.
  - pose proof (poly (S m) (ratio (lv m) - 1) ltac:(lra)) as Hpoly.
    replace (1 + (ratio (lv m) - 1))%R with (ratio (lv m)) in Hpoly by ring.
    lra.
Qed.

End Up.

(** *** A sequence that starts downwards *)

Section Down.

Hypothesis down : (step S1 <= S1)%R.
Hypothesis kp_le_keys : (kp <= INR (length Es))%R.

Lemma lv_down (m : nat) : (lv (S m) <= lv m)%R.
Proof.
  induction m as [|m IH]; [exact down|].
  rewrite !lv_succ. apply step_mono. rewrite <- lv_succ. exact IH.
Qed.

Lemma lv_down_le (j m : nat) : j <= m -> (lv m <= lv j)%R.
Proof.
  induction 1 as [|m Hjm IH]; [lra|].
  pose proof (lv_down m). lra.
Qed.

Lemma ratio_down_le_1 (m : nat) : (ratio (lv m) <= 1)%R.
Proof.
  pose proof (lv_down m) as Hu. rewrite lv_ratio in Hu.
  pose proof (lv_pos m). nra.
Qed.

Lemma ratio_pos (S : R) : (0 < S)%R -> (0 < ratio S)%R.
Proof.
  intros HS. unfold ratio, level_ratio. fold step.
  apply Rdiv_lt_0_compat; [now apply step_pos | assumption].
Qed.

Lemma ratio_down_mono (j m : nat) : j <= m -> (ratio (lv j) <= ratio (lv m))%R.
Proof.
  intros Hjm. apply ratio_anti; [apply lv_pos | now apply lv_down_le].
Qed.

Lemma lv_down_power (m j : nat) :
  j <= S m -> (lv j <= S1 * ratio (lv m) ^ j)%R.
Proof.
  induction j as [|j IH]; intros Hj.
  - simpl. change (lv 0) with S1. lra.
  - rewrite lv_ratio. simpl pow.
    pose proof (IH ltac:(lia)) as IHj.
    pose proof (ratio_down_mono (j := j) (m := m) ltac:(lia)) as Hr.
    pose proof (ratio_pos (lv_pos j)) as H0.
    pose proof (lv_pos j) as Hp.
    replace (S1 * (ratio (lv m) * ratio (lv m) ^ j))%R
      with ((S1 * ratio (lv m) ^ j) * ratio (lv m))%R by ring.
    apply Rmult_le_compat; lra.
Qed.

(** Below every [E] the step multiplies by [keys / kp >= 1]. *)
Lemma step_below (L : R) :
  (0 < L)%R -> Forall (fun E => (L <= E)%R) Es -> (L <= step L)%R.
Proof.
  intros HL Hle. unfold step, level_step.
  replace (map (fun E => Rmin E L) Es) with (map (fun _ : R => L) Es).
  2:{ apply map_ext_in. intros E HE.
      pose proof (proj1 (Forall_forall _ _) Hle _ HE).
      now rewrite Rmin_right. }
  rewrite Rsum_map_const.
  apply (Rmult_le_reg_r kp); [assumption|].
  replace (INR (length Es) * L / kp * kp)%R with (INR (length Es) * L)%R
    by (field; lra).
  nra.
Qed.

Lemma lv_floor (L : R) (m : nat) :
  (0 < L)%R -> (L <= S1)%R -> Forall (fun E => (L <= E)%R) Es -> (L <= lv m)%R.
Proof.
  intros HL HS HE. induction m as [|m IH]; [exact HS|].
  rewrite lv_succ. pose proof (step_below HL HE).
  pose proof (step_mono IH). lra.
Qed.

Lemma ratio_down_bound (L : R) (m : nat) :
  (0 < L)%R -> (L <= S1)%R -> Forall (fun E => (L <= E)%R) Es ->
  (INR (S m) * (1 - ratio (lv m)) <= S1 / L - 1)%R.
Proof.
  intros HL HS HE.
  pose proof (lv_down_power (m := m) (j := S m) (le_n _)) as Hp.
  pose proof (lv_floor (S m) HL HS HE) as Hf.
  pose proof (ratio_down_le_1 m) as H1.
  pose proof (ratio_pos (lv_pos m)) as H0.
  set (rho := ratio (lv m)) in *.
  destruct (Req_dec rho 1) as [E|NE].
  - rewrite E. assert (1 <= S1 / L)%R.
    { apply (Rmult_le_reg_r L); [assumption|].
      replace (S1 / L * L)%R with S1 by (field; lra). lra. }
    nra.
  - pose proof (poly (S m) (1 - rho) ltac:(lra)) as Hpoly.
    assert (Hprod : ((1 + (1 - rho)) ^ S m * rho ^ S m <= 1)%R).
    { rewrite <- Rpow_mult_distr.
      pose proof (pow2_ge_0 (rho - 1)) as Hsq.
      assert (Hinc : (((1 + (1 - rho)) * rho) ^ S m <= 1 ^ S m)%R)
        by (apply pow_incr; split; nra).
      now rewrite pow1 in Hinc. }
    assert (Hrp : (0 < rho ^ S m)%R) by (now apply pow_lt).
    assert (Hlow : (L / S1 <= rho ^ S m)%R).
    { apply (Rmult_le_reg_l S1); [assumption|].
      replace (S1 * (L / S1))%R with L by (field; lra). lra. }
    assert (HLS : (0 < L / S1)%R) by (now apply Rdiv_lt_0_compat).
    assert (Hup : ((1 + (1 - rho)) ^ S m <= S1 / L)%R).
    { apply (Rmult_le_reg_r (L / S1)); [assumption|].
      replace (S1 / L * (L / S1))%R with 1%R by (field; lra).
      assert (0 <= (1 + (1 - rho)) ^ S m)%R by (apply pow_le; lra).
      nra. }
    lra.
Qed.

End Down.

End LevelAnalysis.

(** ** The total weight of a row tends to its target *)

Lemma floor_exists (Es : list R) (S1 : R) :
  (0 < S1)%R -> Forall (fun E => (0 < E)%R) Es ->
  exists L, (0 < L)%R /\ (L <= S1)%R /\ Forall (fun E => (L <= E)%R) Es.
Proof.
  intros HS. induction 1 as [|E l HE Hl IH].
  - exists S1. repeat split; [assumption | lra | constructor].
  - destruct IH as (L & HL & HLS & HLE).
    exists (Rmin E L). split; [apply Rmin_glb_lt; assumption|].
    split; [pose proof (Rmin_r E L); lra|].
    constructor; [apply Rmin_l|].
    apply Forall_forall. intros E' HE'.
    pose proof (proj1 (Forall_forall _ _) HLE _ HE').
    pose proof (Rmin_r E L). lra.
Qed.

Section LevelLimit.

Variable kp : R.
Variable Es : list R.
Variable S1 : R.

Hypothesis kp_pos : (0 < kp)%R.
Hypothesis Es_pos : Forall (fun E => (0 < E)%R) Es.
Hypothesis Es_nonempty : Es <> [].
Hypothesis S1_pos : (0 < S1)%R.
Hypothesis kp_le_keys : (kp <= INR (length Es))%R.

Let lv := level kp Es S1.
Let ratio := level_ratio kp Es.

Lemma mass_at_level (S : R) :
  (0 < S)%R -> Rsum (weights_at Es S) = (kp * ratio S)%R.
Proof.
  intros HS. unfold weights_at, ratio, level_ratio, level_step.
  rewrite Rsum_map_div. field. lra.
Qed.

(** The distance of the ratio from 1 after [m] steps is at most [C / (m + 1)]. *)
Lemma ratio_rate :
  exists C, (0 <= C)%R /\
    forall m, (INR (S m) * Rabs (ratio (lv m) - 1) <= C)%R.
Proof.
  destruct (Rle_dec S1 (level_step kp Es S1)) as [Hup|Hdown].
  - exists (Rsum Es / kp / S1 - 1)%R.
    assert (Hb : forall m,
               (INR (S m) * Rabs (ratio (lv m) - 1) <= Rsum Es / kp / S1 - 1)%R).
    { intros m.
      pose proof (ratio_up_ge_1 kp_pos Es_pos Es_nonempty S1_pos Hup m).
      rewrite Rabs_right by (unfold ratio, lv; lra).
      apply (ratio_up_bound kp_pos Es_pos Es_nonempty S1_pos Hup). }
    split; [|exact Hb].
    specialize (Hb 0). pose proof (Rabs_pos (ratio (lv 0) - 1)).
    pose proof (pos_INR 1). nra.
  - assert (Hd : (level_step kp Es S1 <= S1)%R) by lra.
    destruct (floor_exists S1_pos Es_pos) as (L & HL & HLS & HLE).
    exists (S1 / L - 1)%R.
    assert (Hb : forall m,
               (INR (S m) * Rabs (ratio (lv m) - 1) <= S1 / L - 1)%R).
    { intros m.
      pose proof (ratio_down_le_1 kp_pos Es_pos Es_nonempty S1_pos Hd m).
      rewrite Rabs_left1 by (unfold ratio, lv; lra).
      replace (- (ratio (lv m) - 1))%R with (1 - ratio (lv m))%R by ring.
      apply (ratio_down_bound kp_pos Es_pos Es_nonempty S1_pos Hd kp_le_keys
               m HL HLS HLE). }
    split; [|exact Hb].
    specialize (Hb 0). pose proof (Rabs_pos (ratio (lv 0) - 1)).
    pose proof (pos_INR 1). nra.
Qed.

Lemma ratio_converges (tol : R) :
  (0 < tol)%R ->
  exists N, forall m, N <= m -> (Rabs (kp * ratio (lv m) - kp) < tol)%R.
Proof.
  intros Htol. destruct ratio_rate as (C & HC & Hrate).
  destruct (nat_above (kp * C / tol)) as [N HN].
  exists N. intros m Hm.
  replace (kp * ratio (lv m) - kp)%R with (kp * (ratio (lv m) - 1))%R by ring.
  rewrite Rabs_mult, (Rabs_right kp) by lra.
  specialize (Hrate m). pose proof (Rabs_pos (ratio (lv m) - 1)) as Ha.
  set (d := Rabs (ratio (lv m) - 1)) in *.
  assert (HSm : (INR N < INR (S m))%R) by (apply lt_INR; lia).
  assert (Hlt : (kp * C < tol * INR (S m))%R).
  { apply (Rmult_lt_compat_r tol) in HN; [|assumption].
    replace (kp * C / tol * tol)%R with (kp * C)%R in HN by (field; lra).
    nra. }
  assert (Hpos : (0 < INR (S m))%R) by (apply lt_0_INR; lia).
  apply (Rmult_lt_reg_r (INR (S m))); [assumption|]. nra.
Qed.

Lemma ratio_monotone :
  (forall m, (ratio (lv (S m)) <= ratio (lv m))%R) \/
  (forall m, (ratio (lv m) <= ratio (lv (S m)))%R).
Proof.
  destruct (Rle_dec S1 (level_step kp Es S1)) as [Hup|Hdown].
  - left. intros m.
    apply (ratio_up_anti kp_pos Es_pos Es_nonempty S1_pos Hup). lia.
  - right. intros m.
    assert (Hd : (level_step kp Es S1 <= S1)%R) by lra.
    apply (ratio_down_mono kp_pos Es_pos Es_nonempty S1_pos Hd). lia.
Qed.

End LevelLimit.

(** ** Rows of the solver's result, over the reals *)

Section SolverRows.

Variable fmax : R.
Variable eps : R.
Variable s : list (list R).
Variable k : list R.
Variable mask : option (list (list bool)).
Variable r : nat.
Variable x : list R.
Variable kr : R.
Variable mr : option (list bool).

Hypothesis eps_pos : (0 < eps)%R.
Hypothesis row_x : nth_error s r = Some x.
Hypothesis row_k : nth_error k r = Some kr.
Hypothesis row_m : mask_row mask r = Some mr.
Hypothesis x_nonempty : x <> [].
Hypothesis mask_shape :
  match mr with Some m => length m = length x | None => True end.

Let RS : Scalar R := Rscalar fmax.
#[local] Existing Instance RS.

Let sm : list R := row_mask mr (- fmax)%R x.
Let kp : R := Rmax kr (/ 10 ^ 20).
Let Es : list R := map (fun t => exp (t / eps)) sm.
Let S1 : R :=
  (Rsum (map (fun y => exp (y / eps)) (zip_with Rplus sm (row_neg_relu x))) / kp)%R.

Lemma solver_row (m : nat) :
  exists out,
    coor_descent s (Z.of_nat (S m)) k eps relu mask = Ok out /\
    nth_error out r = Some (weights_at Es (level kp Es S1 m)).
Proof.
  pose proof (coor_descent_row s (Z.of_nat (S m)) k eps mask r row_x row_k row_m)
    as Hrow.
  pose proof (row_solver_levels fmax kr mr eps_pos x_nonempty mask_shape m)
    as Hlev.
  fold sm in Hlev. fold kp in Hlev. fold Es in Hlev. fold S1 in Hlev.
  fold RS in Hlev.
  destruct (coor_descent s (Z.of_nat (S m)) k eps relu mask) as [out|e].
  - destruct Hrow as (w & Hw & Hout). exists out. split; [reflexivity|].
    rewrite Hout. f_equal. rewrite Hlev in Hw. now injection Hw.
  - rewrite Hlev in Hrow. discriminate.
Qed.

Lemma solver_row_mass (m : nat) :
  row_mass (coor_descent s (Z.of_nat (S m)) k eps relu mask) r
  = (kp * level_ratio kp Es (level kp Es S1 m))%R.
Proof.
  destruct (solver_row m) as (out & -> & Hr). unfold row_mass.
  rewrite (nth_error_nth _ _ _ Hr).
  apply mass_at_level; [apply kp_pos|].
  apply level_pos; assumption.
Qed.

Lemma solver_row_weight (m c : nat) :
  weight_at (coor_descent s (Z.of_nat (S m)) k eps relu mask) r c
  = nth c (weights_at Es (level kp Es S1 m)) 0%R.
Proof.
  destruct (solver_row m) as (out & -> & Hr). unfold weight_at.
  now rewrite (nth_error_nth _ _ _ Hr).
Qed.

Lemma Es_length : length Es = length x.
Proof.
  unfold Es. rewrite length_map. apply sm_length; assumption.
Qed.

Lemma solver_mass_converges (tol : R) :
  (1 <= kr <= INR (length x))%R -> (0 < tol)%R ->
  exists N : Z, forall n, (N <= n)%Z ->
    (Rabs (row_mass (coor_descent s n k eps relu mask) r - kr) < tol)%R.
Proof.
  intros [Hk1 Hk2] Htol.
  assert (Hkp : kp = kr).
  { unfold kp. apply Rmax_left.
    assert (Hp : (1 <= 10 ^ 20)%R) by (apply pow_R1_Rle; lra).
    pose proof (Rinv_le_contravar 1 (10 ^ 20) Rlt_0_1 Hp) as Hi.
    rewrite Rinv_1 in Hi. lra. }
  assert (H1 : (0 < kp)%R) by apply kp_pos.
  assert (H2 : Forall (fun E => (0 < E)%R) Es) by apply Es_pos.
  assert (H3 : Es <> []) by (apply Es_nonempty; assumption).
  assert (H4 : (0 < S1)%R) by (apply S1_pos; assumption).
  assert (H5 : (kp <= INR (length Es))%R) by (rewrite Es_length, Hkp; exact Hk2).
  destruct (@ratio_converges kp Es S1 H1 H2 H3 H4 H5 tol Htol) as [N HN].
  exists (Z.of_nat (S N)). intros n Hn.
  replace n with (Z.of_nat (S (Z.to_nat n - 1))) by lia.
  rewrite solver_row_mass.
  replace (kp * level_ratio kp Es (level kp Es S1 (Z.to_nat n - 1)) - kr)%R
    with (kp * level_ratio kp Es (level kp Es S1 (Z.to_nat n - 1)) - kp)%R
    by (rewrite Hkp; reflexivity).
  apply HN. lia.
Qed.

Lemma solver_mass_monotone :
  (forall n, (1 <= n)%Z ->
     (row_mass (coor_descent s (n + 1) k eps relu mask) r
      <= row_mass (coor_descent s n k eps relu mask) r)%R) \/
  (forall n, (1 <= n)%Z ->
     (row_mass (coor_descent s n k eps relu mask) r
      <= row_mass (coor_descent s (n + 1) k eps relu mask) r)%R).
Proof.
  assert (Hkp : (0 < kp)%R) by apply kp_pos.
  assert (H2 : Forall (fun E => (0 < E)%R) Es) by apply Es_pos.
  assert (H3 : Es <> []) by (apply Es_nonempty; assumption).
  assert (H4 : (0 < S1)%R) by (apply S1_pos; assumption).
  destruct (@ratio_monotone kp Es S1 Hkp H2 H3 H4) as [Hm|Hm];
    [left | right]; intros n Hn;
    specialize (Hm (Z.to_nat n - 1)%nat);
    set (m := (Z.to_nat n - 1)%nat) in *;
    assert (En1 : (n + 1)%Z = Z.of_nat (S (S m))) by lia;
    assert (En : n = Z.of_nat (S m)) by lia;
    clearbody m; rewrite En1; rewrite En;
    rewrite !solver_row_mass;
    apply Rmult_le_compat_l; try lra; exact Hm.
Qed.

End SolverRows.

(** ** A row whose mass stays at 2 *)

Lemma level_fixed (kp : R) (Es : list R) (S : R) (m : nat) :
  level_step kp Es S = S -> level kp Es S m = S.
Proof.
  intros Hfix. unfold level. induction m as [|m IH]; simpl; [reflexivity|].
  now rewrite IH.
Qed.

Lemma Rmax_tiny (kr : R) : (1 <= kr)%R -> Rmax kr (/ 10 ^ 20) = kr.
Proof.
  intros Hk. apply Rmax_left.
  assert (Hp : (1 <= 10 ^ 20)%R) by (apply pow_R1_Rle; lra).
  pose proof (Rinv_le_contravar 1 (10 ^ 20) Rlt_0_1 Hp) as Hi.
  rewrite Rinv_1 in Hi. lra.
Qed.

Lemma mass_two_example (n : Z) :
  (1 <= n)%Z ->
  row_mass
    (@coor_descent R (Rscalar float32_max) [[0; 0]%R] n [2%R] (1 / 10)%R
       (@relu R (Rscalar float32_max)) None) 0
  = 2%R.
Proof.
  intros Hn. replace n with (Z.of_nat (S (Z.to_nat n - 1))) by lia.
  rewrite (@solver_row_mass float32_max (1 / 10)%R [[0; 0]%R] [2%R] None 0
             [0; 0]%R 2%R None);
    try reflexivity; try lra; try discriminate; try exact I.
  rewrite Rmax_tiny by lra.
  simpl row_mask. unfold row_neg_relu. simpl map. simpl zip_with.
  rewrite Rmax_left by lra.
  replace ((0 + - 0) / (1 / 10))%R with 0%R by (field; lra).
  replace (0 / (1 / 10))%R with 0%R by (field; lra).
  rewrite exp_0. unfold Rsum; simpl fold_right.
  replace ((1 + (1 + 0)) / 2)%R with 1%R by lra.
  assert (Hfix : level_step 2 [1; 1]%R 1 = 1%R).
  { unfold level_step, Rsum; simpl. rewrite Rmin_left by lra. lra. }
  rewrite (level_fixed _ Hfix). unfold level_ratio. rewrite Hfix. lra.
Qed.

(** ** The row [1, 2, 0] with eps = 0.1 and k = 1 *)

Lemma exp_INR (n : nat) : exp (INR n) = (exp 1 ^ n)%R.
Proof.
  induction n as [|n IH].
  - simpl. apply exp_0.
  - rewrite S_INR, exp_plus, IH. simpl. ring.
Qed.

Lemma exp_1_ge_2 : (2 <= exp 1)%R.
Proof. pose proof (exp_ineq1 1 R1_neq_R0). lra. Qed.

Lemma exp_10_bounds : (1024 <= exp 10 <= 59049)%R.
Proof.
  replace 10%R with (INR 10) by (simpl; lra). rewrite exp_INR.
  pose proof exp_1_ge_2 as H2. pose proof exp_le_3 as H3.
  split.
  - replace 1024%R with (2 ^ 10)%R by (simpl; lra).
    apply pow_incr. lra.
  - replace 59049%R with (3 ^ 10)%R by (simpl; lra).
    apply pow_incr. lra.
Qed.

Section TopOne.

(** [e] stands for [exp 10]. *)
Variable e : R.
Hypothesis e_bounds : (1024 <= e <= 59049)%R.

Let Es : list R := [e; (e * e)%R; 1%R].
Let lv := level 1 Es 3.

Lemma top_step (S : R) :
  level_step 1 Es S = (Rmin e S + Rmin (e * e) S + Rmin 1 S)%R.
Proof. unfold level_step, Es, Rsum. simpl. lra. Qed.

Lemma top_lv_succ (m : nat) : lv (S m) = level_step 1 Es (lv m).
Proof. reflexivity. Qed.

(** The level doubles until it passes [e]. *)
Lemma top_doubling (m : nat) : (Rmin (2 ^ S m) e <= lv m)%R.
Proof.
  induction m as [|m IH].
  - change (lv 0) with 3%R. pose proof (Rmin_l (2 ^ 1) e). simpl in *. lra.
  - rewrite top_lv_succ, top_step.
    assert (H2 : (0 < 2 ^ S m)%R) by (apply pow_lt; lra).
    assert (Hm : (2 ^ S (S m) = 2 * 2 ^ S m)%R) by (simpl; lra).
    rewrite Hm. revert IH. unfold Rmin.
    repeat match goal with
    | |- context [Rle_dec ?a ?b] => destruct (Rle_dec a b)
    end; intros; nra.
Qed.

Lemma top_reaches_e : (e <= lv 15)%R.
Proof.
  pose proof (top_doubling 15) as H.
  rewrite Rmin_right in H; [assumption|].
  replace (2 ^ 16)%R with 65536%R by (simpl; lra). lra.
Qed.

(** Past [e] every pass adds at least [e]. *)
Lemma top_linear (j : nat) : (Rmin (INR (S j) * e) (e * e) <= lv (15 + j))%R.
Proof.
  induction j as [|j IH].
  - rewrite Nat.add_0_r. pose proof top_reaches_e.
    pose proof (Rmin_l (INR 1 * e) (e * e)). simpl in *. lra.
  - replace (15 + S j) with (S (15 + j)) by lia.
    rewrite top_lv_succ, top_step.
    rewrite (S_INR (S j)).
    assert (Hj : (1 <= INR (S j))%R).
    { rewrite S_INR. pose proof (pos_INR j). lra. }
    revert IH. set (c := INR (S j)) in *. unfold Rmin.
    repeat match goal with
    | |- context [Rle_dec ?a ?b] => destruct (Rle_dec a b)
    end; intros; nra.
Qed.

Lemma top_upper (m : nat) : (lv m <= 3 + INR m * (e + 1))%R.
Proof.
  induction m as [|m IH].
  - change (lv 0) with 3%R. simpl. lra.
  - rewrite top_lv_succ, top_step, S_INR.
    pose proof (Rmin_l e (lv m)). pose proof (Rmin_r (e * e) (lv m)).
    pose proof (Rmin_l 1 (lv m)). lra.
Qed.

Lemma top_level_49 : (35 * e <= lv 49 <= e * e)%R.
Proof.
  split.
  - pose proof (top_linear 34) as H. simpl Nat.add in H.
    rewrite Rmin_left in H.
    + replace (INR 35) with 35%R in H by (simpl; lra). exact H.
    + replace (INR 35) with 35%R by (simpl; lra). nra.
  - pose proof (top_upper 49) as H.
    replace (INR 49) with 49%R in H by (simpl; lra). nra.
Qed.

(** With 50 passes more than 0.9 of the row's mass is on the second key,
    whose weight is 1. *)
Lemma top_weights :
  weights_at Es (lv 49) = [(e / lv 49)%R; 1%R; (1 / lv 49)%R] /\
  (9 / 10 * Rsum (weights_at Es (lv 49)) < 1)%R.
Proof.
  destruct top_level_49 as [Hlo Hhi]. destruct e_bounds as [He1 He2].
  set (S := lv 49) in *. clearbody S.
  assert (HS : (0 < S)%R) by lra.
  assert (Hw : weights_at Es S = [(e / S)%R; 1%R; (1 / S)%R]).
  { unfold weights_at, Es. cbn [map].
    rewrite (Rmin_left e) by lra. rewrite (Rmin_right (e * e)) by lra.
    rewrite (Rmin_left 1) by lra.
    replace (S / S)%R with 1%R by (field; lra). reflexivity. }
  split; [exact Hw|]. rewrite Hw. unfold Rsum. cbn [fold_right].
  assert (H0 : (e / S <= / 35)%R).
  { apply (Rmult_le_reg_r S); [assumption|].
    replace (e / S * S)%R with e by (field; lra). lra. }
  assert (H2 : (1 / S <= / 35)%R).
  { apply (Rmult_le_reg_r S); [assumption|].
    replace (1 / S * S)%R with 1%R by (field; lra). lra. }
  lra.
Qed.

End TopOne.

Lemma top_one_example :
  exists out w0 w2,
    @coor_descent R (Rscalar float32_max) [[1; 2; 0]%R] 50 [1%R] (1 / 10)%R
      (@relu R (Rscalar float32_max)) (Some [[true; true; true]])
    = Ok out /\
    nth_error out 0 = Some [w0; 1%R; w2] /\
    (9 / 10 * (w0 + (1 + (w2 + 0))) < 1)%R.
Proof.
  assert (Heps : (0 < 1 / 10)%R) by lra.
  assert (Hx : [1; 2; 0]%R <> []) by discriminate.
  destruct (@solver_row float32_max (1 / 10)%R [[1; 2; 0]%R] [1%R]
              (Some [[true; true; true]]) 0 [1; 2; 0]%R 1%R
              (Some [true; true; true]) Heps eq_refl eq_refl eq_refl Hx eq_refl
              49) as (out & Hout & Hr).
  change (Z.of_nat 50) with 50%Z in Hout.
  revert Hr. rewrite Rmax_tiny by lra.
  simpl row_mask. unfold row_neg_relu. simpl map. simpl zip_with.
  rewrite (Rmax_right 0 1), (Rmax_right 0 2), (Rmax_left 0 0) by lra.
  replace ((1 + - (1)) / (1 / 10))%R with 0%R by (field; lra).
  replace ((2 + - (2)) / (1 / 10))%R with 0%R by (field; lra).
  replace ((0 + - 0) / (1 / 10))%R with 0%R by (field; lra).
  replace (1 / (1 / 10))%R with 10%R by (field; lra).
  replace (2 / (1 / 10))%R with (10 + 10)%R by (field; lra).
  replace (0 / (1 / 10))%R with 0%R by (field; lra).
  rewrite exp_plus, exp_0. unfold Rsum at 1; simpl fold_right.
  replace ((1 + (1 + (1 + 0))) / 1)%R with 3%R by lra.
  destruct (top_weights exp_10_bounds) as [Hw Hm].
  rewrite Hw. intros Hr.
  rewrite Hw in Hm. unfold Rsum in Hm; simpl in Hm.
  do 3 eexists. split; [exact Hout|]. split; [exact Hr | exact Hm].
Qed.

(** ** Masked entries: a weight of 1 in a fully masked row *)

Lemma fully_masked_example :
  weight_at
    (@coor_descent R (Rscalar float32_max) [[0%R]] 1 [1%R] 1%R
       (@relu R (Rscalar float32_max)) (Some [[false]])) 0 0
  = 1%R.
Proof.
  assert (Heps : (0 < 1)%R) by lra.
  assert (Hx : [0%R] <> []) by discriminate.
  pose proof (@solver_row_weight float32_max 1%R [[0%R]] [1%R]
                (Some [[false]]) 0 [0%R] 1%R (Some [false]) Heps eq_refl
                eq_refl eq_refl Hx eq_refl 0 0) as Hw.
  change (Z.of_nat 1) with 1%Z in Hw. rewrite Hw. clear Hw.
  unfold level, weights_at, row_neg_relu, Rsum.
  rewrite Rmax_tiny by lra.
  cbn [Nat.iter map nth row_mask zip_with negb fold_right tneg trelu Rscalar].
  rewrite Rmax_left by lra.
  replace ((- float32_max + - 0) / 1)%R with (- float32_max / 1)%R
    by (field; lra).
  pose proof (exp_pos (- float32_max / 1)) as HE.
  set (E := exp (- float32_max / 1)) in *.
  change (Nat.iter 0 (level_step 1 [E]) ((E + 0) / 1))%R with ((E + 0) / 1)%R.
  rewrite Rmin_left by lra. field. lra.
Qed.

Lemma Rsum_ge_nth (l : list R) (i : nat) (t : R) :
  Forall (fun y => (0 <= y)%R) l -> nth_error l i = Some t -> (t <= Rsum l)%R.
Proof.
  intros Hl. revert i. induction Hl as [|y l Hy Hl IH]; intros [|i]; simpl;
    try discriminate.
  - intros [= ->]. pose proof (Rsum_nonneg Hl). unfold Rsum in *. simpl. lra.
  - intros Hi. specialize (IH _ Hi). unfold Rsum in *. simpl. lra.
Qed.

Section MaskedRows.

Variable fmax : R.
Variable x : list R.
Variable mrow : list bool.
Variable v j : nat.
Variable xv : R.

Hypothesis mask_shape : length mrow = length x.
Hypothesis valid_v : nth_error mrow v = Some true.
Hypothesis score_v : nth_error x v = Some xv.
Hypothesis masked_j : nth_error mrow j = Some false.

Let sm : list R := row_mask (Some mrow) (- fmax)%R x.

Lemma x_has_j : exists xj, nth_error x j = Some xj.
Proof.
  assert (Hj : j < length x).
  { rewrite <- mask_shape. apply nth_error_Some. congruence. }
  destruct (nth_error x j) as [xj|] eqn:E; [now exists xj|].
  apply nth_error_None in E. lia.
Qed.

Lemma sm_valid : nth_error sm v = Some xv.
Proof.
  unfold sm, row_mask.
  exact (nth_error_zip_with (fun y (c : bool) => if c then (- fmax)%R else y)
           _ _ _ score_v (nth_error_map_some negb _ _ valid_v)).
Qed.

Lemma sm_masked : nth_error sm j = Some (- fmax)%R.
Proof.
  destruct x_has_j as [xj Hxj]. unfold sm, row_mask.
  exact (nth_error_zip_with (fun y (c : bool) => if c then (- fmax)%R else y)
           _ _ _ Hxj (nth_error_map_some negb _ _ masked_j)).
Qed.

End MaskedRows.

(** ** The mass on the valid entries *)

Lemma Rsum_mask_split (w : list R) (m : list bool) :
  length m = length w ->
  Rsum w
  = (Rsum (zip_with (fun y (c : bool) => if c then y else 0%R) w m)
     + Rsum (zip_with (fun y (c : bool) => if c then 0%R else y) w m))%R.
Proof.
  revert m; induction w as [|y w IH]; intros [|c m] Hlen; simpl in *;
    try discriminate.
  - unfold Rsum; simpl. lra.
  - injection Hlen as Hlen. specialize (IH _ Hlen).
    unfold Rsum in *. simpl. destruct c; lra.
Qed.

(** ** Shapes through the solver *)

Section Shapes.

Variables A B C : Type.

Lemma shape_map (f : A -> B) (m : list (list A)) : shape (map (map f) m) = shape m.
Proof.
  unfold shape. rewrite map_map. apply map_ext. intros r. apply length_map.
Qed.

Lemma shape_zip (f : A -> B -> C) (x : list (list A)) (y : list (list B)) :
  shape x = shape y -> shape (zip_with (zip_with f) x y) = shape x.
Proof.
  unfold shape. revert y; induction x as [|r x IH]; intros [|q y] Hs; simpl in *;
    try discriminate; [reflexivity|].
  injection Hs as Hr Hs. rewrite zip_with_length, <- Hr, Nat.min_id.
  f_equal. now apply IH.
Qed.

Lemma shape_zip_col (f : list A -> B -> list C) (x : list (list A)) (c : list B) :
  (forall r b, length (f r b) = length r) -> length c = length x ->
  shape (zip_with f x c) = shape x.
Proof.
  unfold shape. intros Hf. revert c; induction x as [|r x IH]; intros [|b c] Hl;
    simpl in *; try discriminate; [reflexivity|].
  rewrite Hf. f_equal. apply IH. lia.
Qed.

Lemma shape_length (x : list (list A)) : length (shape x) = length x.
Proof. apply length_map. Qed.

End Shapes.

Section SolverShape.

Context {T : Type} `{Scalar T}.

Variable eps : T.
Variable mask : option bmatrix.
Variable mask_value : T.
Variable constant : @column T.
Variable sh : list nat.

Hypothesis mask_shape :
  match mask with Some m => shape m = sh | None => True end.
Hypothesis constant_length : length constant = length sh.

Lemma apply_mask_shape (s : @matrix T) :
  shape s = sh -> shape (apply_mask mask mask_value s) = sh.
Proof.
  intros Hs. unfold apply_mask. destruct mask as [m|]; [|assumption].
  unfold masked_fill, mask_not. rewrite shape_zip; [assumption|].
  now rewrite shape_map, Hs.
Qed.

Lemma relu_shape (m : @matrix T) : shape (relu m) = shape m.
Proof. apply shape_map. Qed.

Lemma loop_body_shaped (st : @locals T) :
  shaped sh st -> shaped sh (loop_body eps relu mask mask_value constant st).
Proof.
  intros (Hs & Hb & _). unfold shaped, loop_body; simpl.
  pose proof (apply_mask_shape _ Hs) as Hm.
  assert (Ha : length
                 (col_sub constant
                    (col_scale eps
                       (logsumexp_rows
                          (mat_div
                             (mat_add (apply_mask mask mask_value (loc_s st))
                                (loc_b st)) eps))))
               = length sh).
  { unfold col_sub, col_scale, logsumexp_rows, mat_div, mat_map, mat_add.
    rewrite zip_with_length, !length_map, zip_with_length.
    rewrite <- (shape_length (apply_mask _ _ _)), <- (shape_length (loc_b st)).
    rewrite Hm, Hb, constant_length. lia. }
  split; [assumption|]. split; [|assumption].
  unfold mat_neg, mat_map. rewrite shape_map, relu_shape.
  unfold mat_add_col. rewrite shape_zip_col.
  - assumption.
  - intros r b. apply length_map.
  - now rewrite Ha, <- Hm, shape_length.
Qed.

Lemma for_range_shaped (n : nat) (st : @locals T) :
  shaped sh st ->
  shaped sh (for_range n (loop_body eps relu mask mask_value constant) st).
Proof.
  revert st; induction n as [|n IH]; intros st Hst; simpl; [assumption|].
  apply IH, loop_body_shaped, Hst.
Qed.

End SolverShape.

Lemma coor_descent_shape {T : Type} `{Scalar T} (s : @matrix T) (n_iters : Z)
    (k : @column T) (eps : T) (mask : option bmatrix) :
  (1 <= n_iters)%Z -> length k = length s ->
  match mask with Some m => shape m = shape s | None => True end ->
  exists out,
    coor_descent s n_iters k eps relu mask = Ok out /\ shape out = shape s.
Proof.
  intros Hn Hk Hm.
  destruct (coor_descent_returns s k eps relu mask Hn) as [out Hout].
  exists out. split; [assumption|].
  unfold coor_descent in Hout.
  assert (Hc : length (col_scale eps (log k)) = length (shape s)).
  { unfold col_scale, log. now rewrite !length_map, shape_length. }
  assert (H0 : shaped (shape s) (Locals s None (mat_neg (relu s)))).
  { unfold shaped; simpl. split; [reflexivity|]. split; [|exact I].
    unfold mat_neg, mat_map. now rewrite shape_map, relu_shape. }
  pose proof (for_range_shaped eps mask (tneg finfo_max) (col_scale eps (log k))
                Hm Hc (Z.to_nat n_iters) H0) as (Hs & Hb & Ha).
  destruct (loc_a (for_range _ _ _)) as [a|]; [|discriminate].
  injection Hout as <-.
  unfold mat_exp, mat_div, mat_map. rewrite !shape_map.
  unfold mat_add.
  assert (Hsa : shape (mat_add_col
                         (apply_mask mask (tneg finfo_max)
                            (loc_s (for_range (Z.to_nat n_iters)
                                      (loop_body eps relu mask (tneg finfo_max)
                                         (col_scale eps (log k)))
                                      (Locals s None (mat_neg (relu s))))))
                         a) = shape s).
  { unfold mat_add_col. rewrite shape_zip_col.
    - now apply apply_mask_shape.
    - intros r b. apply length_map.
    - rewrite Ha. rewrite <- (apply_mask_shape mask (tneg finfo_max) Hm _ Hs)
        at 1. now rewrite shape_length. }
  rewrite shape_zip; [exact Hsa|]. now rewrite Hsa, Hb.
Qed.

(** ** What the result depends on *)

Lemma loop_body_start {T : Type} `{Scalar T} (eps : T)
    (clamp_fn : @matrix T -> @matrix T) (mask : option bmatrix) (mask_value : T)
    (constant : @column T) (s s' b : @matrix T) (a a' : option (@column T)) :
  apply_mask mask mask_value s = apply_mask mask mask_value s' ->
  loop_body eps clamp_fn mask mask_value constant (Locals s a b)
  = loop_body eps clamp_fn mask mask_value constant (Locals s' a' b).
Proof.
  intros Hs. unfold loop_body; simpl. now rewrite Hs.
Qed.

Lemma coor_descent_masked_scores {T : Type} `{Scalar T} (s s' : @matrix T)
    (n_iters : Z) (k : @column T) (eps : T) (clamp_fn : @matrix T -> @matrix T)
    (mask : option bmatrix) :
  apply_mask mask (tneg finfo_max) s = apply_mask mask (tneg finfo_max) s' ->
  clamp_fn s = clamp_fn s' ->
  (1 <= n_iters)%Z ->
  coor_descent s n_iters k eps clamp_fn mask
  = coor_descent s' n_iters k eps clamp_fn mask.
Proof.
  intros Hs Hc Hn. unfold coor_descent.
  destruct (Z.to_nat n_iters) as [|n] eqn:E; [lia|].
  simpl for_range. rewrite Hc.
  now rewrite (loop_body_start eps clamp_fn mask (tneg finfo_max)
                 (col_scale eps (log k)) s s' (mat_neg (clamp_fn s')) None None Hs).
Qed.

(** Filling through an all-false mask of the same shape changes nothing. *)
Lemma masked_fill_none {T : Type} (t : list (list T)) (m : bmatrix) (v : T) :
  shape m = shape t -> Forall (Forall (fun c => c = true)) m ->
  zip_with (zip_with (fun x (c : bool) => if c then v else x)) t
    (map (map negb) m) = t.
Proof.
  unfold shape. revert m; induction t as [|r t IH]; intros [|q m] Hs Hall;
    simpl in *; try discriminate; [reflexivity|].
  injection Hs as Hr Hs. inversion Hall as [|? ? Hq Hm]; subst.
  rewrite (IH _ Hs Hm). f_equal.
  clear - Hr Hq. revert q Hr Hq; induction r as [|x r IH]; intros [|c q] Hr Hq;
    simpl in *; try discriminate; [reflexivity|].
  inversion Hq as [|? ? Hc Hq']; subst. simpl.
  f_equal. apply IH; [lia | assumption].
Qed.

Lemma coor_descent_all_true {T : Type} `{Scalar T} (s : @matrix T)
    (n_iters : Z) (k : @column T) (eps : T) (mask : bmatrix) :
  shape mask = shape s -> Forall (Forall (fun c => c = true)) mask ->
  length k = length s ->
  coor_descent s n_iters k eps relu (Some mask)
  = coor_descent s n_iters k eps relu None.
Proof.
  intros Hs Hall Hk. unfold coor_descent.
  assert (Hc : length (col_scale eps (log k)) = length (shape s)).
  { unfold col_scale, log. now rewrite !length_map, shape_length. }
  assert (Hfill : forall t : @matrix T,
             shape t = shape s ->
             apply_mask (Some mask) (tneg finfo_max) t = t).
  { intros t Ht. unfold apply_mask, masked_fill, mask_not.
    apply masked_fill_none; [congruence | assumption]. }
  assert (Hloop : forall n (st : @locals T),
             shaped (shape s) st ->
             for_range n (loop_body eps relu (Some mask) (tneg finfo_max)
                            (col_scale eps (log k))) st
             = for_range n (loop_body eps relu None (tneg finfo_max)
                              (col_scale eps (log k))) st).
  { induction n as [|n IH]; intros st Hst; [reflexivity|]. simpl.
    assert (Hb : loop_body eps relu (Some mask) (tneg finfo_max)
                   (col_scale eps (log k)) st
                 = loop_body eps relu None (tneg finfo_max)
                     (col_scale eps (log k)) st).
    { unfold loop_body. rewrite (Hfill _ (proj1 Hst)). reflexivity. }
    rewrite Hb. apply IH.
    apply (loop_body_shaped eps None (tneg finfo_max) (col_scale eps (log k))
             (sh := shape s) I Hc Hst). }
  assert (H0 : shaped (shape s) (Locals s None (mat_neg (relu s)))).
  { unfold shaped; simpl. split; [reflexivity|]. split; [|exact I].
    unfold mat_neg, mat_map. now rewrite shape_map, relu_shape. }
  rewrite (Hloop _ _ H0).
  pose proof (for_range_shaped eps None (tneg finfo_max) (col_scale eps (log k))
                (sh := shape s) I Hc (Z.to_nat n_iters) H0) as (Hsh & _).
  rewrite (Hfill _ Hsh). reflexivity.
Qed.

(** Row [r] of the result is the result for row [r] alone. *)
Lemma coor_descent_single_row {T : Type} `{Scalar T} (s : @matrix T)
    (n_iters : Z) (k : @column T) (eps : T) (mask : option bmatrix) (r : nat)
    (x : list T) (kr : T) (mr : option (list bool)) :
  nth_error s r = Some x -> nth_error k r = Some kr ->
  mask_row mask r = Some mr ->
  row_of_result (coor_descent s n_iters k eps relu mask) r
  = row_of_result
      (coor_descent [x] n_iters [kr] eps relu (option_map (fun m => [m]) mr)) 0.
Proof.
  intros Hx Hk Hm.
  pose proof (coor_descent_row s n_iters k eps mask r Hx Hk Hm) as H1.
  assert (Hm0 : mask_row (option_map (fun m => [m]) mr) 0 = Some mr)
    by (destruct mr; reflexivity).
  pose proof (coor_descent_row [x] n_iters [kr] eps
                (option_map (fun m => [m]) mr) 0 eq_refl eq_refl Hm0) as H2.
  destruct (coor_descent s n_iters k eps relu mask) as [out|e],
    (coor_descent [x] n_iters [kr] eps relu (option_map (fun m => [m]) mr))
      as [out'|e']; unfold row_of_result.
  - destruct H1 as (w & Hw & Ho), H2 as (w' & Hw' & Ho').
    rewrite Ho, Ho'. congruence.
  - destruct H1 as (w & Hw & _). congruence.
  - destruct H2 as (w & Hw & _). congruence.
  - congruence.
Qed.

(** ** The weights of a row: order and stationarity *)

Lemma weight_mono (E1 E2 S : R) :
  (0 < S)%R -> (E1 <= E2)%R -> (Rmin E1 S / S <= Rmin E2 S / S)%R.
Proof.
  intros HS HE. apply Rmult_le_compat_r; [left; now apply Rinv_0_lt_compat|].
  now apply Rle_min_compat_r.
Qed.

Lemma level_add (kp : R) (Es : list R) (S1 : R) (m j : nat) :
  level kp Es S1 (j + m) = level kp Es (level kp Es S1 m) j.
Proof.
  unfold level. induction j as [|j IH]; simpl; [reflexivity | now rewrite IH].
Qed.

Section RowWeights.

Variable fmax : R.
Variable eps : R.
Variable s : list (list R).
Variable k : list R.
Variable mask : option (list (list bool)).
Variable r : nat.
Variable x : list R.
Variable kr : R.
Variable mr : option (list bool).

Hypothesis eps_pos : (0 < eps)%R.
Hypothesis row_x : nth_error s r = Some x.
Hypothesis row_k : nth_error k r = Some kr.
Hypothesis row_m : mask_row mask r = Some mr.
Hypothesis x_nonempty : x <> [].
Hypothesis mask_shape :
  match mr with Some m => length m = length x | None => True end.

Let RS : Scalar R := Rscalar fmax.
#[local] Existing Instance RS.

Let sm : list R := row_mask mr (- fmax)%R x.
Let kp : R := Rmax kr (/ 10 ^ 20).
Let Es : list R := map (fun t => exp (t / eps)) sm.
Let S1 : R :=
  (Rsum (map (fun y => exp (y / eps)) (zip_with Rplus sm (row_neg_relu x))) / kp)%R.

Lemma lv_positive (m : nat) : (0 < level kp Es S1 m)%R.
Proof.
  exact (@level_pos fmax eps kr mr x x_nonempty mask_shape m).
Qed.

Lemma masked_row : nth_error (apply_mask mask (- fmax)%R s) r = Some sm.
Proof.
  exact (@apply_mask_row R mask (- fmax)%R r mr row_m s x row_x).
Qed.

Lemma solver_weights_monotone (n : Z) (c1 c2 : nat) (y1 y2 : R) :
  (1 <= n)%Z ->
  nth_error sm c1 = Some y1 -> nth_error sm c2 = Some y2 -> (y1 <= y2)%R ->
  (weight_at (coor_descent s n k eps relu mask) r c1
   <= weight_at (coor_descent s n k eps relu mask) r c2)%R.
Proof.
  intros Hn H1 H2 Hle. replace n with (Z.of_nat (S (Z.to_nat n - 1))) by lia.
  unfold RS.
  rewrite !(@solver_row_weight fmax eps s k mask r x kr mr eps_pos row_x row_k
              row_m x_nonempty mask_shape).
  fold sm. fold kp. fold Es. fold S1.
  set (L := level kp Es S1 (Z.to_nat n - 1)).
  assert (HL : (0 < L)%R) by apply lv_positive.
  unfold weights_at, Es.
  erewrite (nth_error_nth _ c1)
    by (apply nth_error_map_some; apply nth_error_map_some; exact H1).
  erewrite (nth_error_nth _ c2)
    by (apply nth_error_map_some; apply nth_error_map_some; exact H2).
  apply weight_mono; [assumption|].
  assert (y1 / eps <= y2 / eps)%R.
  { apply Rmult_le_compat_r; [left; now apply Rinv_0_lt_compat | assumption]. }
  destruct (Req_dec (y1 / eps) (y2 / eps)) as [-> | Hne]; [lra|].
  left. apply exp_increasing. lra.
Qed.

Lemma solver_stationary (n n' : Z) :
  (1 <= kr)%R -> (1 <= n <= n')%Z ->
  row_mass (coor_descent s n k eps relu mask) r = kr ->
  row_of_result (coor_descent s n' k eps relu mask) r
  = row_of_result (coor_descent s n k eps relu mask) r.
Proof.
  intros Hk [Hn Hn'] Hmass.
  assert (Hkp : kp = kr) by (apply Rmax_tiny; assumption).
  set (m := (Z.to_nat n - 1)%nat).
  set (j := (Z.to_nat n' - Z.to_nat n)%nat).
  assert (En : n = Z.of_nat (S m)) by lia.
  assert (En' : n' = Z.of_nat (S (j + m))) by lia.
  clearbody m j. subst n n'. unfold RS in *.
  rewrite (@solver_row_mass fmax eps s k mask r x kr mr eps_pos row_x row_k
             row_m x_nonempty mask_shape m) in Hmass.
  fold sm in Hmass. fold kp in Hmass. fold Es in Hmass. fold S1 in Hmass.
  pose proof (lv_positive m) as HL.
  assert (Hfix : level_step kp Es (level kp Es S1 m) = level kp Es S1 m).
  { unfold level_ratio in Hmass.
    assert (Hkpos : (0 < kp)%R) by (rewrite Hkp; lra).
    set (L := level kp Es S1 m) in *.
    assert (Hmass' : (kp * (level_step kp Es L / L) = kp)%R)
      by (rewrite Hmass; symmetry; exact Hkp).
    clear Hmass.
    assert (Hr : (level_step kp Es L / L = 1)%R) by nra.
    apply (Rmult_eq_compat_r L) in Hr.
    replace (level_step kp Es L / L * L)%R with (level_step kp Es L) in Hr
      by (field; lra).
    lra. }
  destruct (@solver_row fmax eps s k mask r x kr mr eps_pos row_x row_k row_m
              x_nonempty mask_shape m) as (out & Hout & Hr).
  destruct (@solver_row fmax eps s k mask r x kr mr eps_pos row_x row_k row_m
              x_nonempty mask_shape (j + m)) as (out' & Hout' & Hr').
  rewrite Hout, Hout'. unfold row_of_result. rewrite Hr, Hr'.
  fold sm. fold kp. fold Es. fold S1.
  now rewrite level_add, (level_fixed _ Hfix).
Qed.

End RowWeights.

(** ** The clamped logarithm *)

Lemma tiny_pos : (0 < / 10 ^ 20)%R.
Proof. apply Rinv_0_lt_compat, pow_lt. lra. Qed.

Lemma ln_le_mono (a b : R) : (0 < a)%R -> (a <= b)%R -> (ln a <= ln b)%R.
Proof.
  intros Ha [Hlt | ->]; [|lra]. left. now apply ln_increasing.
Qed.

Lemma log_bounds (fmax : R) (t : list R) :
  Forall (fun y => (ln (/ 10 ^ 20) <= y)%R) (@log R (Rscalar fmax) t) /\
  (forall x, In x t -> (x <= / 10 ^ 20)%R ->
     In (ln (/ 10 ^ 20)) (@log R (Rscalar fmax) t)) /\
  (forall x x', (x <= x')%R ->
     exists y y',
       @log R (Rscalar fmax) [x] = [y] /\ @log R (Rscalar fmax) [x'] = [y'] /\
       (y <= y')%R).
Proof.
  pose proof tiny_pos as Ht. split; [|split].
  - unfold log. apply Forall_forall. intros y Hy.
    apply in_map_iff in Hy as [x [<- _]]. cbn [tlog tclamp_min lit_tiny Rscalar].
    apply ln_le_mono; [assumption | apply Rmax_r].
  - intros x Hx Hle. unfold log. apply in_map_iff. exists x. split; [|assumption].
    cbn [tlog tclamp_min lit_tiny Rscalar]. now rewrite Rmax_right.
  - intros x x' Hle. do 2 eexists. split; [reflexivity|]. split; [reflexivity|].
    cbn [tlog tclamp_min lit_tiny Rscalar]. apply ln_le_mono.
    + pose proof (Rmax_r x (/ 10 ^ 20)). lra.
    + apply Rle_max_compat_r. exact Hle.
Qed.

(** ** The rows of the causal mask *)

Lemma causal_mask_row (i j r : nat) :
  r < i -> i <= j ->
  nth r (causal_mask i j) []
  = repeat false (r + (j - i) + 1) ++ repeat true (i - 1 - r).
Proof.
  intros Hr Hij.
  assert (Hlen : length (nth r (causal_mask i j) []) = j).
  { apply (causal_mask_cols i j). apply nth_In. now rewrite causal_mask_rows. }
  apply nth_ext with (d := false) (d' := false).
  - rewrite Hlen, length_app, !repeat_length. lia.
  - intros c Hc. rewrite Hlen in Hc.
    change (nth c (nth r (causal_mask i j) []) false)
      with (bentry (causal_mask i j) r c).
    rewrite causal_mask_entry by assumption.
    destruct (Nat.lt_ge_cases c (r + (j - i) + 1)) as [Hlt|Hge].
    + rewrite app_nth1 by (rewrite repeat_length; lia).
      rewrite nth_repeat_lt by lia. apply Z.leb_gt. lia.
    + rewrite app_nth2 by (rewrite repeat_length; lia).
      rewrite repeat_length, nth_repeat_lt by lia. apply Z.leb_le. lia.
Qed.

(** ** Splitting into chunks and heads, and merging back *)

Lemma firstn_add_skipn (A : Type) (a b : nat) (l : list A) :
  firstn (a + b) l = firstn a l ++ firstn b (skipn a l).
Proof.
  revert l; induction a as [|a IH]; intros l; simpl; [reflexivity|].
  destruct l as [|x l]; simpl.
  - now rewrite firstn_nil.
  - now rewrite IH.
Qed.

Lemma chunk3_concat {T : Type} (n : nat) (t : list T) :
  let '(q, k, v) := chunk3 n t in q ++ k ++ v = t.
Proof.
  unfold chunk3.
  replace (2 * n) with (n + n) by lia.
  rewrite <- (skipn_skipn n n t).
  rewrite (firstn_skipn n (skipn n t)). apply firstn_skipn.
Qed.

Lemma chunk3_lengths {T : Type} (n : nat) (t : list T) :
  length t = 3 * n ->
  let '(q, k, v) := chunk3 n t in
  length q = n /\ length k = n /\ length v = n.
Proof.
  intros Hl. unfold chunk3.
  rewrite !length_firstn, !length_skipn. lia.
Qed.

Lemma merge_heads_slices {T : Type} (d h start : nat) (xs : list (list T)) :
  merge_heads (length xs)
    (map (fun hd => map (head_slice d hd) xs) (seq start h))
  = map (fun v => firstn (h * d) (skipn (start * d) v)) xs.
Proof.
  revert start; induction h as [|h IH]; intros start.
  - simpl. induction xs as [|x xs IHx]; simpl; [reflexivity | now rewrite IHx].
  - simpl seq. simpl map. simpl merge_heads. rewrite IH.
    rewrite zip_with_same. apply map_ext. intros v.
    unfold head_slice.
    replace (S h * d) with (d + h * d) by lia.
    rewrite firstn_add_skipn, skipn_skipn. reflexivity.
Qed.

Lemma split_merge_heads {T : Type} (d h : nat) (xs : list (list T)) :
  Forall (fun v => length v = h * d) xs ->
  merge_heads (length xs) (map (fun hd => map (head_slice d hd) xs) (seq 0 h))
  = xs.
Proof.
  intros Hl. rewrite merge_heads_slices.
  rewrite <- (map_id xs) at 2. apply map_ext_in. intros v Hv.
  simpl. apply firstn_all2.
  rewrite (proj1 (Forall_forall _ _) Hl _ Hv). lia.
Qed.

(** ** When the attention block returns, and what shape *)

Lemma sequence_map_ok (A B : Type) (f : A -> result B) (l : list A) :
  (forall x, In x l -> exists v, f x = Ok v) ->
  exists vs, sequence (map f l) = Ok vs /\ Forall2 (fun x v => f x = Ok v) l vs.
Proof.
  induction l as [|x l IH]; intros Hf; simpl.
  - exists []. split; [reflexivity | constructor].
  - destruct (Hf x (or_introl eq_refl)) as [v Hv].
    destruct IH as (vs & Hvs & Hall); [intros y Hy; apply Hf; now right|].
    exists (v :: vs). rewrite Hv, Hvs. split; [reflexivity|].
    now constructor.
Qed.

Lemma sequence_map_raise (A B : Type) (f : A -> result B) (l : list A) (e : exn) :
  l <> [] -> (forall x, In x l -> f x = Raise e) ->
  sequence (map f l) = Raise e.
Proof.
  intros Hl Hf. destruct l as [|x l]; [congruence|].
  simpl. now rewrite (Hf x (or_introl eq_refl)).
Qed.

Lemma Forall2_length_eq (A B : Type) (P : A -> B -> Prop) (l : list A) (l' : list B) :
  Forall2 P l l' -> length l = length l'.
Proof. induction 1; simpl; congruence. Qed.

Section AttentionRuns.

Context {T : Type} `{Scalar T}.

Variable A : Attention T.

Lemma head_qkv_lengths (hd : nat) (x : list (@vec T)) :
  length (fst (fst (head_qkv A hd x))) = length x.
Proof.
  unfold head_qkv. destruct (0 <? _); simpl; now rewrite !length_map.
Qed.

Lemma einsum_qk_shape (q k : list (@vec T)) :
  shape (einsum_qk q k) = repeat (length k) (length q).
Proof.
  unfold shape, einsum_qk. rewrite map_map.
  induction q as [|qr q IH]; simpl; [reflexivity|].
  now rewrite length_map, IH.
Qed.

Lemma causal_mask_shape (i j : nat) : shape (causal_mask i j) = repeat j i.
Proof.
  unfold causal_mask, triu, ones_bool, shape.
  generalize (Z.of_nat j - Z.of_nat i + 1)%Z as d. intros d.
  generalize 0 at 1 as start.
  induction i as [|i IH]; intros start; simpl; [reflexivity|].
  now rewrite imap_from_length, repeat_length, IH.
Qed.

Lemma attn_of_sim_runs (i j : nat) (sim : @matrix T) :
  runs A -> shape sim = repeat j i ->
  exists w, attn_of_sim A i j sim = Ok w /\ length w = i.
Proof.
  intros Hrun Hsh. unfold attn_of_sim.
  assert (Hlen : length sim = i).
  { rewrite <- shape_length, Hsh. apply repeat_length. }
  destruct (use_coor_descent A) eqn:Eu.
  - destruct Hrun as [Hu|Hn]; [congruence|].
    destruct (coor_descent_shape sim
                (map (fun o => tmul o (coor_descent_sparsity_k A)) (repeat tone i))
                (coor_descent_eps A) (Some (mask_not (causal_mask i j))) Hn)
      as (out & Hout & Hs).
    + now rewrite length_map, repeat_length.
    + unfold mask_not. now rewrite shape_map, causal_mask_shape.
    + exists out. split; [assumption|].
      now rewrite <- shape_length, Hs, shape_length.
  - eexists. split; [reflexivity|].
    rewrite length_map. unfold masked_fill.
    unfold row in Hlen.
    rewrite zip_with_length, causal_mask_rows, Hlen. apply Nat.min_id.
Qed.

Lemma head_attn_runs (hd : nat) (x : list (@vec T)) :
  runs A -> exists w, head_attn A hd x = Ok w /\ length w = length x.
Proof.
  intros Hrun. unfold head_attn.
  pose proof (head_qkv_lengths hd x) as Hq.
  destruct (head_qkv A hd x) as [[q k] v]. simpl in Hq.
  destruct (attn_of_sim_runs (length q) (length k) (einsum_qk q k) Hrun
              (einsum_qk_shape q k)) as (w & Hw & Hl).
  exists w. split; [assumption | congruence].
Qed.

Lemma head_out_runs (hd : nat) (x : list (@vec T)) :
  runs A -> exists o, head_out A hd x = Ok o /\ length o = length x.
Proof.
  intros Hrun. destruct (head_attn_runs hd x Hrun) as (w & Hw & Hl).
  unfold head_out. destruct (head_qkv A hd x) as [[q k] v].
  rewrite Hw. simpl. eexists. split; [reflexivity|].
  unfold einsum_av. now rewrite length_map.
Qed.

Lemma merge_heads_length (n : nat) (outs : list (list (@vec T))) :
  Forall (fun o => length o = n) outs -> length (merge_heads n outs) = n.
Proof.
  induction 1 as [|o outs Ho Houts IH]; simpl.
  - apply repeat_length.
  - unfold vec in *. rewrite zip_with_length, Ho, IH. apply Nat.min_id.
Qed.

Lemma Attention_forward1_runs (x : list (@vec T)) :
  runs A -> exists y, Attention_forward1 A x = Ok y /\ length y = length x.
Proof.
  intros Hrun. unfold Attention_forward1.
  destruct (sequence_map_ok (fun hd => head_out A hd x) (seq 0 (heads A)))
    as (outs & Houts & Hall).
  { intros hd _. destruct (head_out_runs hd x Hrun) as (o & Ho & _).
    now exists o. }
  rewrite Houts. simpl. eexists. split; [reflexivity|].
  rewrite length_map. apply merge_heads_length.
  clear Houts. induction Hall as [|hd o hds outs Ho Hall IH]; constructor;
    [|assumption].
  destruct (head_out_runs hd x Hrun) as (o' & Ho' & Hl). congruence.
Qed.

Lemma Attention_forward_runs (xs : list (list (@vec T))) :
  runs A ->
  exists ys, Attention_forward A xs = Ok ys /\ shape ys = shape xs.
Proof.
  intros Hrun. unfold Attention_forward.
  destruct (sequence_map_ok (Attention_forward1 A) xs) as (ys & Hys & Hall).
  { intros x _. destruct (Attention_forward1_runs x Hrun) as (y & Hy & _).
    now exists y. }
  exists ys. split; [assumption|].
  clear Hys. unfold shape.
  induction Hall as [|x y xs ys Hy Hall IH]; simpl; [reflexivity|].
  destruct (Attention_forward1_runs x Hrun) as (y' & Hy' & Hl).
  f_equal; [congruence | assumption].
Qed.

(** Without an iteration the solver branch fails in every head. *)
Lemma Attention_forward1_unbound (x : list (@vec T)) :
  use_coor_descent A = true -> (coor_descent_iters A <= 0)%Z ->
  1 <= heads A ->
  Attention_forward1 A x = Raise UnboundLocalError.
Proof.
  intros Hu Hn Hh. unfold Attention_forward1.
  rewrite (@sequence_map_raise _ _ (fun hd => head_out A hd x)
             (seq 0 (heads A)) UnboundLocalError).
  - reflexivity.
  - destruct (heads A); [lia | discriminate].
  - intros hd _. unfold head_out, head_attn.
    destruct (head_qkv A hd x) as [[q k] v].
    unfold attn_of_sim. rewrite Hu.
    now rewrite coor_descent_unbound.
Qed.

Lemma Attention_forward_unbound (xs : list (list (@vec T))) :
  use_coor_descent A = true -> (coor_descent_iters A <= 0)%Z ->
  1 <= heads A -> xs <> [] ->
  Attention_forward A xs = Raise UnboundLocalError.
Proof.
  intros Hu Hn Hh Hx. unfold Attention_forward.
  apply sequence_map_raise; [assumption|].
  intros x _. now apply Attention_forward1_unbound.
Qed.

End AttentionRuns.

(** ** The forward pass of the transformer *)

Lemma only_index_sequence (A : Type) (l : list (result A)) :
  Forall only_index_error l -> only_index_error (sequence l).
Proof.
  induction 1 as [|r l Hr Hl IH]; simpl.
  - intros e He. discriminate.
  - destruct r as [v|e0]; simpl.
    + destruct (sequence l) as [vs|e1]; simpl; intros e He;
        [discriminate | apply IH; congruence].
    + intros e He. apply Hr. congruence.
Qed.

Lemma sequence_raises (A : Type) (l : list (result A)) :
  Exists (fun r => exists e, r = Raise e) l ->
  exists e, sequence l = Raise e.
Proof.
  induction 1 as [r l [e ->] | r l Hex IH]; simpl.
  - now exists e.
  - destruct r as [v|e0]; simpl; [|now exists e0].
    destruct IH as [e ->]. now exists e.
Qed.

Section TransformerRuns.

Context {T : Type} `{Scalar T}.

Lemma embedding_in_table (w : list (list T)) (id : Z) :
  in_table w id -> exists v, embedding w id = Ok v.
Proof.
  intros [H0 H1]. unfold embedding.
  destruct (Z.ltb_spec id 0); [lia|].
  destruct (nth_error w (Z.to_nat id)) as [v|] eqn:E; [now exists v|].
  apply nth_error_None in E. lia.
Qed.

Lemma embedding_out_of_table (w : list (list T)) (id : Z) :
  ~ in_table w id -> embedding w id = Raise IndexError.
Proof.
  intros Hout. unfold embedding, in_table in *.
  destruct (Z.ltb_spec id 0); [reflexivity|].
  destruct (nth_error w (Z.to_nat id)) as [v|] eqn:E; [|reflexivity].
  exfalso. apply Hout. split; [assumption|].
  assert (Z.to_nat id < length w) by (apply nth_error_Some; congruence). lia.
Qed.

Lemma only_index_embedding (w : list (list T)) (id : Z) :
  only_index_error (embedding w id).
Proof.
  unfold embedding. intros e. destruct (id <? 0)%Z; [congruence|].
  destruct (nth_error _ _); congruence.
Qed.

Lemma embed_rows_index_error (w : list (list T)) (rows : list (list Z)) :
  Exists (Exists (fun id => ~ in_table w id)) rows ->
  sequence (map (fun r => sequence (map (embedding w) r)) rows)
  = Raise IndexError.
Proof.
  intros Hex.
  assert (Hrow : forall r, only_index_error (sequence (map (embedding w) r))).
  { intros r. apply only_index_sequence, Forall_forall. intros x Hx.
    apply in_map_iff in Hx as [id [<- _]]. apply only_index_embedding. }
  destruct (@sequence_raises _
              (map (fun r => sequence (map (embedding w) r)) rows)) as [e He].
  { apply Exists_exists in Hex as (r & Hr & Hex).
    apply Exists_exists. exists (sequence (map (embedding w) r)).
    split; [apply in_map_iff; now exists r|].
    apply sequence_raises. apply Exists_exists in Hex as (id & Hid & Hout).
    apply Exists_exists. exists (embedding w id).
    split; [apply in_map_iff; now exists id|].
    exists IndexError. now apply embedding_out_of_table. }
  rewrite He. f_equal.
  assert (Hall : only_index_error
                   (sequence (map (fun r => sequence (map (embedding w) r)) rows))).
  { apply only_index_sequence, Forall_forall. intros x Hx.
    apply in_map_iff in Hx as [r [<- _]]. apply Hrow. }
  exact (Hall e He).
Qed.

Lemma embed_row_ok (w : list (list T)) (r : list Z) :
  Forall (in_table w) r ->
  exists vs, sequence (map (embedding w) r) = Ok vs /\ length vs = length r.
Proof.
  intros Hr.
  destruct (sequence_map_ok (embedding w) r) as (vs & Hvs & Hall).
  { intros id Hid. apply embedding_in_table.
    exact (proj1 (Forall_forall _ _) Hr _ Hid). }
  exists vs. split; [assumption|]. symmetry. exact (Forall2_length_eq Hall).
Qed.

Lemma embed_rows_ok (w : list (list T)) (n : nat) (rows : list (list Z)) :
  Forall (fun r => length r = n /\ Forall (in_table w) r) rows ->
  exists e,
    sequence (map (fun r => sequence (map (embedding w) r)) rows) = Ok e /\
    shape e = repeat n (length rows).
Proof.
  induction 1 as [|r rows [Hl Hr] Hrows IH]; simpl.
  - exists []. split; reflexivity.
  - destruct (embed_row_ok Hr) as (vs & Hvs & Hlen).
    destruct IH as (e & He & Hsh).
    exists (vs :: e). rewrite Hvs, He. split; [reflexivity|].
    unfold shape in *. simpl. rewrite Hsh. f_equal. congruence.
Qed.

Lemma arange_in_table (w : list (list T)) (n : nat) :
  n <= length w -> Forall (in_table w) (arange n).
Proof.
  intros Hn. unfold arange. apply Forall_forall. intros id Hid.
  apply in_map_iff in Hid as [p [<- Hp]]. apply in_seq in Hp.
  unfold in_table. lia.
Qed.

Lemma arange_length (n : nat) : length (arange n) = n.
Proof. unfold arange. now rewrite length_map, length_seq. Qed.

Lemma act_add_shape (y x : list (list (list T))) :
  shape y = shape x -> shape (act_add y x) = shape x.
Proof.
  intros Hs. unfold act_add. rewrite shape_zip; assumption.
Qed.

Lemma run_layers_runs ls (x : list (list (list T))) :
  Forall (fun l => runs (fst l)) ls ->
  exists y,
    run_layers ls x = (layer_events (length ls), Ok y) /\ shape y = shape x.
Proof.
  intros Hls. revert x. induction Hls as [|[attn ff] ls Hl Hls IH]; intros x.
  - exists x. split; reflexivity.
  - simpl in Hl. cbn [run_layers].
    destruct (Attention_forward_runs x Hl) as (y & Hy & Hsy).
    rewrite Hy.
    pose proof (act_add_shape y x Hsy) as H1.
    assert (H2 : shape (act_add (map (map ff) (act_add y x)) (act_add y x))
                 = shape x).
    { rewrite act_add_shape; [assumption|]. apply shape_map. }
    destruct (IH (act_add (map (map ff) (act_add y x)) (act_add y x)))
      as (z & Hz & Hsz).
    exists z. split; [|congruence].
    unfold step, tbind. rewrite Hz. reflexivity.
Qed.

Lemma Transformer_forward_index_error (M : Transformer T) (x : ids) :
  (Z.of_nat (ids_n x) <= seq_len M)%Z ->
  Exists (Exists (fun id => ~ in_table (token_emb M) id)) (ids_rows x) ->
  Transformer_forward M x = ([EvTokenEmb], Raise IndexError).
Proof.
  intros Hn Hex. unfold Transformer_forward.
  destruct (Z.leb_spec (Z.of_nat (ids_n x)) (seq_len M)); [|lia].
  rewrite (embed_rows_index_error Hex). reflexivity.
Qed.

Lemma Transformer_forward_runs (M : Transformer T) (x : ids) :
  (Z.of_nat (ids_n x) <= seq_len M)%Z ->
  ids_n x <= length (pos_emb M) ->
  Forall (fun r => length r = ids_n x /\ Forall (in_table (token_emb M)) r)
    (ids_rows x) ->
  Forall (fun l => runs (fst l)) (layers M) ->
  exists y,
    Transformer_forward M x
    = (EvTokenEmb :: EvPosEmb :: layer_events (length (layers M)) ++ [EvToLogits],
       Ok y) /\
    shape y = repeat (ids_n x) (length (ids_rows x)).
Proof.
  intros Hn Hp Hrows Hls. unfold Transformer_forward.
  destruct (Z.leb_spec (Z.of_nat (ids_n x)) (seq_len M)); [|lia].
  destruct (embed_rows_ok Hrows) as (e & He & Hse).
  destruct (embed_row_ok (arange_in_table (pos_emb M) Hp)) as (p & Hpe & Hlp).
  rewrite arange_length in Hlp.
  rewrite He, Hpe.
  set (x0 := map (fun r => zip_with vec_add r p) e).
  assert (Hs0 : shape x0 = repeat (ids_n x) (length (ids_rows x))).
  { unfold x0. rewrite <- Hse. unfold shape. rewrite map_map.
    apply map_ext_in. intros r Hr. unfold vec_add.
    rewrite zip_with_length.
    assert (length r = ids_n x).
    { assert (Hin : In (length r) (shape e))
        by (unfold shape; apply in_map; exact Hr).
      rewrite Hse in Hin. now apply repeat_spec in Hin. }
    lia. }
  destruct (run_layers_runs x0 Hls) as (y & Hy & Hsy).
  exists (map (map (to_logits M)) y). split.
  - unfold step, tbind. fold x0. rewrite Hy. reflexivity.
  - rewrite shape_map. congruence.
Qed.

End TransformerRuns.

(** ** The result of the solver is a new object *)

Section StoreFresh.

Context {T : Type} `{Scalar T}.

Lemma extends_length (h h' : @store T) : extends h h' -> length h <= length h'.
Proof. intros [ext ->]. rewrite length_app. lia. Qed.

Lemma returns_new_sbind (A : Type) (m : @St T A) (f : A -> St (result ref)) :
  allocating m -> (forall v, returns_new (f v)) -> returns_new (sbind m f).
Proof.
  intros Hm Hf h. unfold sbind.
  specialize (Hm h). destruct (m h) as [v h1]. simpl in Hm.
  specialize (Hf v h1). destruct (fst (f v h1)); [|exact I].
  pose proof (extends_length Hm). lia.
Qed.

Lemma returns_new_op1 (f : @tensor T -> @tensor T) (r : ref) :
  returns_new (sbind (op1 f r) (fun l => sret (Ok l))).
Proof. intros h. simpl. lia. Qed.

Lemma returns_new_coor_descent (s : ref) n_iters (k : ref) (eps : T)
    (clamp_fn : @callable T) (mask : option ref) :
  (forall r, allocating (clamp_fn r)) ->
  returns_new (st_coor_descent s n_iters k eps clamp_fn mask).
Proof.
  intros Hc. unfold st_coor_descent. cbv zeta.
  do 3 (apply returns_new_sbind; [apply allocating_op1|]; intro).
  apply returns_new_sbind; [apply Hc|]; intro.
  apply returns_new_sbind; [unfold st_mat1; apply allocating_op1|]; intro.
  apply returns_new_sbind.
  { apply allocating_for_range. intros st'. now apply allocating_loop_body. }
  intros st. apply returns_new_sbind; [apply allocating_apply_mask|]. intros s1.
  destruct (st_a st) as [a|].
  - do 2 (apply returns_new_sbind; [apply allocating_op2|]; intro).
    apply returns_new_sbind; [unfold st_mat1; apply allocating_op1|]. intro.
    unfold st_mat1. apply returns_new_op1.
  - intros h. exact I.
Qed.

End StoreFresh.

(** ** Rows of an indexed map *)

Lemma imap_from_nth_error (A B : Type) (f : nat -> A -> B) (l : list A)
    (start n : nat) (x : A) :
  nth_error l n = Some x ->
  nth_error (imap_from start f l) n = Some (f (start + n) x).
Proof.
  revert start n; induction l as [|y l IH]; intros start [|n]; simpl;
    try discriminate.
  - intros [= ->]. now rewrite Nat.add_0_r.
  - intros Hn. rewrite (IH (S start) n Hn). do 2 f_equal. lia.
Qed.

(** ** Arithmetic with underflow: the row maximum and [exp] *)

Lemma fold_left_Rmax_ge (l : list R) (x : R) : (x <= fold_left Rmax l x)%R.
Proof.
  revert x; induction l as [|y l IH]; intros x; simpl; [lra|].
  eapply Rle_trans; [apply (Rmax_l x y) | apply IH].
Qed.

Lemma fold_left_Rmax_in (l : list R) (x y : R) :
  In y l -> (y <= fold_left Rmax l x)%R.
Proof.
  revert x; induction l as [|z l IH]; intros x; simpl; [tauto|].
  intros [-> | Hy]; [|now apply IH].
  eapply Rle_trans; [apply (Rmax_r x y) | apply fold_left_Rmax_ge].
Qed.

Lemma row_max_ge (l : list R) (y : R) : In y l -> (y <= row_max l)%R.
Proof.
  destruct l as [|x l]; simpl; [tauto|].
  intros [<- | Hy]; [apply fold_left_Rmax_ge | now apply fold_left_Rmax_in].
Qed.

Lemma fold_left_Rmax_mem (l : list R) (x : R) :
  fold_left Rmax l x = x \/ In (fold_left Rmax l x) l.
Proof.
  revert x; induction l as [|y l IH]; intros x; simpl; [now left|].
  destruct (IH (Rmax x y)) as [E | Hin]; [|now right; right].
  rewrite E. unfold Rmax. destruct (Rle_dec x y); [right; now left | now left].
Qed.

Lemma row_max_in (l : list R) : l <> [] -> In (row_max l) l.
Proof.
  destruct l as [|x l]; [congruence|]. intros _. simpl.
  destruct (fold_left_Rmax_mem l x) as [E | Hin]; [now left | now right].
Qed.

Lemma flush_exp_nonneg (u x : R) : (0 <= flush_exp u x)%R.
Proof.
  unfold flush_exp. destruct (Rlt_dec x u); [lra|]. left. apply exp_pos.
Qed.

Lemma flush_exp_le_1 (u x : R) : (x <= 0)%R -> (flush_exp u x <= 1)%R.
Proof.
  intros Hx. unfold flush_exp. destruct (Rlt_dec x u); [lra|].
  rewrite <- exp_0. destruct Hx as [Hlt | ->]; [|lra].
  left. now apply exp_increasing.
Qed.

Lemma flush_exp_0 (u : R) : (u <= 0)%R -> flush_exp u 0 = 1%R.
Proof.
  intros Hu. unfold flush_exp. destruct (Rlt_dec 0 u); [lra | apply exp_0].
Qed.

Lemma flush_exp_below (u x : R) : (x < u)%R -> flush_exp u x = 0%R.
Proof.
  intros Hx. unfold flush_exp. destruct (Rlt_dec x u); [reflexivity | lra].
Qed.

(** [logsumexp] is at least every entry of the row. *)
Lemma F_logsumexp_ge (u : R) (l : list R) (y : R) :
  (u <= 0)%R -> In y l -> (y <= F_logsumexp u l)%R.
Proof.
  intros Hu Hy. unfold F_logsumexp.
  assert (Hne : l <> []) by (intros ->; exact Hy).
  pose proof (row_max_ge l y Hy) as Hm.
  pose proof (row_max_in Hne) as Hin.
  set (m := row_max l) in *.
  assert (H1 : (1 <= Rsum (map (fun x => flush_exp u (x - m)) l))%R).
  { apply In_nth_error in Hin as [i Hi].
    rewrite <- (flush_exp_0 Hu).
    apply Rsum_ge_nth with (i := i).
    - apply Forall_forall. intros z Hz. apply in_map_iff in Hz as [t [<- _]].
      apply flush_exp_nonneg.
    - rewrite (nth_error_map_some (fun x => flush_exp u (x - m)) _ _ Hi).
      do 2 f_equal. lra. }
  assert (H0 : (0 <= ln (Rsum (map (fun x => flush_exp u (x - m)) l)))%R).
  { rewrite <- ln_1. destruct H1 as [Hlt | <-]; [|lra].
    left. apply ln_increasing; lra. }
  lra.
Qed.

(** ** Arithmetic with underflow: the masked entries of a row

    In a row with a valid entry of score [xv], the dual variable [a] is at
    most [m * max(0, eps * log k) + max(0, - xv)] after [m] passes: the
    valid entry keeps [logsumexp] from falling.  While that bound stays
    below [fmax + u * eps], the exponent of a masked entry is below the
    threshold [u] and its weight is zero. *)

Section FlushRows.

Variable fmax u eps kr : R.
Variable x : list R.
Variable mrow : list bool.
Variable v : nat.
Variable xv : R.

Hypothesis eps_pos : (0 < eps)%R.
Hypothesis u_nonpos : (u <= 0)%R.
Hypothesis mask_shape : length mrow = length x.
Hypothesis valid_v : nth_error mrow v = Some true.
Hypothesis score_v : nth_error x v = Some xv.

Let FS : Scalar R := Fscalar fmax u.
#[local] Existing Instance FS.

Let sm : list R := row_mask (Some mrow) (- fmax)%R x.
Let c : R := (eps * ln (Rmax kr (/ 10 ^ 20)))%R.
Let C : R := Rmax 0 c.
Let B : R := Rmax 0 (- xv).
Let body := row_body eps (Some mrow) (- fmax)%R c.
Let after (a : R) : rlocals :=
  RLocals sm (Some a) (row_neg_relu (map (fun t => (t + a)%R) sm)).

Lemma flush_sm_valid : nth_error sm v = Some xv.
Proof. exact (@sm_valid fmax x mrow v xv valid_v score_v). Qed.

Lemma flush_sm_idem : row_mask (Some mrow) (- fmax)%R sm = sm.
Proof. exact (@row_mask_sm fmax 0%R 0%R (Some mrow) x mask_shape). Qed.

Lemma flush_dual_bound (b : list R) (bv : R) :
  nth_error b v = Some bv ->
  (c - eps * F_logsumexp u (map (fun t => t / eps) (zip_with Rplus sm b))
   <= c - (xv + bv))%R.
Proof.
  intros Hb.
  pose proof (nth_error_zip_with Rplus _ _ _ flush_sm_valid Hb) as Hz.
  pose proof (nth_error_map_some (fun t => (t / eps)%R) _ _ Hz) as Hm.
  apply nth_error_In in Hm.
  pose proof (@F_logsumexp_ge u _ _ u_nonpos Hm) as Hl.
  set (L := F_logsumexp u _) in *.
  assert (Hmul : (xv + bv <= eps * L)%R).
  { replace (xv + bv)%R with (eps * ((xv + bv) / eps))%R by (field; lra).
    apply Rmult_le_compat_l; lra. }
  lra.
Qed.

Lemma flush_body_first :
  exists a, body (RLocals x None (row_neg_relu x)) = after a /\ (a <= C + B)%R.
Proof.
  eexists. split; [reflexivity|].
  cbn [r_s r_b tsub tmul tdiv tadd logsumexp FS Fscalar].
  fold sm.
  assert (Hb : nth_error (row_neg_relu x) v = Some (tneg (trelu xv))).
  { unfold row_neg_relu.
    apply nth_error_map_some with (f := tneg).
    now apply nth_error_map_some with (f := trelu). }
  cbn [tneg trelu FS Fscalar] in Hb.
  pose proof (@flush_dual_bound _ _ Hb) as Ha.
  eapply Rle_trans; [exact Ha|].
  unfold C, B. pose proof (Rmax_r 0 c). pose proof (Rmax_l 0 (- xv)).
  pose proof (Rmax_r 0 (- xv)).
  unfold Rmax at 1. destruct (Rle_dec 0 xv); lra.
Qed.

Lemma flush_body_next (m : nat) (a : R) :
  (a <= INR m * C + B)%R ->
  exists a', body (after a) = after a' /\ (a' <= INR (S m) * C + B)%R.
Proof.
  intros Ha. eexists. split.
  - unfold body, row_body, after. cbn [r_s r_b]. rewrite flush_sm_idem.
    reflexivity.
  - cbn [tsub tmul tdiv tadd logsumexp FS Fscalar].
    assert (Hb : nth_error (row_neg_relu (map (fun t => (t + a)%R) sm)) v
                 = Some (tneg (trelu (xv + a)%R))).
    { unfold row_neg_relu.
      apply nth_error_map_some with (f := tneg).
      apply nth_error_map_some with (f := trelu).
      apply nth_error_map_some with (f := fun t => (t + a)%R).
      exact flush_sm_valid. }
    cbn [tneg trelu FS Fscalar] in Hb.
    pose proof (@flush_dual_bound _ _ Hb) as Ha'.
    eapply Rle_trans; [exact Ha'|].
    rewrite S_INR.
    assert (HC : (0 <= C)%R) by apply Rmax_l.
    assert (Hc : (c <= C)%R) by apply Rmax_r.
    assert (HB : (- xv <= B)%R) by apply Rmax_r.
    assert (Hm : (0 <= INR m * C)%R)
      by (apply Rmult_le_pos; [apply pos_INR | exact HC]).
    unfold Rmax at 1. destruct (Rle_dec 0 (xv + a)); lra.
Qed.

Lemma flush_state (m : nat) :
  exists a,
    for_range (S m) body (RLocals x None (row_neg_relu x)) = after a /\
    (a <= INR (S m) * C + B)%R.
Proof.
  induction m as [|m (a & Ea & Ha)].
  - destruct flush_body_first as (a & Ea & Ha). exists a. split; [exact Ea|].
    simpl INR. lra.
  - rewrite for_range_last, Ea. now apply flush_body_next.
Qed.

Lemma flush_row_masked (m j : nat) :
  nth_error mrow j = Some false ->
  (INR (S m) * C + B - fmax < u * eps)%R ->
  exists w,
    row_solver x (Z.of_nat (S m)) kr eps (Some mrow) = Ok w /\
    nth_error w j = Some 0%R.
Proof.
  intros Hj Hsize. unfold row_solver. rewrite Nat2Z.id.
  change (tmul eps (tlog (tclamp_min kr lit_tiny))) with c.
  change (tneg finfo_max) with (- fmax)%R.
  fold body.
  destruct (flush_state m) as (a & Ea & Ha). rewrite Ea.
  unfold after. cbn [r_s r_a r_b]. rewrite flush_sm_idem.
  eexists. split; [reflexivity|].
  pose proof (@sm_masked fmax x mrow j mask_shape Hj) as Hs. fold sm in Hs.
  assert (Hb : nth_error (row_neg_relu (map (fun t => (t + a)%R) sm)) j
               = Some (tneg (trelu (- fmax + a)%R))).
  { unfold row_neg_relu.
    apply nth_error_map_some with (f := tneg).
    apply nth_error_map_some with (f := trelu).
    now apply nth_error_map_some with (f := fun t => (t + a)%R). }
  cbn [tneg trelu FS Fscalar] in Hb.
  pose proof (nth_error_map_some (fun t => (t + a)%R) _ _ Hs) as Hsa.
  pose proof (nth_error_zip_with Rplus _ _ _ Hsa Hb) as Hz.
  pose proof (nth_error_map_some (fun t => (t / eps)%R) _ _ Hz) as Hd.
  pose proof (nth_error_map_some (flush_exp u) _ _ Hd) as He.
  cbn [texp tdiv tadd FS Fscalar]. rewrite He. f_equal.
  apply flush_exp_below.
  pose proof (Rmax_l 0 (- fmax + a)) as Hr.
  assert (Hnum : (- fmax + a + - Rmax 0 (- fmax + a) < u * eps)%R) by lra.
  replace u with (u * eps / eps)%R by (field; lra).
  unfold Rdiv. apply Rmult_lt_compat_r; [|exact Hnum].
  now apply Rinv_0_lt_compat.
Qed.

End FlushRows.

Lemma flush_masked_zero (fmax u eps : R) (s : list (list R)) (k : list R)
    (mm : list (list bool)) (r : nat) (x : list R) (kr : R)
    (mrow : list bool) (v j : nat) (xv : R) (n_iters : Z) :
  (0 < eps)%R -> (u <= 0)%R ->
  nth_error s r = Some x -> nth_error k r = Some kr ->
  nth_error mm r = Some mrow -> length mrow = length x ->
  nth_error mrow v = Some true -> nth_error x v = Some xv ->
  nth_error mrow j = Some false ->
  (1 <= n_iters)%Z ->
  (IZR n_iters * Rmax 0 (eps * ln (Rmax kr (/ 10 ^ 20))) + Rmax 0 (- xv) - fmax
   < u * eps)%R ->
  exists out w,
    @coor_descent R (Fscalar fmax u) s n_iters k eps (@relu R (Fscalar fmax u))
      (Some mm) = Ok out /\
    nth_error out r = Some w /\ nth_error w j = Some 0%R.
Proof.
  intros Heps Hu Hx Hk Hmm Hlen Hv Hxv Hj Hn Hsize.
  assert (Hm : mask_row (Some mm) r = Some (Some mrow))
    by (unfold mask_row; now rewrite Hmm).
  pose proof (@coor_descent_row R (Fscalar fmax u) s n_iters k eps (Some mm) r
                x kr (Some mrow) Hx Hk Hm) as Hrow.
  destruct (@coor_descent_returns R (Fscalar fmax u) s n_iters k eps
              (@relu R (Fscalar fmax u)) (Some mm) Hn) as [out Hout].
  rewrite Hout in Hrow. destruct Hrow as (w & Hw & Hr).
  set (m := (Z.to_nat n_iters - 1)%nat).
  assert (En : n_iters = Z.of_nat (S m)) by lia.
  assert (Ei : IZR n_iters = INR (S m)) by (rewrite En; now rewrite <- INR_IZR_INZ).
  rewrite Ei in Hsize. rewrite En in Hw.
  destruct (@flush_row_masked fmax u eps kr x mrow v xv Heps Hu Hlen Hv Hxv m j
              Hj Hsize) as (w' & Hw' & Hz).
  rewrite Hw in Hw'. injection Hw' as <-.
  exists out, w. repeat split; assumption.
Qed.

(** ** Arithmetic with underflow: every weight lies between 0 and 1 *)

Section FlushRange.

Variable fmax u eps kr : R.
Variable x : list R.
Variable mr : option (list bool).

Hypothesis eps_pos : (0 < eps)%R.
Hypothesis mask_shape :
  match mr with Some m => length m = length x | None => True end.

Let FS : Scalar R := Fscalar fmax u.
#[local] Existing Instance FS.

Let sm : list R := row_mask mr (- fmax)%R x.
Let c : R := (eps * ln (Rmax kr (/ 10 ^ 20)))%R.
Let body := row_body eps mr (- fmax)%R c.
Let after (a : R) : rlocals :=
  RLocals sm (Some a) (row_neg_relu (map (fun t => (t + a)%R) sm)).

Lemma flush_range_idem : row_mask mr (- fmax)%R sm = sm.
Proof. exact (@row_mask_sm fmax 0%R 0%R mr x mask_shape). Qed.

Lemma flush_range_state (m : nat) :
  exists a, for_range (S m) body (RLocals x None (row_neg_relu x)) = after a.
Proof.
  induction m as [|m [a Ea]].
  - eexists. reflexivity.
  - rewrite for_range_last, Ea. eexists.
    unfold body, row_body, after. cbn [r_s r_b].
    rewrite flush_range_idem. reflexivity.
Qed.

Lemma flush_row_range (m : nat) :
  exists w,
    row_solver x (Z.of_nat (S m)) kr eps mr = Ok w /\
    length w = length x /\
    Forall (fun y => (0 <= y <= 1)%R) w.
Proof.
  unfold row_solver. rewrite Nat2Z.id.
  change (tmul eps (tlog (tclamp_min kr lit_tiny))) with c.
  change (tneg finfo_max) with (- fmax)%R.
  fold body.
  destruct (flush_range_state m) as [a Ea]. rewrite Ea.
  unfold after. cbn [r_s r_a r_b].
  rewrite flush_range_idem.
  eexists. split; [reflexivity|]. split.
  - unfold row_neg_relu. rewrite !length_map, zip_with_length, !length_map.
    rewrite Nat.min_id. exact (@sm_length fmax 0%R 0%R mr x mask_shape).
  - apply Forall_forall. intros y Hy.
    apply in_map_iff in Hy as [z [<- Hz]].
    apply in_map_iff in Hz as [t [<- Ht]].
    unfold row_neg_relu in Ht. rewrite map_map, zip_with_same_l in Ht.
    apply in_map_iff in Ht as [p [<- _]].
    cbn [texp tdiv tadd tneg trelu FS Fscalar].
    split; [apply flush_exp_nonneg|].
    apply flush_exp_le_1.
    pose proof (Rmax_r 0 p) as Hp.
    assert (Hi : (0 < / eps)%R) by now apply Rinv_0_lt_compat.
    unfold Rdiv. nra.
Qed.

End FlushRange.

Lemma flush_weights_range (fmax u eps : R) (s : list (list R)) (k : list R)
    (mask : option (list (list bool))) (r : nat) (x : list R) (kr : R)
    (mr : option (list bool)) (n_iters : Z) :
  (0 < eps)%R -> (1 <= n_iters)%Z ->
  nth_error s r = Some x -> nth_error k r = Some kr ->
  mask_row mask r = Some mr ->
  match mr with Some m => length m = length x | None => True end ->
  exists out w,
    @coor_descent R (Fscalar fmax u) s n_iters k eps (@relu R (Fscalar fmax u))
      mask = Ok out /\
    nth_error out r = Some w /\ length w = length x /\
    Forall (fun y => (0 <= y <= 1)%R) w.
Proof.
  intros Heps Hn Hx Hk Hm Hshape.
  pose proof (@coor_descent_row R (Fscalar fmax u) s n_iters k eps mask r
                x kr mr Hx Hk Hm) as Hrow.
  destruct (@coor_descent_returns R (Fscalar fmax u) s n_iters k eps
              (@relu R (Fscalar fmax u)) mask Hn) as [out Hout].
  rewrite Hout in Hrow. destruct Hrow as (w & Hw & Hr).
  assert (En : n_iters = Z.of_nat (S (Z.to_nat n_iters - 1))) by lia.
  rewrite En in Hw.
  destruct (@flush_row_range fmax u eps kr x mr Heps Hshape
              (Z.to_nat n_iters - 1)) as (w' & Hw' & Hl & Hrange).
  rewrite Hw in Hw'. injection Hw' as <-.
  exists out, w. repeat split; assumption.
Qed.

(** ** Arithmetic with underflow: the softmax branch gives a hidden key
    the weight zero *)

Lemma F_softmax_entry (u : R) (l : list R) (c : nat) (y : R) :
  nth_error l c = Some y ->
  nth_error (F_softmax u l) c
  = Some (flush_exp u (y - row_max l)
          / Rsum (map (fun t => flush_exp u (t - row_max l)) l))%R.
Proof.
  intros Hc. unfold F_softmax.
  apply nth_error_map_some
    with (f := fun e => (e / Rsum (map (fun t => flush_exp u (t - row_max l)) l))%R).
  now apply nth_error_map_some with (f := fun t => flush_exp u (t - row_max l)).
Qed.

Lemma softmax_future_zero (fmax u : R) (A : Attention R) (i j : nat)
    (sim : list (list R)) (r c c0 : nat) (row : list R) (y y0 : R) :
  use_coor_descent A = false ->
  length sim = i -> Forall (fun q => length q = j) sim ->
  nth_error sim r = Some row ->
  nth_error row c = Some y -> nth_error row c0 = Some y0 ->
  r + (j - i) < c -> c0 <= r + (j - i) -> i <= j ->
  (- fmax - y0 < u)%R ->
  exists w wr,
    @attn_of_sim R (Fscalar fmax u) A i j sim = Ok w /\
    nth_error w r = Some wr /\ nth_error wr c = Some 0%R.
Proof.
  intros Hu Hi Hj Hr Hc Hc0 Hfut Hpast Hij Hsize.
  unfold attn_of_sim. rewrite Hu.
  rewrite masked_fill_causal by assumption.
  change (@finfo_max R (Fscalar fmax u)) with fmax.
  set (fill := fun (q : nat) (xs : list R) =>
                 imap_from 0
                   (fun (p : nat) (x : R) =>
                      if (Z.of_nat q + (Z.of_nat j - Z.of_nat i) <? Z.of_nat p)%Z
                      then (- fmax)%R else x) xs).
  assert (Hrow : nth_error
                   (map (@softmax R (Fscalar fmax u))
                      (causal_fill_spec fmax i j sim)) r
                 = Some (F_softmax u (fill r row))).
  { unfold causal_fill_spec.
    erewrite nth_error_map_some
      by (apply imap_from_nth_error with (f := fill); exact Hr).
    reflexivity. }
  assert (Hfc : nth_error (fill r row) c = Some (- fmax)%R).
  { unfold fill. rewrite (imap_from_nth_error _ _ 0 _ Hc). simpl. f_equal.
    destruct (Z.ltb_spec (Z.of_nat r + (Z.of_nat j - Z.of_nat i)) (Z.of_nat c));
      [reflexivity | lia]. }
  assert (Hf0 : nth_error (fill r row) c0 = Some y0).
  { unfold fill. rewrite (imap_from_nth_error _ _ 0 _ Hc0). simpl. f_equal.
    destruct (Z.ltb_spec (Z.of_nat r + (Z.of_nat j - Z.of_nat i)) (Z.of_nat c0));
      [lia | reflexivity]. }
  do 2 eexists. split; [reflexivity|]. split; [exact Hrow|].
  rewrite (F_softmax_entry u _ _ Hfc). f_equal.
  pose proof (row_max_ge _ _ (nth_error_In _ _ Hf0)) as Hmax.
  rewrite flush_exp_below by lra.
  unfold Rdiv. apply Rmult_0_l.
Qed.

Lemma float32_max_ge : (1000 <= float32_max)%R.
Proof.
  unfold float32_max. apply IZR_le. vm_compute. discriminate.
Qed.

Lemma fully_masked_flush :
  @coor_descent R (Fscalar float32_max float32_exp_min) [[0%R]] 1 [1%R] 1%R
    (@relu R (Fscalar float32_max float32_exp_min)) (Some [[false]])
  = Ok [[1%R]].
Proof.
  cbv [coor_descent for_range Z.to_nat Pos.to_nat Pos.iter_op Nat.add loop_body
       apply_mask masked_fill mask_not zip_with map negb loc_s loc_a loc_b
       mat_add mat_add_col mat_div mat_neg mat_exp mat_map relu col_sub
       col_scale logsumexp_rows log
       tadd tsub tmul tdiv tneg texp tlog tclamp_min trelu lit_tiny finfo_max
       logsumexp Fscalar F_logsumexp row_max fold_left Rsum fold_right].
  assert (Hu : (float32_exp_min <= 0)%R) by (unfold float32_exp_min; lra).
  rewrite (Rmax_left 0 0) by lra.
  rewrite Rmax_tiny by lra.
  replace ((- float32_max + - 0) / 1 - (- float32_max + - 0) / 1)%R with 0%R
    by (field; lra).
  rewrite (flush_exp_0 Hu), Rplus_0_r, ln_1.
  set (F := float32_max).
  replace (- F + (1 * 0 - 1 * (0 + (- F + - 0) / 1)))%R with 0%R by (field; lra).
  rewrite (Rmax_left 0 0) by lra.
  replace ((0 + - 0) / 1)%R with 0%R by (field; lra).
  now rewrite (flush_exp_0 Hu).
Qed.

(** ** The weight on the valid entries of a masked row

    With a target between 1 and the number of valid entries, the level of
    a row never falls below [exp(- M / eps)], where [- M <= 0] bounds the
    valid scores from below; a masked entry then weighs at most
    [exp((M - fmax) / eps)], at every pass. *)

Lemma Rsum_masked_count (w : list R) (m : list bool) (beta : R) :
  (0 <= beta)%R -> length m = length w ->
  (forall j, nth_error m j = Some false -> (0 <= nth j w 0 <= beta)%R) ->
  (0 <= Rsum (zip_with (fun y (c : bool) => if c then 0%R else y) w m)
     <= INR (length (filter negb m)) * beta)%R.
Proof.
  intros Hbeta. revert m; induction w as [|y w IH]; intros [|c m] Hlen Hb;
    try discriminate.
  - unfold Rsum; simpl. lra.
  - injection Hlen as Hlen.
    assert (Hrec : forall j, nth_error m j = Some false ->
                             (0 <= nth j w 0 <= beta)%R)
      by (intros j Hj; exact (Hb (S j) Hj)).
    specialize (IH _ Hlen Hrec).
    change (Rsum (zip_with (fun y0 (c0 : bool) => if c0 then 0%R else y0)
                    (y :: w) (c :: m)))
      with ((if c then 0 else y)
            + Rsum (zip_with (fun y0 (c0 : bool) => if c0 then 0%R else y0) w m))%R.
    destruct c; cbn [filter negb].
    + lra.
    + cbn [length]. rewrite S_INR.
      pose proof (Hb 0 eq_refl) as H0. simpl in H0. lra.
Qed.

Lemma Rsum_valid_floor (ys : list R) (m : list bool) (L : R) :
  length m = length ys -> Forall (fun y => (0 <= y)%R) ys ->
  (forall j y, nth_error m j = Some true -> nth_error ys j = Some y ->
               (L <= y)%R) ->
  (INR (length (filter (fun c : bool => c) m)) * L <= Rsum ys)%R.
Proof.
  intros Hlen Hpos. revert m Hlen.
  induction Hpos as [|y ys Hy Hpos IH]; intros [|c m] Hlen Hv;
    try discriminate.
  - unfold Rsum; simpl. lra.
  - injection Hlen as Hlen.
    assert (Hrec : forall j z, nth_error m j = Some true ->
                               nth_error ys j = Some z -> (L <= z)%R)
      by (intros j z Hj Hz; exact (Hv (S j) z Hj Hz)).
    specialize (IH _ Hlen Hrec).
    change (Rsum (y :: ys)) with (y + Rsum ys)%R.
    destruct c; cbn [filter].
    + cbn [length]. rewrite S_INR.
      pose proof (Hv 0 y eq_refl eq_refl). lra.
    + lra.
Qed.

Lemma weight_anti (E S S' : R) :
  (0 < E)%R -> (0 < S)%R -> (S <= S')%R ->
  (Rmin E S' / S' <= Rmin E S / S)%R.
Proof.
  intros HE HS HSS.
  assert (HS' : (0 < S')%R) by lra.
  apply (Rmult_le_reg_r (S * S')); [nra|].
  replace (Rmin E S' / S' * (S * S'))%R with (Rmin E S' * S)%R by (field; lra).
  replace (Rmin E S / S * (S * S'))%R with (Rmin E S * S')%R by (field; lra).
  unfold Rmin. destruct (Rle_dec E S'), (Rle_dec E S); nra.
Qed.

Lemma valid_sum_anti (Es : list R) (m : list bool) (S S' : R) :
  Forall (fun E => (0 < E)%R) Es -> (0 < S)%R -> (S <= S')%R ->
  (Rsum (zip_with (fun y (c : bool) => if c then y else 0%R)
           (weights_at Es S') m)
   <= Rsum (zip_with (fun y (c : bool) => if c then y else 0%R)
              (weights_at Es S) m))%R.
Proof.
  intros HEs HS HSS. revert m.
  induction HEs as [|E Es HE HEs IH]; intros [|c m]; simpl;
    try (unfold Rsum; simpl; lra).
  specialize (IH m). unfold Rsum in *. simpl.
  pose proof (weight_anti HE HS HSS). destruct c; lra.
Qed.

Lemma filter_length_le (A : Type) (f : A -> bool) (l : list A) :
  length (filter f l) <= length l.
Proof.
  induction l as [|a l IH]; simpl; [lia|]. destruct (f a); simpl; lia.
Qed.

Section ValidLimit.

Variable fmax : R.
Variable eps : R.
Variable s : list (list R).
Variable k : list R.
Variable mm : list (list bool).
Variable r : nat.
Variable x : list R.
Variable kr : R.
Variable mrow : list bool.
Variable M : R.

Hypothesis eps_pos : (0 < eps)%R.
Hypothesis row_x : nth_error s r = Some x.
Hypothesis row_k : nth_error k r = Some kr.
Hypothesis row_m : nth_error mm r = Some mrow.
Hypothesis mask_shape : length mrow = length x.
Hypothesis kr_range :
  (1 <= kr <= INR (length (filter (fun c : bool => c) mrow)))%R.
Hypothesis M_nonneg : (0 <= M)%R.
Hypothesis valid_floor :
  forall j xj, nth_error mrow j = Some true -> nth_error x j = Some xj ->
               (- M <= xj)%R.

Let RS : Scalar R := Rscalar fmax.
#[local] Existing Instance RS.

Let sm : list R := row_mask (Some mrow) (- fmax)%R x.
Let kp : R := Rmax kr (/ 10 ^ 20).
Let Es : list R := map (fun t => exp (t / eps)) sm.
Let S1 : R :=
  (Rsum (map (fun y => exp (y / eps)) (zip_with Rplus sm (row_neg_relu x))) / kp)%R.
Let L : R := exp (- M / eps).
Let beta : R := exp ((M - fmax) / eps).
Let cd (n : Z) : result (list (list R)) :=
  coor_descent s n k eps relu (Some mm).

Lemma vl_kp : kp = kr.
Proof. unfold kp. apply Rmax_tiny. lra. Qed.

Lemma vl_x_nonempty : x <> [].
Proof.
  intros ->. destruct mrow; [|discriminate].
  simpl in kr_range. lra.
Qed.

Lemma vl_mask_row : mask_row (Some mm) r = Some (Some mrow).
Proof. unfold mask_row. now rewrite row_m. Qed.

Lemma vl_kr_keys : (1 <= kr <= INR (length x))%R.
Proof.
  split; [lra|]. rewrite <- mask_shape.
  eapply Rle_trans; [exact (proj2 kr_range)|].
  apply le_INR, filter_length_le.
Qed.

Lemma vl_L_pos : (0 < L)%R.
Proof. apply exp_pos. Qed.

Lemma vl_exp_floor (t : R) : (- M <= t)%R -> (L <= exp (t / eps))%R.
Proof.
  intros Ht. unfold L.
  assert (Hi : (0 < / eps)%R) by now apply Rinv_0_lt_compat.
  assert (Hd : (- M / eps <= t / eps)%R) by (unfold Rdiv; nra).
  destruct Hd as [Hlt | ->]; [left; now apply exp_increasing | lra].
Qed.

Lemma vl_sm_length : length sm = length x.
Proof. exact (@sm_length fmax 0%R 0%R (Some mrow) x mask_shape). Qed.

Lemma vl_valid_score (j : nat) :
  nth_error mrow j = Some true ->
  exists xj, nth_error x j = Some xj /\ nth_error sm j = Some xj /\ (- M <= xj)%R.
Proof.
  intros Hj.
  destruct (nth_error x j) as [xj|] eqn:Ex.
  - exists xj. split; [reflexivity|]. split.
    + exact (@sm_valid fmax x mrow j xj Hj Ex).
    + exact (valid_floor _ Hj Ex).
  - apply nth_error_None in Ex.
    assert (j < length mrow) by (apply nth_error_Some; congruence). lia.
Qed.

Lemma vl_step_L : (L <= level_step kp Es L)%R.
Proof.
  pose proof vl_L_pos as HL. pose proof (kp_pos kr) as Hkp. fold kp in Hkp.
  unfold level_step.
  assert (Hsum : (INR (length (filter (fun c : bool => c) mrow)) * L
                  <= Rsum (map (fun E => Rmin E L) Es))%R).
  { apply Rsum_valid_floor.
    - unfold Es. rewrite !length_map, vl_sm_length. exact mask_shape.
    - apply Forall_forall. intros y Hy. apply in_map_iff in Hy as [E [<- HE]].
      unfold Es in HE. apply in_map_iff in HE as [t [<- _]].
      pose proof (exp_pos (t / eps)). unfold Rmin. destruct (Rle_dec _ _); lra.
    - intros j y Hj Hy.
      destruct (@vl_valid_score j Hj) as (xj & _ & Hs & Hf).
      unfold Es in Hy.
      rewrite (nth_error_map_some (fun E => Rmin E L) _ _
                 (nth_error_map_some (fun t => exp (t / eps)) _ _ Hs)) in Hy.
      injection Hy as <-.
      pose proof (@vl_exp_floor _ Hf). rewrite Rmin_right; lra. }
  apply (Rmult_le_reg_r kp); [exact Hkp|].
  unfold Rdiv. rewrite Rmult_assoc, Rinv_l, Rmult_1_r by lra.
  rewrite vl_kp. nra.
Qed.

Lemma vl_S1_L : (L <= S1)%R.
Proof.
  pose proof vl_L_pos as HL. pose proof (kp_pos kr) as Hkp. fold kp in Hkp.
  unfold S1.
  assert (Hsum : (INR (length (filter (fun c : bool => c) mrow)) * L
                  <= Rsum (map (fun y => exp (y / eps))
                             (zip_with Rplus sm (row_neg_relu x))))%R).
  { apply Rsum_valid_floor.
    - rewrite length_map, zip_with_length, vl_sm_length.
      unfold row_neg_relu. rewrite !length_map, Nat.min_id. exact mask_shape.
    - apply Forall_forall. intros y Hy. apply in_map_iff in Hy as [t [<- _]].
      left. apply exp_pos.
    - intros j y Hj Hy.
      destruct (@vl_valid_score j Hj) as (xj & Hx & Hs & Hf).
      assert (Hb : nth_error (row_neg_relu x) j = Some (tneg (trelu xj))).
      { unfold row_neg_relu.
        apply nth_error_map_some with (f := tneg).
        now apply nth_error_map_some with (f := trelu). }
      rewrite (nth_error_map_some (fun t => exp (t / eps)) _ _
                 (nth_error_zip_with Rplus _ _ _ Hs Hb)) in Hy.
      injection Hy as <-.
      apply vl_exp_floor. cbn [tneg trelu RS Rscalar].
      unfold Rmax. destruct (Rle_dec 0 xj); lra. }
  apply (Rmult_le_reg_r kp); [exact Hkp|].
  unfold Rdiv. rewrite Rmult_assoc, Rinv_l, Rmult_1_r by lra.
  rewrite vl_kp. nra.
Qed.

Lemma vl_level_L (m : nat) : (L <= level kp Es S1 m)%R.
Proof.
  induction m as [|m IH].
  - exact vl_S1_L.
  - change (level kp Es S1 (S m)) with (level_step kp Es (level kp Es S1 m)).
    eapply Rle_trans; [exact vl_step_L|].
    apply step_mono; [apply kp_pos | exact IH].
Qed.

Lemma vl_masked_weight (m j : nat) :
  nth_error mrow j = Some false ->
  (0 <= nth j (weights_at Es (level kp Es S1 m)) 0 <= beta)%R.
Proof.
  intros Hj.
  pose proof (@sm_masked fmax x mrow j mask_shape Hj) as Hs. fold sm in Hs.
  pose proof (vl_level_L m) as HS. pose proof vl_L_pos as HL.
  set (S := level kp Es S1 m) in *.
  assert (Hw : nth_error (weights_at Es S) j
               = Some (Rmin (exp (- fmax / eps)) S / S)%R).
  { unfold weights_at, Es.
    apply nth_error_map_some with (f := fun E => (Rmin E S / S)%R).
    now apply nth_error_map_some with (f := fun t => exp (t / eps)). }
  rewrite (nth_error_nth _ _ 0%R Hw).
  pose proof (exp_pos (- fmax / eps)) as HE.
  assert (Hmin : (0 < Rmin (exp (- fmax / eps)) S <= exp (- fmax / eps))%R).
  { split; [apply Rmin_glb_lt; lra | apply Rmin_l]. }
  assert (Hbeta : beta = (exp (- fmax / eps) / L)%R).
  { unfold beta, L.
    replace ((M - fmax) / eps)%R with (- fmax / eps + - (- M / eps))%R
      by (field; lra).
    now rewrite exp_plus, exp_Ropp. }
  rewrite Hbeta. split.
  - left. apply Rdiv_lt_0_compat; lra.
  - apply Rle_trans with (exp (- fmax / eps) / S)%R.
    + unfold Rdiv. apply Rmult_le_compat_r; [|lra].
      left. apply Rinv_0_lt_compat. lra.
    + unfold Rdiv. apply Rmult_le_compat_l; [lra|].
      apply Rinv_le_contravar; lra.
Qed.

Lemma vl_row (m : nat) :
  exists out,
    cd (Z.of_nat (S m)) = Ok out /\
    nth_error out r = Some (weights_at Es (level kp Es S1 m)).
Proof.
  exact (@solver_row fmax eps s k (Some mm) r x kr (Some mrow) eps_pos row_x
           row_k vl_mask_row vl_x_nonempty mask_shape m).
Qed.

Lemma vl_weights_length (S : R) : length mrow = length (weights_at Es S).
Proof.
  unfold weights_at, Es. rewrite !length_map, vl_sm_length. exact mask_shape.
Qed.

Lemma vl_near_total (m : nat) :
  (Rabs (valid_mass (cd (Z.of_nat (S m))) (Some mm) r
         - row_mass (cd (Z.of_nat (S m))) r)
   <= INR (length (filter negb mrow)) * beta)%R.
Proof.
  destruct (vl_row m) as (out & Hout & Hr).
  rewrite Hout. unfold valid_mass, row_mass.
  rewrite (nth_error_nth _ _ [] row_m), (nth_error_nth _ _ [] Hr).
  set (w := weights_at _ _).
  pose proof (vl_weights_length (level kp Es S1 m)) as Hlen. fold w in Hlen.
  rewrite (Rsum_mask_split w mrow Hlen).
  assert (Hm : (0 <= Rsum (zip_with (fun y (c : bool) => if c then 0%R else y)
                             w mrow)
                <= INR (length (filter negb mrow)) * beta)%R).
  { apply Rsum_masked_count; [left; apply exp_pos | exact Hlen |].
    intros j Hj. exact (@vl_masked_weight m j Hj). }
  match goal with
  | |- (Rabs (?a - (?a + ?b)) <= _)%R =>
      replace (a - (a + b))%R with (- b)%R by ring
  end.
  rewrite Rabs_Ropp, Rabs_right; lra.
Qed.

Lemma vl_converges (tol : R) :
  (INR (length (filter negb mrow)) * beta < tol)%R ->
  exists N : Z, forall n, (N <= n)%Z ->
    (Rabs (valid_mass (cd n) (Some mm) r - kr) < tol)%R.
Proof.
  intros Htol.
  set (leak := (INR (length (filter negb mrow)) * beta)%R) in *.
  assert (Htol' : (0 < tol - leak)%R) by lra.
  destruct (@solver_mass_converges fmax eps s k (Some mm) r x kr (Some mrow)
              eps_pos row_x row_k vl_mask_row vl_x_nonempty mask_shape
              (tol - leak)%R vl_kr_keys Htol') as [N HN].
  exists (Z.max N 1). intros n Hn.
  specialize (HN n ltac:(lia)).
  pose proof (vl_near_total (Z.to_nat n - 1)) as Hnear.
  replace (Z.of_nat (S (Z.to_nat n - 1))) with n in Hnear by lia.
  fold leak in Hnear. unfold cd, RS in *.
  set (V := valid_mass _ _ _) in *. set (W := row_mass _ _) in *.
  replace (V - kr)%R with ((V - W) + (W - kr))%R by ring.
  pose proof (Rabs_triang (V - W) (W - kr)). lra.
Qed.

Lemma vl_valid_at (m : nat) :
  valid_mass (cd (Z.of_nat (S m))) (Some mm) r
  = Rsum (zip_with (fun y (c : bool) => if c then y else 0%R)
            (weights_at Es (level kp Es S1 m)) mrow).
Proof.
  destruct (vl_row m) as (out & Hout & Hr).
  rewrite Hout. unfold valid_mass.
  now rewrite (nth_error_nth _ _ [] row_m), (nth_error_nth _ _ [] Hr).
Qed.

Lemma vl_monotone :
  (forall n, (1 <= n)%Z ->
     (valid_mass (cd (n + 1)) (Some mm) r <= valid_mass (cd n) (Some mm) r)%R) \/
  (forall n, (1 <= n)%Z ->
     (valid_mass (cd n) (Some mm) r <= valid_mass (cd (n + 1)) (Some mm) r)%R).
Proof.
  assert (Hkp : (0 < kp)%R) by apply kp_pos.
  assert (H2 : Forall (fun E => (0 < E)%R) Es) by apply Es_pos.
  assert (H3 : Es <> []).
  { unfold Es. intros E. apply map_eq_nil in E.
    apply vl_x_nonempty. apply length_zero_iff_nil.
    rewrite <- vl_sm_length. fold sm. now rewrite E. }
  assert (H4 : (0 < S1)%R) by (pose proof vl_S1_L; pose proof vl_L_pos; lra).
  destruct (Rle_or_lt S1 (level_step kp Es S1)) as [Hup | Hdown];
    [left | right]; intros n Hn;
    set (m := (Z.to_nat n - 1)%nat);
    assert (En1 : (n + 1)%Z = Z.of_nat (S (S m))) by lia;
    assert (En : n = Z.of_nat (S m)) by lia;
    clearbody m; rewrite En1; rewrite En; rewrite !vl_valid_at;
    apply valid_sum_anti; try assumption.
  - apply (@lv_pos kp Es S1 Hkp H2 H3 H4).
  - apply (@lv_up kp Es S1 Hkp Hup).
  - apply (@lv_pos kp Es S1 Hkp H2 H3 H4).
  - apply (@lv_down kp Es S1 Hkp); lra.
Qed.

End ValidLimit.

(** ** Arithmetic with underflow: the solver branch gives a hidden key the
    weight zero *)

Lemma causal_row_allowed (i j r c : nat) :
  r < i -> i <= j -> c < j ->
  nth_error (map negb (nth r (causal_mask i j) [])) c
  = Some (negb (r + (j - i) <? c)).
Proof.
  intros Hr Hij Hc. rewrite causal_mask_row by assumption.
  rewrite map_app, !map_repeat. cbn [negb].
  destruct (Nat.ltb_spec (r + (j - i)) c) as [Hlt | Hge]; cbn [negb].
  - rewrite nth_error_app2 by (rewrite repeat_length; lia).
    rewrite repeat_length. apply nth_error_repeat. lia.
  - rewrite nth_error_app1 by (rewrite repeat_length; lia).
    apply nth_error_repeat. lia.
Qed.

Lemma solver_future_zero (fmax u : R) (A : Attention R) (i j : nat)
    (sim : list (list R)) (r c c0 : nat) (row : list R) (y y0 : R) :
  use_coor_descent A = true ->
  (0 < coor_descent_eps A)%R -> (u <= 0)%R ->
  (1 <= coor_descent_iters A)%Z ->
  length sim = i -> Forall (fun q => length q = j) sim ->
  nth_error sim r = Some row ->
  nth_error row c = Some y -> nth_error row c0 = Some y0 ->
  r + (j - i) < c -> c0 <= r + (j - i) -> i <= j ->
  (IZR (coor_descent_iters A)
   * Rmax 0 (coor_descent_eps A
             * ln (Rmax (coor_descent_sparsity_k A) (/ 10 ^ 20)))
   + Rmax 0 (- y0) - fmax
   < u * coor_descent_eps A)%R ->
  exists w wr,
    @attn_of_sim R (Fscalar fmax u) A i j sim = Ok w /\
    nth_error w r = Some wr /\ nth_error wr c = Some 0%R.
Proof.
  intros Hu Heps Hu0 Hn Hi Hj Hr Hc Hc0 Hfut Hpast Hij Hsize.
  unfold attn_of_sim. rewrite Hu.
  assert (Hri : r < i).
  { rewrite <- Hi. apply nth_error_Some. congruence. }
  assert (Hlen : length row = j)
    by exact (proj1 (Forall_forall _ _) Hj _ (nth_error_In _ _ Hr)).
  assert (Hcj : c < j).
  { rewrite <- Hlen. apply nth_error_Some. congruence. }
  set (mrow := map negb (nth r (causal_mask i j) [])).
  assert (Hm : nth_error (mask_not (causal_mask i j)) r = Some mrow).
  { unfold mask_not, mrow. apply nth_error_map_some with (f := map negb).
    apply nth_error_nth'. now rewrite causal_mask_rows. }
  assert (Hml : length mrow = length row).
  { unfold mrow. rewrite length_map, Hlen.
    apply (causal_mask_cols i j). apply nth_In. now rewrite causal_mask_rows. }
  assert (Hv : nth_error mrow c0 = Some true).
  { unfold mrow. rewrite causal_row_allowed by lia.
    destruct (Nat.ltb_spec (r + (j - i)) c0); [lia | reflexivity]. }
  assert (Hh : nth_error mrow c = Some false).
  { unfold mrow. rewrite causal_row_allowed by lia.
    destruct (Nat.ltb_spec (r + (j - i)) c); [reflexivity | lia]. }
  assert (Hk : nth_error
                 (map (fun o => @tmul R (Fscalar fmax u) o
                                  (coor_descent_sparsity_k A))
                    (repeat (@tone R (Fscalar fmax u)) i)) r
               = Some (1 * coor_descent_sparsity_k A)%R).
  { apply nth_error_map_some
      with (f := fun o => (o * coor_descent_sparsity_k A)%R).
    now apply nth_error_repeat. }
  rewrite <- (Rmult_1_l (coor_descent_sparsity_k A)) in Hsize.
  exact (@flush_masked_zero fmax u (coor_descent_eps A) sim _
           (mask_not (causal_mask i j)) r row _ mrow c0 c y0
           (coor_descent_iters A) Heps Hu0 Hr Hk Hm Hml Hv Hc0 Hh Hn Hsize).
Qed.

(** * The claims *)

(** C1: for every [n_iters >= 1] and every [k >= 1] the solver returns
    exactly the iteration of the specification: [b = -clamp_fn(scores)],
    then [n_iters] passes of mask, [a = eps*log(k) - eps*logsumexp((scores
    + b)/eps)] and [b = -clamp_fn(scores + a)], then the mask once more and
    [exp((scores + a + b)/eps)]. *)
Theorem coor_descent_computes_spec (fmax eps : R)
    (clamp_fn : list (list R) -> list (list R))
    (mask : option (list (list bool))) (k : list R) (s : list (list R))
    (n_iters : Z) :
  (1 <= n_iters)%Z ->
  Forall (fun x => (1 <= x)%R) k ->
  @coor_descent R (Rscalar fmax) s n_iters k eps clamp_fn mask
  = Ok (coor_descent_spec fmax eps clamp_fn mask k s n_iters).
Proof.
  intros Hn Hk. now apply coor_descent_refines.
Qed.

Lemma coor_descent_computes_spec_witness :
  (1 <= 50)%Z /\ Forall (fun x => (1 <= x)%R) [1%R] /\
  @coor_descent R (Rscalar float32_max) [[1; 2; 0]%R] 50 [1%R] (1 / 10)%R
    (@relu R (Rscalar float32_max)) (Some [[true; true; false]])
  = Ok (coor_descent_spec float32_max (1 / 10)%R
          (@relu R (Rscalar float32_max)) (Some [[true; true; false]])
          [1%R] [[1; 2; 0]%R] 50).
Proof.
  assert (H1 : (1 <= 50)%Z) by lia.
  assert (H2 : Forall (fun x => (1 <= x)%R) [1%R])
    by (constructor; [lra | constructor]).
  split; [exact H1 | split; [exact H2 |]].
  exact (coor_descent_computes_spec float32_max (1 / 10)
           (@relu R (Rscalar float32_max)) (Some [[true; true; false]])
           [[1; 2; 0]%R] H1 H2).
Defined.

(** C3: in the causal mask over [i] queries and [j >= i] keys, entry
    [(r, c)] is disallowed exactly when [c > r + (j - i)]; so the own
    position [r + (j - i)] of query [r] and every null-key position
    [c < j - i] are allowed. *)
Theorem causal_mask_disallows_future (i j r : nat) :
  r < i -> i <= j ->
  (forall c, c < j ->
     (bentry (causal_mask i j) r c = true <->
      (Z.of_nat r + (Z.of_nat j - Z.of_nat i) < Z.of_nat c)%Z)) /\
  bentry (causal_mask i j) r (r + (j - i)) = false /\
  (forall c, c < j - i -> bentry (causal_mask i j) r c = false).
Proof.
  intros Hr Hij. split; [|split].
  - intros c Hc. rewrite causal_mask_entry by assumption.
    rewrite Z.leb_le. lia.
  - rewrite causal_mask_entry by lia. apply Z.leb_gt. lia.
  - intros c Hc. rewrite causal_mask_entry by lia. apply Z.leb_gt. lia.
Qed.

Lemma causal_mask_disallows_future_witness :
  1 < 2 /\ 2 <= 4 /\
  (forall c, c < 4 ->
     (bentry (causal_mask 2 4) 1 c = true <->
      (Z.of_nat 1 + (Z.of_nat 4 - Z.of_nat 2) < Z.of_nat c)%Z)) /\
  bentry (causal_mask 2 4) 1 (1 + (4 - 2)) = false /\
  (forall c, c < 4 - 2 -> bentry (causal_mask 2 4) 1 c = false).
Proof.
  assert (H1 : 1 < 2) by lia.
  assert (H2 : 2 <= 4) by lia.
  split; [exact H1 | split; [exact H2 |]].
  exact (causal_mask_disallows_future H1 H2).
Defined.

(** C4: with [use_coor_descent = False] the attention weights of a head are
    the standard softmax of each row of the similarity matrix in which the
    causally disallowed entries hold the most negative value, and every
    row of weights sums to 1. *)
Theorem softmax_branch_is_masked_softmax (fmax : R) (A : Attention R) (hd : nat)
    (x : list (list R)) :
  use_coor_descent A = false ->
  exists w,
    @head_attn R (Rscalar fmax) A hd x = Ok w /\
    w = map softmax_std
          (causal_fill_spec fmax (length x)
             (length (snd (fst (@head_qkv R (Rscalar fmax) A hd x))))
             (@head_sim R (Rscalar fmax) A hd x)) /\
    (forall r, In r w -> Rsum r = 1%R).
Proof.
  intros Hu. eexists. split; [apply softmax_branch; exact Hu|].
  split; [reflexivity|]. intros r Hr.
  exact (softmax_branch_rows fmax A hd x r Hr).
Qed.

Lemma softmax_branch_is_masked_softmax_witness :
  use_coor_descent attention_example = false /\
  exists w,
    @head_attn R (Rscalar float32_max) attention_example 0 [[1%R]; [2%R]] = Ok w /\
    w = map softmax_std
          (causal_fill_spec float32_max (length [[1%R]; [2%R]])
             (length (snd (fst (@head_qkv R (Rscalar float32_max)
                                  attention_example 0 [[1%R]; [2%R]]))))
             (@head_sim R (Rscalar float32_max) attention_example 0
                [[1%R]; [2%R]])) /\
    (forall r, In r w -> Rsum r = 1%R).
Proof.
  assert (H1 : use_coor_descent attention_example = false) by reflexivity.
  split; [exact H1|].
  exact (softmax_branch_is_masked_softmax float32_max attention_example 0
           [[1%R]; [2%R]] H1).
Defined.

(** C7: [Transformer.forward] on more than [seq_len] tokens stops at the
    [assert], before any embedding or layer has run; on at most [seq_len]
    tokens the [assert] does not fail. *)
Theorem forward_asserts_length {T : Type} `{Scalar T} (M : Transformer T)
    (x : ids) :
  ((seq_len M < Z.of_nat (ids_n x))%Z ->
   Transformer_forward M x = ([], Raise AssertionError)) /\
  ((Z.of_nat (ids_n x) <= seq_len M)%Z ->
   snd (Transformer_forward M x) <> Raise AssertionError).
Proof.
  split.
  - apply forward_too_long.
  - apply forward_within_limit.
Qed.

Lemma forward_asserts_length_witness :
  ((seq_len transformer_example < Z.of_nat (ids_n (Ids 3 [[0; 1; 0]%Z])))%Z /\
   @Transformer_forward R (Rscalar float32_max) transformer_example
     (Ids 3 [[0; 1; 0]%Z]) = ([], Raise AssertionError)) /\
  ((Z.of_nat (ids_n (Ids 2 [[0; 1]%Z])) <= seq_len transformer_example)%Z /\
   snd (@Transformer_forward R (Rscalar float32_max) transformer_example
          (Ids 2 [[0; 1]%Z])) <> Raise AssertionError).
Proof.
  assert (H1 : (seq_len transformer_example
                < Z.of_nat (ids_n (Ids 3 [[0; 1; 0]%Z])))%Z) by (simpl; lia).
  assert (H2 : (Z.of_nat (ids_n (Ids 2 [[0; 1]%Z]))
                <= seq_len transformer_example)%Z) by (simpl; lia).
  split.
  - split; [exact H1|].
    exact (proj1 (@forward_asserts_length R (Rscalar float32_max)
                    transformer_example (Ids 3 [[0; 1; 0]%Z])) H1).
  - split; [exact H2|].
    exact (proj2 (@forward_asserts_length R (Rscalar float32_max)
                    transformer_example (Ids 2 [[0; 1]%Z])) H2).
Defined.

(** C8, as the code has it: a call of the solver with a [clamp_fn] that
    writes to no object that exists when it is called, as the default
    [F.relu] does, leaves the caller's score tensor, and every other object
    that existed before the call, as it was: the references bound before
    the call hold the same objects after it. *)
Theorem coor_descent_preserves_store {T : Type} `{Scalar T} (h : store)
    (s : ref) (sm : list (list T)) (n_iters : Z) (k : ref) (eps : T)
    (clamp_fn : callable) (mask : option ref) :
  (forall r, allocating (clamp_fn r)) ->
  holds h s (TMat sm) ->
  holds (snd (st_coor_descent s n_iters k eps clamp_fn mask h)) s (TMat sm) /\
  (forall l t,
     holds h l t ->
     holds (snd (st_coor_descent s n_iters k eps clamp_fn mask h)) l t).
Proof.
  intros Hc Hs.
  pose proof (allocating_coor_descent s n_iters k eps clamp_fn mask Hc h) as X.
  split.
  - exact (holds_extends X Hs).
  - intros l t Hl. exact (holds_extends X Hl).
Qed.

Lemma coor_descent_preserves_store_witness :
  holds store_example 0 (TMat [[1; 2; 0]%R]) /\
  holds (snd (@st_coor_descent R (Rscalar float32_max) 0 50 1 (1 / 10)%R
                (st_mat1 (@relu R (Rscalar float32_max))) (Some 2)
                store_example))
        0 (TMat [[1; 2; 0]%R]) /\
  (forall l t,
     holds store_example l t ->
     holds (snd (@st_coor_descent R (Rscalar float32_max) 0 50 1 (1 / 10)%R
                   (st_mat1 (@relu R (Rscalar float32_max))) (Some 2)
                   store_example))
           l t).
Proof.
  assert (H0 : forall r,
             allocating (st_mat1 (@relu R (Rscalar float32_max)) r))
    by (intros r; apply allocating_op1).
  assert (H1 : holds store_example 0 (TMat [[1; 2; 0]%R])) by reflexivity.
  split; [exact H1|].
  exact (@coor_descent_preserves_store R (Rscalar float32_max) store_example 0
           [[1; 2; 0]%R] 50 1 (1 / 10)%R
           (st_mat1 (@relu R (Rscalar float32_max))) (Some 2) H0 H1).
Defined.

(** C8, as stated, fails: [clamp_fn] is handed the caller's own score
    tensor (line 34), and a [clamp_fn] that works in place overwrites it.
    With the in-place [relu] and the scores [[-1]], the caller's tensor no
    longer holds [[-1]] after the call. *)
Lemma in_place_clamp_overwrites_scores :
  holds store_negative 0 (TMat [[(-1)%R]]) /\
  (exists l h',
     @st_coor_descent R (Rscalar float32_max) 0 1 1 (1 / 10)%R
       (in_place (@relu R (Rscalar float32_max))) None store_negative
     = (Ok l, h') /\
     holds h' 0 (TMat [[Rmax 0 (-1)]]) /\
     ~ holds h' 0 (TMat [[(-1)%R]])).
Proof.
  split; [reflexivity|].
  cbv [st_coor_descent st_loop_body st_for_range st_apply_mask in_place
       st_mat1 op1 op2 sbind sret alloc deref write set_nth length app nth
       Z.to_nat Pos.to_nat Pos.iter_op Nat.add store_negative st_s st_a st_b
       holds nth_error].
  do 2 eexists. split; [reflexivity|].
  split; [reflexivity|].
  cbv [as_mat relu mat_map map trelu Rscalar].
  intros [= Hh]. pose proof (Rmax_l 0 (-1)). lra.
Qed.

(** C9, as the code has it: removing the re-mask after the loop changes
    nothing.  For every element type, every input and every iteration
    count the solver without the final re-mask returns what [coor_descent]
    returns. *)
Theorem final_remask_changes_nothing {T : Type} `{Scalar T} (s : @matrix T)
    (n_iters : Z) (k : @column T) (eps : T) (clamp_fn : @matrix T -> @matrix T)
    (mask : option bmatrix) :
  coor_descent_no_final_mask s n_iters k eps clamp_fn mask
  = coor_descent s n_iters k eps clamp_fn mask.
Proof. apply final_mask_redundant. Qed.

(** C9, as stated, fails: no masked input with [n_iters >= 1] tells the
    solver from its variant without the final re-mask. *)
Lemma no_mask_configuration_differs :
  ~ exists (s : list (list R)) (n_iters : Z) (k : list R) (eps : R)
      (clamp_fn : list (list R) -> list (list R)) (mask : list (list bool)),
      (1 <= n_iters)%Z /\
      @coor_descent_no_final_mask R (Rscalar float32_max) s n_iters k eps
        clamp_fn (Some mask)
      <> @coor_descent R (Rscalar float32_max) s n_iters k eps clamp_fn
           (Some mask).
Proof.
  intros (s & n & k & eps & clamp_fn & mask & _ & Hne).
  apply Hne. apply final_mask_redundant.
Qed.

(** C10: the solver returns a weight matrix exactly when [n_iters >= 1];
    with [n_iters = 0] the name [a] is still unbound after the loop and the
    call ends in an unbound-variable error. *)
Theorem coor_descent_needs_an_iteration {T : Type} `{Scalar T} (s : @matrix T)
    (k : @column T) (eps : T) (clamp_fn : @matrix T -> @matrix T)
    (mask : option bmatrix) :
  coor_descent s 0 k eps clamp_fn mask = Raise UnboundLocalError /\
  (forall n_iters,
     (exists v, coor_descent s n_iters k eps clamp_fn mask = Ok v) <->
     (1 <= n_iters)%Z).
Proof.
  split; [apply coor_descent_unbound; lia|].
  intros n. split.
  - intros [v Hv]. destruct (Z_le_gt_dec 1 n) as [Hn|Hn]; [exact Hn|].
    rewrite coor_descent_unbound in Hv by lia. discriminate.
  - apply coor_descent_returns.
Qed.







(** C6: for the scores [[1, 2, 0]], an all-true mask, [k = 1], [eps = 0.1]
    and 50 passes the solver returns a row whose weight at index 1 is 1
    and is more than 0.9 of the row's mass. *)
Theorem top_one_concentration :
  (exists out,
     @coor_descent R (Rscalar float32_max) [[1; 2; 0]%R] 50 [1%R] (1 / 10)%R
       (@relu R (Rscalar float32_max)) (Some [[true; true; true]])
     = Ok out) /\
  weight_at
    (@coor_descent R (Rscalar float32_max) [[1; 2; 0]%R] 50 [1%R] (1 / 10)%R
       (@relu R (Rscalar float32_max)) (Some [[true; true; true]])) 0 1
  = 1%R /\
  (9 / 10 *
   row_mass
     (@coor_descent R (Rscalar float32_max) [[1; 2; 0]%R] 50 [1%R] (1 / 10)%R
        (@relu R (Rscalar float32_max)) (Some [[true; true; true]])) 0
   < weight_at
       (@coor_descent R (Rscalar float32_max) [[1; 2; 0]%R] 50 [1%R]
          (1 / 10)%R (@relu R (Rscalar float32_max))
          (Some [[true; true; true]])) 0 1)%R.
Proof.
  destruct top_one_example as (out & w0 & w2 & Hout & Hr & Hm).
  rewrite Hout. unfold weight_at, row_mass.
  rewrite (nth_error_nth _ _ [] Hr). unfold Rsum. cbn [nth fold_right].
  split; [now exists out|]. split; [reflexivity | exact Hm].
Qed.

(** * Further properties *)

(** X1: with at least one iteration, one target per row and a mask of the
    shape of the scores (or none), the solver returns a tensor of the shape
    of the scores. *)
Theorem coor_descent_keeps_shape {T : Type} `{Scalar T} (s : @matrix T)
    (n_iters : Z) (k : @column T) (eps : T) (mask : option bmatrix) :
  (1 <= n_iters)%Z -> length k = length s ->
  match mask with Some m => shape m = shape s | None => True end ->
  exists out,
    coor_descent s n_iters k eps relu mask = Ok out /\ shape out = shape s.
Proof. apply coor_descent_shape. Qed.

Lemma coor_descent_keeps_shape_witness :
  (1 <= 50)%Z /\
  exists out,
    @coor_descent R (Rscalar float32_max) [[1; 2; 0]; [0; 1; 3]]%R 50
      [1; 1]%R (1 / 10)%R (@relu R (Rscalar float32_max))
      (Some [[true; true; false]; [true; false; true]]) = Ok out /\
    shape out = shape [[1; 2; 0]; [0; 1; 3]]%R.
Proof.
  assert (H1 : (1 <= 50)%Z) by lia.
  split; [exact H1|].
  exact (@coor_descent_keeps_shape R (Rscalar float32_max)
           [[1; 2; 0]; [0; 1; 3]]%R 50 [1; 1]%R (1 / 10)%R
           (Some [[true; true; false]; [true; false; true]]) H1 eq_refl eq_refl).
Defined.



(** X3: over the reals, the weights of a row follow its scores as the
    solver masks them: of two keys of a row, the one with the larger masked
    score never gets the smaller weight. *)
Theorem coor_descent_weights_follow_scores (fmax eps : R)
    (s : list (list R)) (k : list R) (mask : option (list (list bool)))
    (r : nat) (x : list R) (kr : R) (mr : option (list bool)) (n_iters : Z)
    (srow : list R) (c1 c2 : nat) (y1 y2 : R) :
  (0 < eps)%R -> (1 <= n_iters)%Z ->
  nth_error s r = Some x -> nth_error k r = Some kr ->
  mask_row mask r = Some mr -> x <> [] ->
  match mr with Some m => length m = length x | None => True end ->
  nth_error (@apply_mask R mask (- fmax)%R s) r = Some srow ->
  nth_error srow c1 = Some y1 -> nth_error srow c2 = Some y2 ->
  (y1 <= y2)%R ->
  (weight_at
     (@coor_descent R (Rscalar fmax) s n_iters k eps (@relu R (Rscalar fmax))
        mask) r c1
   <= weight_at
        (@coor_descent R (Rscalar fmax) s n_iters k eps
           (@relu R (Rscalar fmax)) mask) r c2)%R.
Proof.
  intros Heps Hn Hx Hk Hm Hne Hshape Hs H1 H2 Hle.
  rewrite (@masked_row fmax s mask r x mr Hx Hm) in Hs. injection Hs as <-.
  exact (@solver_weights_monotone fmax eps s k mask r x kr mr Heps Hx Hk Hm Hne
           Hshape n_iters c1 c2 y1 y2 Hn H1 H2 Hle).
Qed.

Lemma coor_descent_weights_follow_scores_witness :
  (0 < 1 / 10)%R /\ (1 <= 50)%Z /\ (1 <= 2)%R /\
  (weight_at
     (@coor_descent R (Rscalar float32_max) [[1; 2; 0]%R] 50 [1%R] (1 / 10)%R
        (@relu R (Rscalar float32_max)) None) 0 0
   <= weight_at
        (@coor_descent R (Rscalar float32_max) [[1; 2; 0]%R] 50 [1%R]
           (1 / 10)%R (@relu R (Rscalar float32_max)) None) 0 1)%R.
Proof.
  assert (H1 : (0 < 1 / 10)%R) by lra.
  assert (H2 : (1 <= 50)%Z) by lia.
  assert (H3 : (1 <= 2)%R) by lra.
  assert (H4 : [1; 2; 0]%R <> []) by discriminate.
  split; [exact H1 | split; [exact H2 | split; [exact H3 |]]].
  exact (@coor_descent_weights_follow_scores float32_max (1 / 10)%R
           [[1; 2; 0]%R] [1%R] None 0 [1; 2; 0]%R 1%R None 50 [1; 2; 0]%R 0 1
           1%R 2%R H1 H2 eq_refl eq_refl eq_refl H4 I eq_refl eq_refl eq_refl
           H3).
Defined.

(** X4: the rows of the score tensor are solved independently: row [r] of
    the result (or the exception raised) is what the solver gives on that
    row alone, with the row's target and the row's mask. *)
Theorem coor_descent_rows_independent {T : Type} `{Scalar T} (s : @matrix T)
    (n_iters : Z) (k : @column T) (eps : T) (mask : option bmatrix) (r : nat)
    (x : list T) (kr : T) (mr : option (list bool)) :
  nth_error s r = Some x -> nth_error k r = Some kr ->
  mask_row mask r = Some mr ->
  row_of_result (coor_descent s n_iters k eps relu mask) r
  = row_of_result
      (coor_descent [x] n_iters [kr] eps relu (option_map (fun m => [m]) mr)) 0.
Proof. apply coor_descent_single_row. Qed.

Lemma coor_descent_rows_independent_witness :
  row_of_result
    (@coor_descent R (Rscalar float32_max) [[1; 2; 0]; [0; 1; 3]]%R 50
       [1; 2]%R (1 / 10)%R (@relu R (Rscalar float32_max))
       (Some [[true; true; false]; [true; false; true]])) 1
  = row_of_result
      (@coor_descent R (Rscalar float32_max) [[0; 1; 3]%R] 50 [2%R] (1 / 10)%R
         (@relu R (Rscalar float32_max)) (Some [[true; false; true]])) 0.
Proof.
  exact (@coor_descent_rows_independent R (Rscalar float32_max)
           [[1; 2; 0]; [0; 1; 3]]%R 50 [1; 2]%R (1 / 10)%R
           (Some [[true; true; false]; [true; false; true]]) 1 [0; 1; 3]%R 2%R
           (Some [true; false; true]) eq_refl eq_refl eq_refl).
Defined.

(** X5: the score at a masked position reaches the result only through
    [clamp_fn(s)]: two score tensors that agree once the mask is filled in,
    and that [clamp_fn] maps to the same tensor, give the same result. *)
Theorem masked_scores_count_only_through_clamp {T : Type} `{Scalar T}
    (s s' : @matrix T) (n_iters : Z) (k : @column T) (eps : T)
    (clamp_fn : @matrix T -> @matrix T) (mask : option bmatrix) :
  apply_mask mask (tneg finfo_max) s = apply_mask mask (tneg finfo_max) s' ->
  clamp_fn s = clamp_fn s' ->
  (1 <= n_iters)%Z ->
  coor_descent s n_iters k eps clamp_fn mask
  = coor_descent s' n_iters k eps clamp_fn mask.
Proof. apply coor_descent_masked_scores. Qed.

Lemma masked_scores_count_only_through_clamp_witness :
  @coor_descent R (Rscalar float32_max) [[1; 2; 0]%R] 50 [1%R] (1 / 10)%R
    (@relu R (Rscalar float32_max)) (Some [[true; true; false]])
  = @coor_descent R (Rscalar float32_max) [[1; 2; -5]%R] 50 [1%R] (1 / 10)%R
      (@relu R (Rscalar float32_max)) (Some [[true; true; false]]).
Proof.
  assert (H1 : @relu R (Rscalar float32_max) [[1; 2; 0]%R]
               = @relu R (Rscalar float32_max) [[1; 2; -5]%R]).
  { unfold relu, mat_map. cbn [map trelu Rscalar].
    rewrite (Rmax_left 0 0), (Rmax_left 0 (-5)) by lra. reflexivity. }
  assert (H2 : (1 <= 50)%Z) by lia.
  exact (@masked_scores_count_only_through_clamp R (Rscalar float32_max)
           [[1; 2; 0]%R] [[1; 2; -5]%R] 50 [1%R] (1 / 10)%R
           (@relu R (Rscalar float32_max)) (Some [[true; true; false]])
           eq_refl H1 H2).
Defined.

(** X6: a mask of the shape of the scores that allows every position gives
    what no mask gives. *)
Theorem all_true_mask_is_no_mask {T : Type} `{Scalar T} (s : @matrix T)
    (n_iters : Z) (k : @column T) (eps : T) (mask : bmatrix) :
  shape mask = shape s -> Forall (Forall (fun c => c = true)) mask ->
  length k = length s ->
  coor_descent s n_iters k eps relu (Some mask)
  = coor_descent s n_iters k eps relu None.
Proof. apply coor_descent_all_true. Qed.

Lemma all_true_mask_is_no_mask_witness :
  @coor_descent R (Rscalar float32_max) [[1; 2; 0]%R] 50 [1%R] (1 / 10)%R
    (@relu R (Rscalar float32_max)) (Some [[true; true; true]])
  = @coor_descent R (Rscalar float32_max) [[1; 2; 0]%R] 50 [1%R] (1 / 10)%R
      (@relu R (Rscalar float32_max)) None.
Proof.
  assert (H1 : Forall (Forall (fun c => c = true)) [[true; true; true]])
    by (repeat constructor).
  exact (@all_true_mask_is_no_mask R (Rscalar float32_max) [[1; 2; 0]%R] 50
           [1%R] (1 / 10)%R [[true; true; true]] eq_refl H1 eq_refl).
Defined.

(** X7: over the reals, once the weights of a row sum to the row's target
    [k >= 1] after [n] passes, more passes leave the row as it is. *)
Theorem coor_descent_stationary (fmax eps : R) (s : list (list R))
    (k : list R) (mask : option (list (list bool))) (r : nat) (x : list R)
    (kr : R) (mr : option (list bool)) (n n' : Z) :
  (0 < eps)%R ->
  nth_error s r = Some x -> nth_error k r = Some kr ->
  mask_row mask r = Some mr -> x <> [] ->
  match mr with Some m => length m = length x | None => True end ->
  (1 <= kr)%R -> (1 <= n <= n')%Z ->
  row_mass
    (@coor_descent R (Rscalar fmax) s n k eps (@relu R (Rscalar fmax)) mask) r
  = kr ->
  row_of_result
    (@coor_descent R (Rscalar fmax) s n' k eps (@relu R (Rscalar fmax)) mask) r
  = row_of_result
      (@coor_descent R (Rscalar fmax) s n k eps (@relu R (Rscalar fmax)) mask)
      r.
Proof.
  intros Heps Hx Hk Hm Hne Hshape Hkr Hn Hmass.
  exact (@solver_stationary fmax eps s k mask r x kr mr Heps Hx Hk Hm Hne
           Hshape n n' Hkr Hn Hmass).
Qed.

Lemma coor_descent_stationary_witness :
  row_of_result
    (@coor_descent R (Rscalar float32_max) [[0; 0]%R] 50 [2%R] (1 / 10)%R
       (@relu R (Rscalar float32_max)) None) 0
  = row_of_result
      (@coor_descent R (Rscalar float32_max) [[0; 0]%R] 1 [2%R] (1 / 10)%R
         (@relu R (Rscalar float32_max)) None) 0.
Proof.
  assert (H1 : (0 < 1 / 10)%R) by lra.
  assert (H2 : [0; 0]%R <> []) by discriminate.
  assert (H3 : (1 <= 2)%R) by lra.
  assert (H4 : (1 <= 1 <= 50)%Z) by lia.
  assert (H5 : (1 <= 1)%Z) by lia.
  exact (@coor_descent_stationary float32_max (1 / 10)%R [[0; 0]%R] [2%R] None
           0 [0; 0]%R 2%R None 1 50 H1 eq_refl eq_refl eq_refl H2 I H3 H4
           (mass_two_example H5)).
Defined.

(** X8: [log] never goes below [ln 1e-20]: every entry of the result is at
    least that, an entry at or below [1e-20] (zero and negative targets
    too) gives exactly that, and [log] is monotone. *)
Theorem log_is_clamped (fmax : R) (t : list R) :
  Forall (fun y => (ln (/ 10 ^ 20) <= y)%R) (@log R (Rscalar fmax) t) /\
  (forall x, In x t -> (x <= / 10 ^ 20)%R ->
     In (ln (/ 10 ^ 20)) (@log R (Rscalar fmax) t)) /\
  (forall x x', (x <= x')%R ->
     exists y y',
       @log R (Rscalar fmax) [x] = [y] /\ @log R (Rscalar fmax) [x'] = [y'] /\
       (y <= y')%R).
Proof. apply log_bounds. Qed.

(** X9: [chunk(3)] cuts a vector into three parts that concatenate to it;
    the parts have the same length when the vector has three times that
    length. *)
Theorem chunk3_round_trip {T : Type} (n : nat) (t : list T) :
  let '(q, k, v) := chunk3 n t in
  q ++ k ++ v = t /\
  (length t = 3 * n -> length q = n /\ length k = n /\ length v = n).
Proof.
  pose proof (chunk3_concat n t) as H1.
  pose proof (chunk3_lengths n t) as H2.
  destruct (chunk3 n t) as [[q k] v]. split; assumption.
Qed.

(** X10: merging the heads undoes splitting into heads: on vectors of
    [h * d] features, the merge of the [h] slices of width [d] gives the
    vectors back. *)
Theorem split_then_merge_heads {T : Type} (d h : nat) (xs : list (list T)) :
  Forall (fun v => length v = h * d) xs ->
  merge_heads (length xs) (map (fun hd => map (head_slice d hd) xs) (seq 0 h))
  = xs.
Proof. apply split_merge_heads. Qed.

Lemma split_then_merge_heads_witness :
  merge_heads (length [[1; 2; 3; 4]; [5; 6; 7; 8]])
    (map (fun hd => map (head_slice 2 hd) [[1; 2; 3; 4]; [5; 6; 7; 8]])
       (seq 0 2))
  = [[1; 2; 3; 4]; [5; 6; 7; 8]].
Proof.
  assert (H1 : Forall (fun v : list nat => length v = 2 * 2)
                 [[1; 2; 3; 4]; [5; 6; 7; 8]])
    by (repeat constructor).
  exact (@split_then_merge_heads nat 2 2 [[1; 2; 3; 4]; [5; 6; 7; 8]] H1).
Defined.

(** X11: an attention block on the softmax branch, or on the solver with at
    least one iteration, returns for every batch of sequences, with one
    output vector per input position. *)
Theorem attention_returns_one_vector_per_position {T : Type} `{Scalar T}
    (A : Attention T) (xs : list (list (@vec T))) :
  runs A ->
  exists ys, Attention_forward A xs = Ok ys /\ shape ys = shape xs.
Proof. apply Attention_forward_runs. Qed.

Lemma attention_returns_one_vector_per_position_witness :
  runs attention_example /\
  exists ys,
    @Attention_forward R (Rscalar float32_max) attention_example
      [[[1%R]; [2%R]]] = Ok ys /\
    shape ys = shape [[[1%R]; [2%R]]].
Proof.
  assert (H1 : runs attention_example) by (left; reflexivity).
  split; [exact H1|].
  exact (@attention_returns_one_vector_per_position R (Rscalar float32_max)
           attention_example [[[1%R]; [2%R]]] H1).
Defined.

(** X12: an attention block built with [use_coor_descent = True] and
    [coor_descent_iters <= 0] and at least one head ends in the solver's
    unbound-variable error on every non-empty batch. *)
Theorem attention_without_iterations_raises {T : Type} `{Scalar T}
    (A : Attention T) (xs : list (list (@vec T))) :
  use_coor_descent A = true -> (coor_descent_iters A <= 0)%Z ->
  1 <= heads A -> xs <> [] ->
  Attention_forward A xs = Raise UnboundLocalError.
Proof. apply Attention_forward_unbound. Qed.

Lemma attention_without_iterations_raises_witness :
  @Attention_forward R (Rscalar float32_max) attention_no_iters
    [[[1%R]; [2%R]]] = Raise UnboundLocalError.
Proof.
  assert (H1 : (coor_descent_iters attention_no_iters <= 0)%Z)
    by (simpl; lia).
  assert (H2 : 1 <= heads attention_no_iters) by (simpl; lia).
  assert (H3 : [[[1%R]; [2%R]]] <> []) by discriminate.
  exact (@attention_without_iterations_raises R (Rscalar float32_max)
           attention_no_iters [[[1%R]; [2%R]]] eq_refl H1 H2 H3).
Defined.

(** X13: [Transformer.forward] on a sequence that passes the length check
    and holds a token id outside the embedding table stops in the token
    embedding with an index error; no later step runs. *)
Theorem forward_rejects_unknown_token {T : Type} `{Scalar T}
    (M : Transformer T) (x : ids) :
  (Z.of_nat (ids_n x) <= seq_len M)%Z ->
  Exists (Exists (fun id => ~ in_table (token_emb M) id)) (ids_rows x) ->
  Transformer_forward M x = ([EvTokenEmb], Raise IndexError).
Proof. apply Transformer_forward_index_error. Qed.

Lemma forward_rejects_unknown_token_witness :
  @Transformer_forward R (Rscalar float32_max) transformer_example
    (Ids 2 [[0; 5]%Z])
  = ([EvTokenEmb], Raise IndexError).
Proof.
  assert (H1 : (Z.of_nat (ids_n (Ids 2 [[0; 5]%Z]))
                <= seq_len transformer_example)%Z) by (simpl; lia).
  assert (H2 : Exists (Exists (fun id => ~ in_table (token_emb transformer_example) id))
                 (ids_rows (Ids 2 [[0; 5]%Z]))).
  { apply Exists_cons_hd, Exists_cons_tl, Exists_cons_hd.
    unfold in_table. simpl. lia. }
  exact (@forward_rejects_unknown_token R (Rscalar float32_max)
           transformer_example (Ids 2 [[0; 5]%Z]) H1 H2).
Defined.

(** X14: [Transformer.forward] on token ids inside the table, at most
    [seq_len] of them per sequence and no more than there are position
    embeddings, through layers whose attention blocks can run, returns:
    it embeds the tokens, adds the positions, runs attention then
    feed-forward in every layer in order, then the logits, and gives one
    output vector per token. *)
Theorem forward_runs_every_layer {T : Type} `{Scalar T} (M : Transformer T)
    (x : ids) :
  (Z.of_nat (ids_n x) <= seq_len M)%Z ->
  ids_n x <= length (pos_emb M) ->
  Forall (fun r => length r = ids_n x /\ Forall (in_table (token_emb M)) r)
    (ids_rows x) ->
  Forall (fun l => runs (fst l)) (layers M) ->
  exists y,
    Transformer_forward M x
    = (EvTokenEmb :: EvPosEmb :: layer_events (length (layers M)) ++ [EvToLogits],
       Ok y) /\
    shape y = repeat (ids_n x) (length (ids_rows x)).
Proof. apply Transformer_forward_runs. Qed.

Lemma forward_runs_every_layer_witness :
  exists y,
    @Transformer_forward R (Rscalar float32_max) transformer_example
      (Ids 2 [[0; 1]%Z])
    = ([EvTokenEmb; EvPosEmb; EvAttention; EvFeedForward; EvToLogits], Ok y) /\
    shape y = [2].
Proof.
  assert (H1 : (Z.of_nat (ids_n (Ids 2 [[0; 1]%Z]))
                <= seq_len transformer_example)%Z) by (simpl; lia).
  assert (H2 : ids_n (Ids 2 [[0; 1]%Z]) <= length (pos_emb transformer_example))
    by (simpl; lia).
  assert (H3 : Forall (fun r => length r = ids_n (Ids 2 [[0; 1]%Z]) /\
                               Forall (in_table (token_emb transformer_example)) r)
                 (ids_rows (Ids 2 [[0; 1]%Z]))).
  { repeat constructor; unfold in_table; simpl; lia. }
  assert (H4 : Forall (fun l : Attention R * (list R -> list R) => runs (fst l))
                 (layers transformer_example)).
  { repeat constructor. }
  exact (@forward_runs_every_layer R (Rscalar float32_max) transformer_example
           (Ids 2 [[0; 1]%Z]) H1 H2 H3 H4).
Defined.

(** X15: with at least one iteration and an out-of-place [clamp_fn], the
    tensor the solver returns is an object of its own: its reference is
    none of those that existed before the call, so it aliases neither the
    scores, nor the targets, nor the mask; and it holds the weights the
    solver computes. *)
Theorem coor_descent_returns_new_tensor {T : Type} `{Scalar T} (h : store)
    (s : ref) (sm : list (list T)) (n_iters : Z) (k : ref) (kc : list T)
    (eps : T) (clamp_fn : @matrix T -> @matrix T) (mask : option ref)
    (bm : option bmatrix) :
  holds h s (TMat sm) -> holds h k (TCol kc) -> mask_holds h mask bm ->
  (1 <= n_iters)%Z ->
  exists l h' v,
    st_coor_descent s n_iters k eps (st_mat1 clamp_fn) mask h = (Ok l, h') /\
    coor_descent sm n_iters kc eps clamp_fn bm = Ok v /\
    holds h' l (TMat v) /\
    length h <= l.
Proof.
  intros Hs Hk Hm Hn.
  pose proof (@st_coor_descent_agrees _ _ h s sm n_iters k kc eps clamp_fn mask
                bm Hs Hk Hm) as Hag.
  destruct (@coor_descent_returns _ _ sm n_iters kc eps clamp_fn bm Hn)
    as [v Hv].
  rewrite Hv in Hag. destruct Hag as (l & h' & Hrun & Hl).
  exists l, h', v. repeat split; try assumption.
  pose proof (returns_new_coor_descent s n_iters k eps (st_mat1 clamp_fn) mask
                (fun r => allocating_op1 _ r) h) as Hnew.
  rewrite Hrun in Hnew. exact Hnew.
Qed.

Lemma coor_descent_returns_new_tensor_witness :
  exists l h' v,
    @st_coor_descent R (Rscalar float32_max) 0 50 1 (1 / 10)%R
      (st_mat1 (@relu R (Rscalar float32_max))) (Some 2) store_example
    = (Ok l, h') /\
    @coor_descent R (Rscalar float32_max) [[1; 2; 0]%R] 50 [1%R] (1 / 10)%R
      (@relu R (Rscalar float32_max)) (Some [[true; true; false]]) = Ok v /\
    holds h' l (TMat v) /\
    length store_example <= l.
Proof.
  assert (H1 : holds store_example 0 (TMat [[1; 2; 0]%R])) by reflexivity.
  assert (H2 : holds store_example 1 (TCol [1%R])) by reflexivity.
  assert (H3 : mask_holds store_example (Some 2) (Some [[true; true; false]]))
    by reflexivity.
  assert (H4 : (1 <= 50)%Z) by lia.
  exact (@coor_descent_returns_new_tensor R (Rscalar float32_max) store_example
           0 [[1; 2; 0]%R] 50 1 [1%R] (1 / 10)%R
           (@relu R (Rscalar float32_max)) (Some 2)
           (Some [[true; true; false]]) H1 H2 H3 H4).
Defined.

(** X16: on the softmax branch, in arithmetic with underflow, a key the
    causal mask hides from a query gets the weight zero, when some key the
    query may see has a similarity [y0] with [- fmax - y0] below the
    threshold [u] of [exp] (for float32: [y0 > 104 - fmax]). *)
Theorem softmax_future_weight_zero (fmax u : R) (A : Attention R) (i j : nat)
    (sim : list (list R)) (r c c0 : nat) (row : list R) (y y0 : R) :
  use_coor_descent A = false ->
  length sim = i -> Forall (fun q => length q = j) sim ->
  nth_error sim r = Some row ->
  nth_error row c = Some y -> nth_error row c0 = Some y0 ->
  r + (j - i) < c -> c0 <= r + (j - i) -> i <= j ->
  (- fmax - y0 < u)%R ->
  exists w wr,
    @attn_of_sim R (Fscalar fmax u) A i j sim = Ok w /\
    nth_error w r = Some wr /\ nth_error wr c = Some 0%R.
Proof. apply softmax_future_zero. Qed.

Lemma softmax_future_weight_zero_witness :
  exists w wr,
    @attn_of_sim R (Fscalar float32_max float32_exp_min) attention_example 2 2
      [[0; 0]; [0; 0]]%R = Ok w /\
    nth_error w 0 = Some wr /\ nth_error wr 1 = Some 0%R.
Proof.
  assert (H1 : Forall (fun q : list R => length q = 2) [[0; 0]; [0; 0]]%R)
    by (repeat constructor).
  assert (H2 : 0 + (2 - 2) < 1) by (simpl; lia).
  assert (H3 : 0 <= 0 + (2 - 2)) by (simpl; lia).
  assert (H4 : 2 <= 2) by lia.
  assert (H5 : (- float32_max - 0 < float32_exp_min)%R)
    by (pose proof float32_max_ge; unfold float32_exp_min; lra).
  exact (@softmax_future_weight_zero float32_max float32_exp_min
           attention_example 2 2 [[0; 0]; [0; 0]]%R 0 1 0 [0; 0]%R 0%R 0%R
           eq_refl eq_refl H1 eq_refl eq_refl eq_refl H2 H3 H4 H5).
Defined.


